(** * DCR graph engine: execution kernel, conformance and alignment

    A shallow embedding of [dcr-engine/src/utility.ts] (the utilities and
    the trace aligner) and [dcr-engine/src/conformance.ts] (the replay and
    the violation quantifier), with the properties of the execution kernel,
    the scoped marking helper, the memoisation key, the aligner, the
    quantifier and the serialisation layer.

    Conventions.
    - A JavaScript [Set<T>] is the list of its members in insertion order,
      kept free of duplicates by [JSSet.add].
    - An object used as a dictionary is a [gmap] of its own properties;
      reading a missing key yields [None] (JavaScript [undefined]), and
      iterating [undefined] or reading a property of it raises [TypeError].
      A key that the object does not own but inherits from
      [Object.prototype] ([inheritedNames]) reads as a function: iterating
      it or calling a [Set] method on it raises [TypeError] as well, which
      is why most lookups need not tell the two apart; where the code tests
      the value for truthiness or goes on computing with it, the lookup is
      [getProp].
    - A string is a [string]; its characters stand for UTF-16 code units.
    - Code that mutates the sets of the object [graph.marking] is a function
      from the marking to the marking it leaves behind and a completion; code
      that re-assigns the field [graph.marking] runs on a [World], the store
      of marking objects with the current reference. *)

From Stdlib Require Import ZArith Lia String Ascii DecimalString.
From stdpp Require Import functions base option list sorting strings gmap.

Local Open Scope Z_scope.

(** * The model *)

(** ** JavaScript values used by the engine *)

Module JS.

(** [number], as far as the engine uses it: the integers, [Infinity] and
    [NaN]. *)
Inductive number : Type :=
| Num (z : Z)
| Infinity
| NaN.

#[global] Instance number_eq_dec : EqDecision number.
Proof. solve_decision. Defined.

(** [a + b] *)
Definition plus (a b : number) : number :=
  match a, b with
  | NaN, _ | _, NaN => NaN
  | Infinity, _ | _, Infinity => Infinity
  | Num x, Num y => Num (x + y)
  end.

(** [a < b]; every comparison with [NaN] is false. *)
Definition lt (a b : number) : bool :=
  match a, b with
  | NaN, _ | _, NaN => false
  | Infinity, _ => false
  | Num _, Infinity => true
  | Num x, Num y => bool_decide (x < y)
  end.

(** [a <= b] *)
Definition le (a b : number) : bool :=
  match a, b with
  | NaN, _ | _, NaN => false
  | Infinity, Infinity => true
  | Infinity, Num _ => false
  | Num _, Infinity => true
  | Num x, Num y => bool_decide (x <= y)
  end.

(** [a >= b] *)
Definition ge (a b : number) : bool := le b a.

(** What is thrown: [TypeError] by the engine itself, when it iterates
    [undefined] or reads a property of it; any other error by a closure
    handed to the engine. *)
Inductive exn : Type :=
| TypeError
| Error (msg : string).

(** How a call ends: it returns, it throws, or the recursion budget of the
    model ran out (only the fuelled search functions produce the latter). *)
Inductive completion (A : Type) : Type :=
| Normal (a : A)
| Throw (e : exn)
| OutOfFuel.
Arguments Normal {A} a.
Arguments Throw {A} e.
Arguments OutOfFuel {A}.

End JS.
Export JS.

(** ** Plain objects and [Object.prototype] *)

(** The names that every plain object inherits from [Object.prototype].
    All of them are functions, except [__proto__], which reads as
    [Object.prototype] itself: each is truthy, is not iterable and has no
    method [add] or [has]. *)
Definition inheritedNames : list string :=
  ["constructor"; "hasOwnProperty"; "isPrototypeOf"; "propertyIsEnumerable";
   "toLocaleString"; "toString"; "valueOf"; "__proto__";
   "__defineGetter__"; "__defineSetter__"; "__lookupGetter__";
   "__lookupSetter__"].

Definition inherited (key : string) : bool := bool_decide (key ∈ inheritedNames).

(** What [obj[key]] finds in a plain object. *)
Inductive slot (V : Type) : Type :=
| Own (v : V)
| Inherited
| Missing.
Arguments Own {V} v.
Arguments Inherited {V}.
Arguments Missing {V}.

#[global] Instance slot_eq_dec {V} `{EqDecision V} : EqDecision (slot V).
Proof. solve_decision. Defined.

Definition getProp {V} (obj : gmap string V) (key : string) : slot V :=
  match obj !! key with
  | Some v => Own v
  | None => if inherited key then Inherited else Missing
  end.

(** ** Sets *)

Module JSSet.
Section Ops.
Context {A : Type} `{EqDecision A}.

(** [s.has(x)] *)
Definition has (s : list A) (x : A) : bool := bool_decide (x ∈ s).

(** [s.add(x)]: a new member goes last, a present one keeps its place. *)
Definition add (x : A) (s : list A) : list A :=
  if has s x then s else s ++ [x].

(** [s.delete(x)] *)
Definition delete (x : A) (s : list A) : list A :=
  filter (λ y, y ≠ x) s.

(** [new Set(iterable)] *)
Definition new_Set (l : list A) : list A :=
  foldl (λ s x, add x s) [] l.

(** Modelled from the spec: [Set.prototype.union].  The set algebra of the
    data model (union, intersection, difference) is installed on
    [Set.prototype] by a file that is not among the sources.  Every use in
    the sources either discards the result ([conditions.union(...)]) or
    clones the receiver first ([copySet(a).intersect(b)]), so the three
    operations update the receiver in place and return it. *)
Definition union (s b : list A) : list A :=
  foldl (λ s x, add x s) s b.

(** Modelled from the spec: [Set.prototype.intersect], as [union] above;
    the receiver keeps the members that the argument has. *)
Definition intersect (s b : list A) : list A :=
  filter (λ x, x ∈ b) s.

(** Modelled from the spec: [Set.prototype.difference], as [union] above;
    the receiver loses the members that the argument has. *)
Definition difference (s b : list A) : list A :=
  filter (λ x, x ∉ b) s.

End Ops.
End JSSet.


(** ** Data model *)

Definition Event := string.
Definition Label := string.
Definition Role := string.

Abbreviation EventSet := (list Event).
Abbreviation EventMap := (gmap Event (list Event)).

Record Marking : Type := mkMarking {
  executed : EventSet;
  included : EventSet;
  pending : EventSet;
}.

#[global] Instance Marking_eq_dec : EqDecision Marking.
Proof. solve_decision. Defined.

Definition with_executed (f : EventSet → EventSet) (m : Marking) : Marking :=
  mkMarking (f (executed m)) (included m) (pending m).
Definition with_included (f : EventSet → EventSet) (m : Marking) : Marking :=
  mkMarking (executed m) (f (included m)) (pending m).
Definition with_pending (f : EventSet → EventSet) (m : Marking) : Marking :=
  mkMarking (executed m) (included m) (f (pending m)).

(** The immutable part of a graph object.  Its [marking] field is the one
    thing that changes, and is kept apart (see [World]). *)
Record DCRGraph : Type := mkDCRGraph {
  events : EventSet;
  labels : list Label;
  labelMap : gmap Event Label;
  labelMapInv : gmap Label (list Event);
  roleMap : gmap Event Role;
  conditionsFor : EventMap;
  milestonesFor : EventMap;
  responseTo : EventMap;
  excludesTo : EventMap;
  includesTo : EventMap;
}.

(** [T & Optimizations] *)
Record LabelDCRPP : Type := mkLabelDCRPP {
  graph_of :> DCRGraph;
  conditions : EventSet;
  includesFor : EventMap;
  excludesFor : EventMap;
}.

(** ** utility.ts: copies and relation helpers *)

Definition copySet {A} `{EqDecision A} (set : list A) : list A :=
  JSSet.new_Set set.

Definition copyMarking (marking : Marking) : Marking :=
  {| executed := copySet (executed marking);
     included := copySet (included marking);
     pending := copySet (pending marking) |}.

(** [for (const k in obj)] visits the entries of [obj]. *)
Definition copyEventMap (eventMap : EventMap) : EventMap :=
  foldl (λ copy '(startEvent, s), <[startEvent := JSSet.new_Set s]> copy)
        ∅ (map_to_list eventMap).

(** [retRelation[j].add(e)] raises when [j] is not a key of [relation]. *)
Definition reverseRelation (relation : EventMap) : completion EventMap :=
  let retRelation : EventMap :=
    foldl (λ ret '(e, _), <[e := []]> ret) ∅ (map_to_list relation) in
  foldl (λ acc '(e, s),
           foldl (λ acc j,
                    match acc with
                    | Normal ret =>
                        match ret !! j with
                        | Some sj => Normal (<[j := JSSet.add e sj]> ret)
                        | None => Throw TypeError
                        end
                    | c => c
                    end) acc s)
        (Normal retRelation) (map_to_list relation).

(** [flipEventMap].  The guard [if (!retval[e2])] reads through the
    prototype chain: for a target [e2] that has no entry of its own and is
    named after a member of [Object.prototype] it finds the inherited member,
    leaves it, and [retval[e2].add(e1)] raises.  The relations of the data
    model give every event an entry and have no such target; the definition
    covers the relations without one and without a key [__proto__], which
    an assignment does not store ([plainTargets]). *)
Definition flipEventMap (em : EventMap) : EventMap :=
  let retval : EventMap :=
    foldl (λ ret event, <[event := []]> ret) ∅ (map_to_list em).*1 in
  foldl (λ ret '(e1, s),
           foldl (λ ret e2,
                    let ret := match ret !! e2 with
                               | Some _ => ret
                               | None => <[e2 := []]> ret
                               end in
                    <[e2 := JSSet.add e1 (default [] (ret !! e2))]> ret) ret s)
        retval (map_to_list em).

(** The relations on which [flipEventMap] returns what the definition
    says. *)
Definition plainTargets (em : EventMap) : Prop :=
  em !! ("__proto__" : Event) = None
  ∧ map_Forall (λ _ s, Forall (λ j : Event,
                                 is_Some (em !! j) ∨ inherited j = false) s)
               em.

(** ** The execution kernel *)

(** [execute]: mutates the sets of [graph.marking].  The marking returned is
    the one left behind, also when a missing relation entry makes a loop
    raise half-way. *)
Definition execute (event : Event) (graph : LabelDCRPP) (m : Marking)
  : Marking * completion unit :=
  let m := if JSSet.has (conditions graph) event
           then with_executed (JSSet.add event) m else m in
  let m := with_pending (JSSet.delete event) m in
  match responseTo graph !! event with
  | None => (m, Throw TypeError)
  | Some rs =>
    let m := foldl (λ m rEvent, with_pending (JSSet.add rEvent) m) m rs in
    match excludesTo graph !! event with
    | None => (m, Throw TypeError)
    | Some xs =>
      let m := foldl (λ m eEvent, with_included (JSSet.delete eEvent) m) m xs in
      match includesTo graph !! event with
      | None => (m, Throw TypeError)
      | Some is_ =>
        let m := foldl (λ m iEvent, with_included (JSSet.add iEvent) m) m is_ in
        (m, Normal tt)
      end
    end
  end.

Definition isAccepting (graph : DCRGraph) (m : Marking) : bool :=
  Nat.eqb (length (JSSet.intersect (copySet (pending m)) (included m))) 0.

Definition isEnabled (event : Event) (graph : DCRGraph) (m : Marking)
  : completion bool :=
  if negb (JSSet.has (included m) event) then Normal false else
  match conditionsFor graph !! event with
  | None => Throw TypeError
  | Some cs =>
    if existsb (λ cEvent, JSSet.has (included m) cEvent
                          && negb (JSSet.has (executed m) cEvent)) cs
    then Normal false else
    match milestonesFor graph !! event with
    | None => Throw TypeError
    | Some ms =>
      if existsb (λ mEvent, JSSet.has (included m) mEvent
                            && JSSet.has (pending m) mEvent) ms
      then Normal false else Normal true
    end
  end.

Definition getEnabled (graph : DCRGraph) (m : Marking) : completion EventSet :=
  foldl (λ acc event,
           match acc with
           | Normal retSet =>
             let retSet := if negb (JSSet.has (included m) event)
                           then JSSet.delete event retSet else retSet in
             match conditionsFor graph !! event with
             | None => Throw TypeError
             | Some cs =>
               let retSet :=
                 foldl (λ retSet otherEvent,
                          if JSSet.has (included m) otherEvent
                             && negb (JSSet.has (executed m) otherEvent)
                          then JSSet.delete event retSet else retSet) retSet cs in
               match milestonesFor graph !! event with
               | None => Throw TypeError
               | Some ms =>
                 Normal
                   (foldl (λ retSet otherEvent,
                             if JSSet.has (included m) otherEvent
                                && JSSet.has (pending m) otherEvent
                             then JSSet.delete event retSet else retSet) retSet ms)
               end
             end
           | c => c
           end)
        (Normal (copySet (events graph))) (events graph).

(** [graphToGraphPP]: the derived fields of the optimised graph. *)
Definition graphToGraphPP (graph : DCRGraph) : LabelDCRPP :=
  let conditions :=
    foldl (λ conditions '(key, s), JSSet.union conditions s)
          [] (map_to_list (conditionsFor graph)) in
  {| graph_of := graph;
     conditions := conditions;
     includesFor := flipEventMap (includesTo graph);
     excludesFor := flipEventMap (excludesTo graph) |}.

(** The marking [execute] leaves behind when the three relation entries of
    the event exist. *)
Definition executed_marking (e : Event) (g : LabelDCRPP) (m : Marking)
  (rs xs is_ : EventSet) : Marking :=
  {| executed := if JSSet.has (conditions g) e
                 then JSSet.add e (executed m) else executed m;
     included := JSSet.union (foldl (λ s y, JSSet.delete y s) (included m) xs) is_;
     pending := JSSet.union (JSSet.delete e (pending m)) rs |}.

(** *** Well-formedness of a graph with its marking *)

(** Every key and every member of an entry of the relation is an event. *)
Definition relation_in (ev : EventSet) (rel : EventMap) : Prop :=
  map_Forall (λ e s, e ∈ ev ∧ s ⊆ ev) rel.

(** The marking is a valid triple: its three components are sets of events. *)
Definition marking_in (ev : EventSet) (m : Marking) : Prop :=
  executed m ⊆ ev ∧ included m ⊆ ev ∧ pending m ⊆ ev.

(** Every event referenced from a relation, the role map or the marking is a
    member of [events]. *)
Definition wellFormed (g : LabelDCRPP) (m : Marking) : Prop :=
  relation_in (events g) (conditionsFor g)
  ∧ relation_in (events g) (milestonesFor g)
  ∧ relation_in (events g) (responseTo g)
  ∧ relation_in (events g) (excludesTo g)
  ∧ relation_in (events g) (includesTo g)
  ∧ map_Forall (λ e _, e ∈ events g) (roleMap g)
  ∧ marking_in (events g) m.

#[global] Instance wellFormed_dec g m : Decision (wellFormed g m).
Proof. unfold wellFormed, relation_in, marking_in. apply _. Defined.

(** *** Sample graphs *)

(** A graph over the given events: the label of an event is its name, every
    event has the role ["r"], and the relations (conditions, milestones,
    responses, excludes, includes) are as listed, an event that is not
    listed having the empty entry. *)
Definition entries (ev : EventSet) (rel : list (Event * EventSet)) : EventMap :=
  list_to_map (rel ++ ((λ e, (e, [])) <$> ev)).

Definition sampleGraph (ev : EventSet)
  (conds miles resps excls incls : list (Event * EventSet)) : DCRGraph :=
  {| events := ev;
     labels := ev;
     labelMap := list_to_map ((λ e, (e, e)) <$> ev);
     labelMapInv := list_to_map ((λ e, (e, [e])) <$> ev);
     roleMap := list_to_map ((λ e, (e, "r")) <$> ev);
     conditionsFor := entries ev conds;
     milestonesFor := entries ev miles;
     responseTo := entries ev resps;
     excludesTo := entries ev excls;
     includesTo := entries ev incls |}.

(** [A *-> B], both included. *)
Definition minimalResponse : LabelDCRPP :=
  graphToGraphPP (sampleGraph ["A"; "B"] [] [] [("A", ["B"])] [] []).

(** [A *-> A]: the event asks for itself again. *)
Definition selfResponse : LabelDCRPP :=
  graphToGraphPP (sampleGraph ["A"] [] [] [("A", ["A"])] [] []).

(** [A -->% A] and [A -->+ A], and [A -->% B]. *)
Definition selfExcludeInclude : LabelDCRPP :=
  graphToGraphPP
    (sampleGraph ["A"; "B"] [] [] [] [("A", ["A"; "B"])] [("A", ["A"])]).

(** [A -->* B] *)
Definition conditionGraph : LabelDCRPP :=
  graphToGraphPP (sampleGraph ["A"; "B"] [("B", ["A"])] [] [] [] []).

Definition allIncluded (ev : EventSet) : Marking :=
  {| executed := []; included := ev; pending := [] |}.

(** *** The statements about [execute] as the specification words them *)

(** "After [execute(e, g)]: [e ∉ pending] and every [r ∈ responseTo[e]] is
    in [pending]", with no side condition. *)
Definition pending_after_execute_stated
  (g : LabelDCRPP) (e : Event) (m : Marking) : Prop :=
  ∀ m', execute e g m = (m', Normal tt) →
    (e ∉ pending m')
    ∧ ∀ rs r, responseTo g !! e = Some rs → r ∈ rs → r ∈ pending m'.


(** ** The store of marking objects *)

(** A marking object is known by its reference.  [graph.marking] holds such a
    reference, so that re-assigning the field and mutating the object it
    points to are different things. *)
Abbreviation loc := nat.

Record World (L : Type) : Type := mkWorld {
  heap : loc → Marking;   (* the marking objects *)
  next : loc;              (* the first reference not yet in use *)
  gmarking : loc;          (* the field [graph.marking] *)
  locals : L;              (* variables captured by the running closures *)
}.
Arguments mkWorld {L}.
Arguments heap {L}.
Arguments next {L}.
Arguments gmarking {L}.
Arguments locals {L}.

(** A world in which [graph.marking] is the only marking object. *)
Definition initWorld {L} (m : Marking) (l : L) : World L :=
  {| heap := λ _, m; next := 1%nat; gmarking := 0%nat; locals := l |}.

(** The marking [graph.marking] points to. *)
Definition currentMarking {L} (w : World L) : Marking := heap w (gmarking w).

(** Stateful code: from a world to the world left behind and a completion. *)
Definition M (L A : Type) : Type := World L → World L * completion A.

#[global] Instance M_ret {L} : MRet (M L) := λ A a w, (w, Normal a).

#[global] Instance M_bind {L} : MBind (M L) :=
  λ A B k c w,
    match c w with
    | (w', Normal a) => k a w'
    | (w', Throw e) => (w', Throw e)
    | (w', OutOfFuel) => (w', OutOfFuel)
    end.

Definition throw {L A} (e : exn) : M L A := λ w, (w, Throw e).
Definition outOfFuel {L A} : M L A := λ w, (w, OutOfFuel).

(** [graph.marking] read as a reference, and assigned. *)
Definition getRef {L} : M L loc := λ w, (w, Normal (gmarking w)).
Definition setRef {L} (l : loc) : M L unit :=
  λ w, ({| heap := heap w; next := next w; gmarking := l; locals := locals w |},
        Normal tt).

(** A new marking object. *)
Definition alloc {L} (m : Marking) : M L loc :=
  λ w, ({| heap := <[next w := m]> (heap w); next := S (next w);
           gmarking := gmarking w; locals := locals w |},
        Normal (next w)).

(** Code that reads the sets of [graph.marking]. *)
Definition readMarking {L A} (f : Marking → completion A) : M L A :=
  λ w, (w, f (currentMarking w)).

(** Code that mutates the sets of [graph.marking] in place. *)
Definition onMarking {L A} (f : Marking → Marking * completion A) : M L A :=
  λ w, let '(m', c) := f (currentMarking w) in
       ({| heap := <[gmarking w := m']> (heap w); next := next w;
           gmarking := gmarking w; locals := locals w |}, c).

Definition getLocals {L} : M L L := λ w, (w, Normal (locals w)).
Definition setLocals {L} (l : L) : M L unit :=
  λ w, ({| heap := heap w; next := next w; gmarking := gmarking w; locals := l |},
        Normal tt).

(** [for (const x of l) { s = body(s, x) }] *)
Fixpoint forOf {L S B} (l : list B) (s : S) (body : S → B → M L S) : M L S :=
  match l with
  | [] => mret s
  | x :: l => s' ← body s x; forOf l s' body
  end.

(** [newGraphEnv]: "Executes fun without permanent side-effects to the
    graphs marking". *)
Definition newGraphEnv {L A} (fn : M L A) : M L A :=
  oldMarking ← getRef;
  m ← readMarking Normal;
  scratch ← alloc (copyMarking m);
  setRef scratch;;
  retval ← fn;
  setRef oldMarking;;
  mret retval.

(** The world in which the closure of [newGraphEnv] starts: a copy of the
    marking has been created and [graph.marking] refers to it. *)
Definition scratchWorld {L} (w : World L) : World L :=
  {| heap := <[next w := copyMarking (currentMarking w)]> (heap w);
     next := S (next w); gmarking := next w; locals := locals w |}.

(** The scoped-marking contract as the specification words it: after the
    call, on whatever exit path, the marking of the graph is what it was
    before the call. *)
Definition marking_restored_stated {L A} (fn : M L A) (w : World L) : Prop :=
  currentMarking (newGraphEnv fn w).1 = currentMarking w.

(** The references in use are below [next]. *)
Definition valid {L} (w : World L) : Prop := (gmarking w < next w)%nat.

(** A closure keeps to its scope when it leaves alone every marking object
    that existed before it ran, except the one [graph.marking] pointed to. *)
Definition scoped {L A} (fn : M L A) : Prop :=
  ∀ w l, valid w → (l < next w)%nat → l ≠ gmarking w →
         heap (fn w).1 l = heap w l.

(** Code that reaches marking objects through [graph.marking] only: it
    mutates the object [graph.marking] points to, or points [graph.marking]
    to an object it has created. *)
Definition tidy {L A} (c : M L A) : Prop :=
  ∀ w, valid w →
    valid (c w).1
    ∧ (next w ≤ next (c w).1)%nat
    ∧ (gmarking (c w).1 = gmarking w ∨ (next w ≤ gmarking (c w).1)%nat)
    ∧ ∀ l, (l < next w)%nat → l ≠ gmarking w → heap (c w).1 l = heap w l.

(** Code that holds the reference [l] to a marking object (a closure that
    captured [graph.marking] earlier, say) and mutates that object. *)
Definition viaAlias {L} (l : loc) (f : Marking → Marking) : M L unit :=
  λ w, ({| heap := <[l := f (heap w l)]> (heap w); next := next w;
           gmarking := gmarking w; locals := locals w |}, Normal tt).



(** ** The memoisation key *)

(** [Array.prototype.sort()] without a comparator: ascending in the order of
    the code units (a stable merge sort). *)
Definition sort (l : list string) : list string := merge_sort String.le l.

(** [Array.prototype.join()]: the members separated by [","]. *)
Definition join (l : list string) : string := String.concat "," l.

(** The keys of a marking object. *)
Inductive MarkingKey : Type := executedKey | includedKey | pendingKey.

#[global] Instance MarkingKey_eq_dec : EqDecision MarkingKey.
Proof. solve_decision. Defined.

(** [marking[setI]] *)
Definition setOf (setI : MarkingKey) (marking : Marking) : EventSet :=
  match setI with
  | executedKey => executed marking
  | includedKey => included marking
  | pendingKey => pending marking
  end.

(** The order in which [copyMarking] writes the keys of the object it
    creates. *)
Definition standardKeys : list MarkingKey :=
  [executedKey; includedKey; pendingKey].

(** [stateToStr]: "Converts a marking to a uniquely identifying string
    (naively)".  [for (const setI in marking)] visits the keys of the
    marking object in the order in which the object got them; [keys] is
    that order, and [marking] holds the sets. *)
Definition stateToStr (keys : list MarkingKey) (marking : Marking) : string :=
  foldl (λ retval setI, retval +:+ (join (sort (setOf setI marking)) +:+ ";"))
        EmptyString keys.

(** Two markings are equal as triples of sets. *)
Definition sameSets (m1 m2 : Marking) : Prop :=
  (∀ x, x ∈ executed m1 ↔ x ∈ executed m2)
  ∧ (∀ x, x ∈ included m1 ↔ x ∈ included m2)
  ∧ (∀ x, x ∈ pending m1 ↔ x ∈ pending m2).

(** The key is unambiguous, as the specification words it, for two marking
    objects with their keys in the orders [keys1] and [keys2]. *)
Definition stateToStr_unambiguous_stated
  (keys1 keys2 : list MarkingKey) (m1 m2 : Marking) : Prop :=
  stateToStr keys1 m1 = stateToStr keys2 m2 → sameSets m1 m2.

(** [c] occurs in [s]. *)
Fixpoint occurs (c : ascii) (s : string) : bool :=
  match s with
  | EmptyString => false
  | String a s' => Ascii.eqb a c || occurs c s'
  end.

(** An event name that the key renders faithfully: not empty, and free of
    the two separators. *)
Definition plainEvent (e : Event) : bool :=
  negb (String.eqb e EmptyString) && negb (occurs "," e) && negb (occurs ";" e).

Definition plainMarking (m : Marking) : Prop :=
  Forall (λ e, plainEvent e = true) (executed m ++ included m ++ pending m).


(** ** The trace aligner *)

(** The three kinds of move: ["consume"], ["model-skip"], ["trace-skip"]. *)
Inductive MoveKind : Type := consume | modelSkip | traceSkip.

Abbreviation CostFun := (MoveKind → string → number).
Abbreviation Trace := (list Label).

Record Alignment : Type := mkAlignment {
  cost : number;
  trace : list Event;
}.

#[global] Instance Alignment_eq_dec : EqDecision Alignment.
Proof. solve_decision. Defined.

(** The field [trace] of an alignment, where a parameter called [trace] is in
    scope. *)
Definition firedEvents (alignment : Alignment) : list Event := trace alignment.

(** [{ cost: Infinity, trace: [] }] *)
Definition noAlignment : Alignment := {| cost := Infinity; trace := [] |}.

(** *** The reachability oracle *)

Record CycleSets : Type := mkCycleSets {
  excl : EventSet;
  exec : EventSet;
  incl : EventSet;
}.

(** [for (const x of l) { if (body(x)) return true; } return false;] *)
Fixpoint someOf (l : list Event) (body : Event → completion bool)
  : completion bool :=
  match l with
  | [] => Normal false
  | x :: l =>
    match body x with
    | Normal true => Normal true
    | Normal false => someOf l body
    | c => c
    end
  end.

(** [for (const x of l) { if (!body(x)) return false; } return true;] *)
Fixpoint everyOf (l : list Event) (body : Event → completion bool)
  : completion bool :=
  match l with
  | [] => Normal true
  | x :: l =>
    match body x with
    | Normal true => everyOf l body
    | Normal false => Normal false
    | c => c
    end
  end.

Section Oracle.
Variables (graph : LabelDCRPP) (context : list Label) (m : Marking).

(** [canBeExecuted] and [canBeExecutedOrExcluded] each declare the same three
    mutually recursive closures; they differ in one test only:
    [canBeExecuted] lets its own argument [origEvent] pass the context test.
    [exempt] is that event, if any. *)
Variable exempt : option Event.

Definition inContext (event : Event) : bool :=
  match labelMap graph !! event with
  | Some l => JSSet.has context l
  | None => false
  end.

Fixpoint canBeExecutedRecur (fuel : nat) (event : Event) (cycleSets : CycleSets)
  {struct fuel} : completion bool :=
  match fuel with
  | O => OutOfFuel
  | S fuel =>
    (** [canBeExec || canBeExcl] of a condition or milestone that blocks *)
    let executedOrExcluded (other : Event) : completion bool :=
      match (if JSSet.has (exec cycleSets) other then Normal false
             else canBeExecutedRecur fuel other
                    {| excl := excl cycleSets; incl := incl cycleSets;
                       exec := JSSet.new_Set (exec cycleSets ++ [other]) |}) with
      | Normal true => Normal true
      | Normal false =>
        if JSSet.has (excl cycleSets) other then Normal false
        else canBeExcludedRecur fuel other
               {| excl := JSSet.new_Set (excl cycleSets ++ [other]);
                  incl := incl cycleSets; exec := exec cycleSets |}
      | c => c
      end in
    if negb (bool_decide (exempt = Some event)) && inContext event
    then Normal false else
    match isEnabled event graph m with
    | Normal true => Normal true
    | Normal false =>
      match conditionsFor graph !! event with
      | None => Throw TypeError
      | Some cs =>
        match everyOf cs (λ condForEvent,
                if negb (JSSet.has (executed m) condForEvent)
                   && JSSet.has (included m) condForEvent
                then executedOrExcluded condForEvent else Normal true) with
        | Normal true =>
          match milestonesFor graph !! event with
          | None => Throw TypeError
          | Some ms =>
            match everyOf ms (λ mistForEvent,
                    if JSSet.has (pending m) mistForEvent
                       && JSSet.has (included m) mistForEvent
                    then executedOrExcluded mistForEvent else Normal true) with
            | Normal true =>
              if negb (JSSet.has (included m) event) then
                if JSSet.has (incl cycleSets) event then Normal false
                else canBeIncludedRecur fuel event
                       {| incl := JSSet.new_Set (incl cycleSets ++ [event]);
                          excl := excl cycleSets; exec := exec cycleSets |}
              else Normal true
            | c => c
            end
          end
        | c => c
        end
      end
    | c => c
    end
  end
with canBeExcludedRecur (fuel : nat) (event : Event) (cycleSets : CycleSets)
  {struct fuel} : completion bool :=
  match fuel with
  | O => OutOfFuel
  | S fuel =>
    match excludesFor graph !! event with
    | None => Throw TypeError
    | Some xs =>
      someOf xs (λ exclForEvent,
        if JSSet.has (exec cycleSets) exclForEvent then Normal false
        else canBeExecutedRecur fuel exclForEvent
               {| excl := excl cycleSets; incl := incl cycleSets;
                  exec := JSSet.new_Set (exec cycleSets ++ [exclForEvent]) |})
    end
  end
with canBeIncludedRecur (fuel : nat) (event : Event) (cycleSets : CycleSets)
  {struct fuel} : completion bool :=
  match fuel with
  | O => OutOfFuel
  | S fuel =>
    match includesFor graph !! event with
    | None => Throw TypeError
    | Some is_ =>
      someOf is_ (λ inclForEvent,
        if JSSet.has (exec cycleSets) inclForEvent then Normal false
        else canBeExecutedRecur fuel inclForEvent
               {| excl := excl cycleSets; incl := incl cycleSets;
                  exec := JSSet.new_Set (exec cycleSets ++ [inclForEvent]) |})
    end
  end.
End Oracle.

Definition canBeExecuted (fuel : nat) (origEvent : Event) (graph : LabelDCRPP)
  (context : list Label) (m : Marking) : completion bool :=
  canBeExecutedRecur graph context m (Some origEvent) fuel origEvent
    {| excl := []; exec := [origEvent]; incl := [] |}.

Definition canBeExecutedOrExcluded (fuel : nat) (peEvent : Event)
  (graph : LabelDCRPP) (context : list Label) (m : Marking) : completion bool :=
  match canBeExecutedRecur graph context m None fuel peEvent
          {| excl := []; exec := [peEvent]; incl := [] |} with
  | Normal false =>
    canBeExcludedRecur graph context m None fuel peEvent
      {| excl := [peEvent]; exec := []; incl := [] |}
  | c => c
  end.

(** *** The search *)

(** The variables of the aligner that its closure [alignTraceLabel] shares:
    [maxCost] (declared without a value, hence [undefined] at first) and the
    two-level memo [alignState]. *)
Record AlignVars : Type := mkAlignVars {
  maxCost : option number;
  alignState : gmap nat (gmap string number);
}.

Definition setMaxCost (c : number) : M AlignVars unit :=
  vars ← getLocals;
  setLocals {| maxCost := Some c; alignState := alignState vars |}.

(** Runs [c] with local variables of its own. *)
Definition withLocals {L L' A} (init : L') (c : M L' A) : M L A :=
  λ w,
    let '(w', r) := c {| heap := heap w; next := next w;
                         gmarking := gmarking w; locals := init |} in
    ({| heap := heap w'; next := next w'; gmarking := gmarking w';
        locals := locals w |}, r).

Section Align.
Variables (graph : LabelDCRPP) (context : list Label) (alignCost : CostFun)
          (toDepth : number) (pruning : bool).

(** The recursion budget handed to each query of the reachability oracle. *)
Variable oracleFuel : nat.

(** [keys] is the order of the keys of the marking object that
    [graph.marking] refers to, which [stateToStr] follows: the order of the
    caller's object where the search runs on it, [standardKeys] inside a
    move, which runs on a copy made by [copyMarking]. *)
Fixpoint alignTraceLabel (fuel : nat) (keys : list MarkingKey) (trace : Trace)
  (curCost curDepth : number) {struct fuel} : M AlignVars Alignment :=
  match fuel with
  | O => outOfFuel
  | S fuel =>
    vars ← getLocals;
    (* Futile to continue search along this path *)
    if match maxCost vars with Some mc => JS.ge curCost mc | None => false end
    then mret noAlignment else
    if JS.ge curDepth toDepth then mret noAlignment else
    stateStr ← readMarking (λ m, Normal (stateToStr keys m));
    let traceLen := length trace in
    match alignState vars !! traceLen with
    | None => throw TypeError
    | Some visited =>
      (* Already visited state with better cost *)
      if match visited !! stateStr with
         | Some visitedCost => JS.le visitedCost curCost
         | None => false
         end
      then mret noAlignment else
      setLocals {| maxCost := maxCost vars;
                   alignState := <[traceLen := <[stateStr := curCost]> visited]>
                                   (alignState vars) |};;
      isAccept ← readMarking (λ m, Normal (isAccepting graph m));
      (* Found alignment *)
      if isAccept && Nat.eqb traceLen 0
      then mret {| cost := curCost; trace := [] |} else
      (* Consume *)
      bestAlignment ←
        match trace with
        | [] => mret noAlignment
        | label :: rest =>
          match labelMapInv graph !! label with
          | None => throw TypeError
          | Some evs =>
            forOf evs noAlignment (λ bestAlignment event,
              enabled ← readMarking (isEnabled event graph);
              if enabled : bool then
                alignment ← newGraphEnv (
                  onMarking (execute event graph);;
                  alignTraceLabel fuel standardKeys rest
                    (JS.plus curCost (alignCost consume event))
                    (JS.plus curDepth (Num 1)));
                if JS.lt (cost alignment) (cost bestAlignment) then
                  setMaxCost (cost alignment);;
                  mret {| cost := cost alignment;
                          trace := event :: firedEvents alignment |}
                else mret bestAlignment
              else mret bestAlignment)
          end
        end;
      (* Trace-skip *)
      bestAlignment ←
        match trace with
        | [] => mret bestAlignment
        | label :: rest =>
          alignment ← alignTraceLabel fuel keys rest
                        (JS.plus curCost (alignCost traceSkip label))
                        (JS.plus curDepth (Num 1));
          if JS.lt (cost alignment) (cost bestAlignment) then
            setMaxCost (cost alignment);; mret alignment
          else mret bestAlignment
        end;
      (* Check if the next event can ever be reached *)
      vars ← getLocals;
      isGood ←
        (if pruning && bool_decide (maxCost vars = Some Infinity) then
           match trace with
           | label :: _ =>
             match labelMapInv graph !! label with
             | None => throw TypeError
             | Some evs =>
               forOf evs false (λ isGood event,
                 if isGood : bool then mret true
                 else readMarking (canBeExecuted oracleFuel event graph context))
             end
           | [] =>
             m ← readMarking Normal;
             forOf (JSSet.intersect (copySet (pending m)) (included m)) true
               (λ isGood pEvent,
                 if isGood : bool
                 then readMarking
                        (canBeExecutedOrExcluded oracleFuel pEvent graph context)
                 else mret false)
           end
         else mret true);
      if negb isGood then mret noAlignment else
      (* Model-skip *)
      enabled ← readMarking (getEnabled graph);
      forOf enabled bestAlignment (λ bestAlignment event,
        alignment ← newGraphEnv (
          onMarking (execute event graph);;
          alignTraceLabel fuel standardKeys trace
            (JS.plus curCost (alignCost modelSkip event))
            (JS.plus curDepth (Num 1)));
        if JS.lt (cost alignment) (cost bestAlignment) then
          setMaxCost (cost alignment);;
          mret {| cost := cost alignment; trace := event :: firedEvents alignment |}
        else mret bestAlignment)
    end
  end.

(** The value first given to [maxCost]: the depth limit when there is one,
    else the cost of skipping every token of the trace plus the cost of
    aligning the empty trace from the current marking. *)
Definition initialBound (fuel : nat) (keys : list MarkingKey) (trace : Trace)
  : M AlignVars number :=
  if negb (bool_decide (toDepth = Infinity)) then mret toDepth
  else
    let skipAll := foldl JS.plus (Num 0) (alignCost traceSkip <$> trace) in
    alignEmpty ← alignTraceLabel fuel keys [] (Num 0) (Num 0);
    mret (JS.plus skipAll (cost alignEmpty)).

(** The aligner (the default export of the module); [keys] is the order of
    the keys of the marking object the graph has at the call. *)
Definition align {L} (fuel : nat) (keys : list MarkingKey) (trace : Trace)
  : M L Alignment :=
  withLocals {| maxCost := None; alignState := {[ 0%nat := ∅ ]} |} (
    bound ← initialBound fuel keys trace;
    setMaxCost bound;;
    vars ← getLocals;
    setLocals {| maxCost := maxCost vars;
                 alignState := foldl (λ st i, <[i := ∅]> st) (alignState vars)
                                     (seq 0 (S (length trace))) |};;
    alignTraceLabel fuel keys trace (Num 0) (Num 0)).
End Align.

(** Every move costs one. *)
Definition unitCost : CostFun := λ _ _, Num 1.

(** One event [A], labelled ["A"], excluded in the initial marking. *)
Definition loneEvent : LabelDCRPP :=
  graphToGraphPP (sampleGraph ["A"] [] [] [] [] []).

Definition noneIncluded : Marking :=
  {| executed := []; included := []; pending := [] |}.


(** ** conformance.ts: replay and the violation quantifier *)

Record RoleEvent : Type := mkRoleEvent {
  role : Role;
  activity : Label;
}.

Abbreviation RoleTrace := (list RoleEvent).

(** [Event → Event → number] *)
Abbreviation FuzzyRelation := (gmap Event (gmap Event number)).

Module RV.
Record RelationViolations : Type := mk {
  conditionsFor : FuzzyRelation;
  responseTo : FuzzyRelation;
  excludesTo : FuzzyRelation;
  milestonesFor : FuzzyRelation;
}.
End RV.
Abbreviation RelationViolations := RV.RelationViolations.

Record Quantified : Type := mkQuantified {
  totalViolations : number;
  violations : RelationViolations;
  activations : RelationViolations;
}.

(** [acc[key] || 0]: [undefined], [0] and [NaN] are falsy. *)
Definition orZero (cell : option number) : number :=
  match cell with
  | Some (Num z) => Num z
  | Some Infinity => Infinity
  | Some NaN | None => Num 0
  end.

(** [mergeFuzRels].  [e1 in retval] and [acc[key] || 0] read through the
    prototype chain: for a row or a cell of [viols2] that [viols1] lacks and
    that is named after a member of [Object.prototype] they find the
    inherited function, and what the code computes with it is not a number.
    The tables that [quantifyRec] merges have their rows and cells named
    after events of the graph and all present; the definition covers the
    tables [viols2] without such a name ([plainTable]). *)
Definition mergeFuzRels (viols1 viols2 : FuzzyRelation) : FuzzyRelation :=
  foldl (λ retval '(e1, row2),
           match retval !! e1 with
           | Some row1 =>
             <[e1 := foldl (λ acc '(key, value),
                              <[key := JS.plus (orZero (acc !! key)) value]> acc)
                           row1 (map_to_list row2)]> retval
           | None => <[e1 := row2]> retval
           end)
        viols1 (map_to_list viols2).

(** No row and no cell of the table is named after a member of
    [Object.prototype]. *)
Definition plainTable (viols : FuzzyRelation) : Prop :=
  map_Forall (λ (e1 : Event) row,
                inherited e1 = false
                ∧ map_Forall (λ (key : Event) _, inherited key = false) row)
             viols.

Definition mergeViolations (viols1 viols2 : RelationViolations)
  : RelationViolations :=
  {| RV.conditionsFor := mergeFuzRels (RV.conditionsFor viols1) (RV.conditionsFor viols2);
     RV.responseTo := mergeFuzRels (RV.responseTo viols1) (RV.responseTo viols2);
     RV.excludesTo := mergeFuzRels (RV.excludesTo viols1) (RV.excludesTo viols2);
     RV.milestonesFor := mergeFuzRels (RV.milestonesFor viols1) (RV.milestonesFor viols2) |}.

Definition emptyFuzzyRel (events : EventSet) : FuzzyRelation :=
  foldl (λ retval event,
           <[event := foldl (λ row event2, <[event2 := Num 0]> row) ∅ events]> retval)
        ∅ events.

Definition emptyEventMap (events : EventSet) : EventMap :=
  foldl (λ retval event, <[event := []]> retval) ∅ events.

(** [computeActivations].  The test [event === executedEvent && rel[event]]
    is one of truthiness: an entry that [rel] does not own but inherits from
    [Object.prototype] passes it, and [rel[event].has(event2)] raises at the
    first [event2] (there is one: [event] itself). *)
Definition computeActivations (executedEvent : Event) (events : EventSet)
  (rel : EventMap) : completion FuzzyRelation :=
  let zeros := foldl (λ row event2, <[event2 := Num 0]> row) ∅ events in
  foldl (λ acc event,
           match acc with
           | Normal retval =>
             if bool_decide (event = executedEvent) then
               match getProp rel event with
               | Own targets =>
                 Normal (<[event :=
                            foldl (λ row event2,
                                     <[event2 := if JSSet.has targets event2
                                                 then Num 1 else Num 0]> row)
                                  ∅ events]> retval)
               | Inherited => Throw TypeError
               | Missing => Normal (<[event := zeros]> retval)
               end
             else Normal (<[event := zeros]> retval)
           | c => c
           end)
        (Normal ∅) events.

(** [{ conditionsFor: {}, responseTo: {}, excludesTo: {}, milestonesFor: {} }] *)
Definition noRelations : RelationViolations :=
  {| RV.conditionsFor := ∅; RV.responseTo := ∅;
     RV.excludesTo := ∅; RV.milestonesFor := ∅ |}.

Definition emptyViolations (events : EventSet) : RelationViolations :=
  {| RV.conditionsFor := emptyFuzzyRel events;
     RV.responseTo := emptyFuzzyRel events;
     RV.excludesTo := emptyFuzzyRel events;
     RV.milestonesFor := emptyFuzzyRel events |}.

(** [rel[a][b]++]: raises when the row [rel[a]] is missing; a missing cell
    becomes [NaN].  (The rows are those of [emptyFuzzyRel(graph.events)];
    the definition covers the events [a] and [b] that are not named after a
    member of [Object.prototype], as those of the data model are not.) *)
Definition increment (rel : FuzzyRelation) (a b : Event)
  : completion FuzzyRelation :=
  match rel !! a with
  | None => Throw TypeError
  | Some row =>
    Normal (<[a := <[b := match row !! b with
                          | Some n => JS.plus n (Num 1)
                          | None => NaN
                          end]> row]> rel)
  end.

(** [if (!rel[a]) rel[a] = {}; if (!rel[a][b]) rel[a][b] = 0; rel[a][b]++;]
    (with the same proviso on the names [a] and [b]). *)
Definition incrementFrom0 (rel : FuzzyRelation) (a b : Event) : FuzzyRelation :=
  let row := default ∅ (rel !! a) in
  <[a := <[b := JS.plus (orZero (row !! b)) (Num 1)]> row]> rel.

(** [copySet(a).intersect(b)] and [copySet(a).difference(b)] where [a] and
    [b] are looked up in a plain object.  [new Set(undefined)] is the empty
    set, and [new Set] of an inherited member raises, a function not being
    iterable; the in-place operation (see [JSSet.union]) tests each member
    of the receiver against its operand, so an operand that is no set raises
    unless the receiver is empty. *)
Definition combineOpt (op : EventSet → EventSet → EventSet)
  (a b : slot EventSet) : completion EventSet :=
  match a with
  | Inherited => Throw TypeError
  | _ =>
    match copySet (match a with Own s => s | _ => [] end), b with
    | [], _ => Normal []
    | s, Own b => Normal (op s b)
    | _, _ => Throw TypeError
    end
  end.

Section Conformance.

(** The engine with sub-process scopes, [executionEngine.ts], is not among
    the sources.  The replay and the quantifier are given here for any
    engine: [isEnabledS(event, graph, group).enabled] and
    [isAcceptingS(graph, graph)] read the marking, [executeS(event, graph)]
    mutates it.  [SubProcess] is the type of a sub-process scope. *)
Context {SubProcess : Type}.

Record DCRGraphS : Type := mkDCRGraphS {
  graphS_of :> DCRGraph;
  subProcessMap : gmap Event SubProcess;
}.

Variable isAcceptingS : DCRGraphS → Marking → bool.
Variable isEnabledS : Event → DCRGraphS → option SubProcess → Marking → bool.
Variable executeS : Event → DCRGraphS → Marking → Marking * completion unit.

(** [graph.marking = copyMarking(initMarking)] *)
Definition resetMarking {L} (initMarking : Marking) : M L unit :=
  fresh ← alloc (copyMarking initMarking); setRef fresh.

Fixpoint replayTraceS (graph : DCRGraphS) (trace : RoleTrace) : M unit bool :=
  match trace with
  | [] => readMarking (λ m, Normal (isAcceptingS graph m))
  | head :: tail =>
    (* Open world principle! *)
    if negb (JSSet.has (labels graph) (activity head))
    then replayTraceS graph tail else
    m ← readMarking Normal;
    let initMarking := copyMarking m in
    match labelMapInv graph !! activity head with
    | None => throw TypeError
    | Some evs =>
      forOf evs false (λ retval event,
        if negb (bool_decide (roleMap graph !! event = Some (role head)))
        then mret retval else
        (* [group] is the sub-process of the event, or the graph itself *)
        let group := subProcessMap graph !! event in
        enabled ← readMarking (λ m, Normal (isEnabledS event graph group m));
        if enabled : bool then
          onMarking (executeS event graph);;
          retval ← (if retval : bool then mret true
                    else replayTraceS graph tail);
          resetMarking initMarking;;
          mret retval
        else mret retval)
    end
  end.

(** The state of the loop over the candidate events in [quantifyRec]. *)
Record Best : Type := mkBest {
  leastViolations : number;
  bestRelationViolations : RelationViolations;
  bestRelationActivations : RelationViolations;
}.

Section QuantifyRec.
Variables (excludesFor responseFor : EventMap).

(** The violations charged to the end of the trace. *)
Definition responseViolations (graph : DCRGraphS) (exSinceEx : EventMap)
  (m : Marking) : completion (FuzzyRelation * number) :=
  foldl (λ acc event,
           match acc with
           | Normal st =>
             match combineOpt JSSet.intersect (getProp responseFor event)
                                              (getProp exSinceEx event) with
             | Normal others =>
               foldl (λ acc otherEvent,
                        match acc with
                        | Normal (responseTo, totalViolations) =>
                          match increment responseTo otherEvent event with
                          | Normal responseTo =>
                              Normal (responseTo, JS.plus totalViolations (Num 1))
                          | Throw e => Throw e
                          | OutOfFuel => OutOfFuel
                          end
                        | c => c
                        end) (Normal st) others
             | Throw e => Throw e
             | OutOfFuel => OutOfFuel
             end
           | c => c
           end)
        (Normal (emptyFuzzyRel (events graph), Num 0))
        (JSSet.intersect (copySet (pending m)) (included m)).

(** The activations of executing [event], relation by relation. *)
Definition localActivations (graph : DCRGraphS) (event : Event)
  : completion RelationViolations :=
  match computeActivations event (events graph) (conditionsFor graph) with
  | Normal cond =>
    match computeActivations event (events graph) (responseTo graph) with
    | Normal resp =>
      match computeActivations event (events graph) (excludesTo graph) with
      | Normal excl =>
        match computeActivations event (events graph) (milestonesFor graph) with
        | Normal mile =>
          Normal {| RV.conditionsFor := cond; RV.responseTo := resp;
                    RV.excludesTo := excl; RV.milestonesFor := mile |}
        | Throw e => Throw e
        | OutOfFuel => OutOfFuel
        end
      | Throw e => Throw e
      | OutOfFuel => OutOfFuel
      end
    | Throw e => Throw e
    | OutOfFuel => OutOfFuel
    end
  | Throw e => Throw e
  | OutOfFuel => OutOfFuel
  end.

(** The violations of executing [event] in the marking [m]: conditions,
    milestones, and the excludes that should have kept it out. *)
Definition stepViolations (graph : DCRGraphS) (event : Event)
  (localExSinceIn : EventMap) (m : Marking)
  : completion (RelationViolations * number) :=
  match combineOpt JSSet.difference (getProp (conditionsFor graph) event)
                                    (Own (executed m)) with
  | Normal cs =>
    let '(condViols, count) :=
      foldl (λ '(rel, count) otherEvent,
               if JSSet.has (included m) otherEvent
               then (incrementFrom0 rel event otherEvent, JS.plus count (Num 1))
               else (rel, count))
            (emptyFuzzyRel (events graph), Num 0) cs in
    match combineOpt JSSet.intersect (getProp (milestonesFor graph) event)
                                     (Own (pending m)) with
    | Normal ms =>
      let '(mileViols, count) :=
        foldl (λ '(rel, count) otherEvent,
                 if JSSet.has (included m) otherEvent
                 then (incrementFrom0 rel event otherEvent, JS.plus count (Num 1))
                 else (rel, count))
              (emptyFuzzyRel (events graph), count) ms in
      let finish exclViols count :=
        Normal ({| RV.conditionsFor := condViols;
                   RV.responseTo := emptyFuzzyRel (events graph);
                   RV.excludesTo := exclViols;
                   RV.milestonesFor := mileViols |}, count) in
      if negb (JSSet.has (included m) event) then
        match combineOpt JSSet.intersect (getProp localExSinceIn event)
                                         (getProp excludesFor event) with
        | Normal others =>
          match foldl (λ acc otherEvent,
                         match acc with
                         | Normal (rel, count) =>
                           match increment rel otherEvent event with
                           | Normal rel => Normal (rel, JS.plus count (Num 1))
                           | Throw e => Throw e
                           | OutOfFuel => OutOfFuel
                           end
                         | c => c
                         end)
                      (Normal (emptyFuzzyRel (events graph), count)) others with
          | Normal (exclViols, count) => finish exclViols count
          | Throw e => Throw e
          | OutOfFuel => OutOfFuel
          end
        | Throw e => Throw e
        | OutOfFuel => OutOfFuel
        end
      else finish (emptyFuzzyRel (events graph)) count
    | Throw e => Throw e
    | OutOfFuel => OutOfFuel
    end
  | Throw e => Throw e
  | OutOfFuel => OutOfFuel
  end.

(** The two histories after [event] has been executed. *)
Definition stepHistories (graph : DCRGraphS) (event : Event)
  (localExSinceIn localExSinceEx : EventMap) : completion (EventMap * EventMap) :=
  match includesTo graph !! event with
  | None => Throw TypeError
  | Some is_ =>
    (* For all events included by [event] clear executed since included set *)
    let localExSinceIn :=
      foldl (λ sinceIn otherEvent, <[otherEvent := []]> sinceIn)
            localExSinceIn is_ in
    (* Add to executed since included for all events *)
    match foldl (λ acc otherEvent,
                   match acc with
                   | Normal (sinceIn, sinceEx) =>
                     match sinceEx !! otherEvent with
                     | None => Throw TypeError
                     | Some s =>
                       let sinceEx := <[otherEvent := JSSet.add event s]> sinceEx in
                       match sinceIn !! otherEvent with
                       | None => Throw TypeError
                       | Some s' =>
                         Normal (<[otherEvent := JSSet.add event s']> sinceIn,
                                 sinceEx)
                       end
                     end
                   | c => c
                   end)
                (Normal (localExSinceIn, localExSinceEx)) (events graph) with
    | Normal (sinceIn, sinceEx) =>
      (* Clear executed since set *)
      Normal (sinceIn, <[event := [event]]> sinceEx)
    | c => c
    end
  end.

Fixpoint quantifyRec (graph : DCRGraphS) (trace : RoleTrace)
  (exSinceIn exSinceEx : EventMap) : M unit Quantified :=
  match trace with
  | [] =>
    '(responseTo, totalViolations) ←
      readMarking (responseViolations graph exSinceEx);
    mret {| totalViolations := totalViolations;
            violations :=
              {| RV.conditionsFor := emptyFuzzyRel (events graph);
                 RV.responseTo := responseTo;
                 RV.excludesTo := emptyFuzzyRel (events graph);
                 RV.milestonesFor := emptyFuzzyRel (events graph) |};
            activations := emptyViolations (events graph) |}
  | head :: tail =>
    m ← readMarking Normal;
    let initMarking := copyMarking m in
    match labelMapInv graph !! activity head with
    | None => throw TypeError
    | Some evs =>
      best ← forOf evs
        {| leastViolations := Infinity;
           bestRelationViolations := noRelations;
           bestRelationActivations := noRelations |}
        (λ best event,
          if negb (bool_decide (roleMap graph !! event = Some (role head)))
          then mret best else
          let localExSinceIn := copyEventMap exSinceIn in
          let localExSinceEx := copyEventMap exSinceEx in
          localActivations ← readMarking (λ _, localActivations graph event);
          '(localViolations, localViolationCount) ←
            readMarking (stepViolations graph event localExSinceIn);
          onMarking (executeS event graph);;
          '(localExSinceIn, localExSinceEx) ←
            readMarking (λ _, stepHistories graph event localExSinceIn localExSinceEx);
          rec ← quantifyRec graph tail localExSinceIn localExSinceEx;
          let best :=
            if JS.lt (JS.plus localViolationCount (totalViolations rec))
                     (leastViolations best)
            then {| leastViolations :=
                      JS.plus localViolationCount (totalViolations rec);
                    bestRelationViolations :=
                      mergeViolations localViolations (violations rec);
                    bestRelationActivations :=
                      mergeViolations localActivations (activations rec) |}
            else best in
          resetMarking initMarking;;
          mret best);
      resetMarking initMarking;;
      mret {| totalViolations := leastViolations best;
              violations := bestRelationViolations best;
              activations := bestRelationActivations best |}
    end
  end.
End QuantifyRec.

Definition quantifyViolations (graph : DCRGraphS) (trace : RoleTrace)
  : M unit Quantified :=
  (* Copies and flips excludesTo and responseTo *)
  match reverseRelation (excludesTo graph) with
  | Normal excludesFor =>
    match reverseRelation (responseTo graph) with
    | Normal responseFor =>
      quantifyRec excludesFor responseFor graph trace
        (emptyEventMap (events graph)) (emptyEventMap (events graph))
    | Throw e => throw e
    | OutOfFuel => outOfFuel
    end
  | Throw e => throw e
  | OutOfFuel => outOfFuel
  end.
End Conformance.

(** *** The engine of the specification *)

(** Modelled from the spec: a sub-process scope ([SubProcess], declared in a
    file that is not among the sources).  Section 4.1: "for events carrying a
    sub-process scope, enabledness is evaluated in the group marking of that
    sub-process". *)
Record SubProcess : Type := mkSubProcess {
  groupMarking : Marking;
}.

(** Modelled from the spec: [isEnabledS] of the missing [executionEngine.ts].
    Section 4.1: [isEnabled(e, g)] holds iff [e] is included, every condition
    of [e] is excluded or executed, and every milestone of [e] is excluded or
    not pending; an event without an entry in a relation has no sources. *)
Definition specIsEnabledS (e : Event) (g : DCRGraphS (SubProcess:=SubProcess))
  (group : option SubProcess) (m : Marking) : bool :=
  let m := match group with Some scope => groupMarking scope | None => m end in
  JSSet.has (included m) e
  && forallb (λ c, negb (JSSet.has (included m) c) || JSSet.has (executed m) c)
             (default [] (conditionsFor g !! e))
  && forallb (λ x, negb (JSSet.has (included m) x) || negb (JSSet.has (pending m) x))
             (default [] (milestonesFor g !! e)).

(** Modelled from the spec: [executeS] of the missing [executionEngine.ts].
    Section 4.1, steps 1 to 5 of [execute(e, g)], with [g.conditions] the
    derived field of the optimised graph. *)
Definition specExecuteS (e : Event) (g : DCRGraphS (SubProcess:=SubProcess))
  (m : Marking) : Marking * completion unit :=
  let executed' := if JSSet.has (conditions (graphToGraphPP g)) e
                   then JSSet.add e (executed m) else executed m in
  let pending' := JSSet.union (JSSet.delete e (pending m))
                              (default [] (responseTo g !! e)) in
  let included' := JSSet.union
                     (JSSet.difference (included m) (default [] (excludesTo g !! e)))
                     (default [] (includesTo g !! e)) in
  ({| executed := executed'; included := included'; pending := pending' |},
   Normal tt).

(** Modelled from the spec: [isAcceptingS] of the missing
    [executionEngine.ts].  Section 4.1: [isAccepting(g)] holds iff
    [pending ∩ included = ∅]. *)
Definition specIsAcceptingS (g : DCRGraphS (SubProcess:=SubProcess))
  (m : Marking) : bool :=
  forallb (λ p, negb (JSSet.has (included m) p)) (pending m).

(** A graph without sub-processes. *)
Definition flat (g : DCRGraph) : DCRGraphS (SubProcess:=SubProcess) :=
  {| graphS_of := g; subProcessMap := ∅ |}.

(** Every target of the relation has an entry of its own, as in every
    relation of the data model ("keys include all events"). *)
Definition totalOnTargets (rel : EventMap) : Prop :=
  map_Forall (λ _ s, Forall (λ j, is_Some (rel !! j)) s) rel.

(** [B --><> A] (a milestone), both included. *)
Definition milestoneGraph : LabelDCRPP :=
  graphToGraphPP (sampleGraph ["A"; "B"] [] [("A", ["B"])] [] [] []).

(** A token for the role that [sampleGraph] gives to every event. *)
Definition by_r (activity : Label) : RoleEvent :=
  {| role := "r"; activity := activity |}.


(** ** Serialisation *)

(** The induction principles for the two nested types are proved below
    ([value_ind_nested], [json_ind_nested]). *)
Unset Elimination Schemes.

(** The values that are written and read back: the JSON values, and sets.
    [VMinusInfinity] is [-Infinity], which is not among the numbers of the
    engine. *)
Inductive value : Type :=
| VNull
| VBool (b : bool)
| VNumber (n : number)
| VMinusInfinity
| VString (s : string)
| VArray (items : list value)
| VSet (members : list value)
| VObject (props : list (string * value)).

(** A serialised text, represented by the JSON document it denotes (the
    layout that [JSON.stringify] gives it, with an indentation of 4, carries
    no information).  The members of an object are listed as the text lists
    them, a name possibly more than once; a number literal is the integer
    that it denotes, of any size (the finite numbers of this development
    are integers; the two zeros are one number, as they are for [===]). *)
Inductive json : Type :=
| JNull
| JBool (b : bool)
| JNumber (z : Z)
| JString (s : string)
| JArray (items : list json)
| JObject (props : list (string * json)).

Set Elimination Schemes.

(** "Allows sets to be serialized by converting them to arrays" *)
Definition set2JSON (key : string) (v : value) : value :=
  match v with
  | VSet members => VArray members
  | _ => v
  end.

(** [JSON.stringify(obj, set2JSON, 4)]: every property value is passed to
    the replacer and the result is serialised, its own properties in turn
    and in the order in which the object lists them.  The replacer is
    [set2JSON]: a set is serialised as the array of its members (lemma
    [serializeJSONProperty_set2JSON]).  A number that is not finite is
    written [null].  A finite one is written as the shortest literal that is
    read back as the same number; the document here holds the literal of the
    number's own value, which is read back as the same number as well
    ([toDouble_double]), and the results below only depend on the written
    text through what is read from it. *)
Fixpoint serializeJSONProperty (v : value) : json :=
  match v with
  | VNull => JNull
  | VBool b => JBool b
  | VNumber (Num z) => JNumber z
  | VNumber _ | VMinusInfinity => JNull
  | VString s => JString s
  | VArray items => JArray (map serializeJSONProperty items)
  | VSet members => JArray (map serializeJSONProperty members)
  | VObject props =>
      JObject (map (λ kv, (kv.1, serializeJSONProperty kv.2)) props)
  end.


(** The key of the [i]-th element of an array: its index in decimal. *)
Definition indexKey (i : nat) : string :=
  NilEmpty.string_of_uint (Nat.to_uint i).

(** The comparison by which a [Set] tells its members apart.  Objects,
    arrays and sets are compared by identity, and the ones that
    [JSON.parse] creates are all distinct. *)
Definition sameValueZero (a b : value) : bool :=
  match a, b with
  | VNull, VNull => true
  | VBool x, VBool y => bool_decide (x = y)
  | VNumber x, VNumber y => bool_decide (x = y)
  | VMinusInfinity, VMinusInfinity => true
  | VString x, VString y => bool_decide (x = y)
  | _, _ => false
  end.

(** [new Set(array)] *)
Definition newSetOf (items : list value) : list value :=
  foldl (λ s x, if existsb (sameValueZero x) s then s else s ++ [x]) [] items.

(** "Parses arrays back to sets" *)
Definition JSON2Set (key : string) (v : value) : value :=
  match v with
  | VArray items =>
      if bool_decide (key = "trace") then v else VSet (newSetOf items)
  | _ => v
  end.

(** The number that [JSON.parse] reads from the literal of the integer [z]:
    the nearest double, a tie going to the one with the even significand,
    and an infinity beyond the largest double ([Infinity] here, whatever the
    sign of [z]: see [readNumber]). *)
Definition toDouble (z : Z) : number :=
  let a := Z.abs z in
  if a <? 2 ^ 53 then Num z else
  let e := Z.log2 a - 52 in
  let q := a / 2 ^ e in
  let r := a mod 2 ^ e in
  let q := if (2 ^ (e - 1) <? r) || ((r =? 2 ^ (e - 1)) && Z.odd q)
           then q + 1 else q in
  if 2 ^ 1024 <=? q * 2 ^ e then Infinity else Num (Z.sgn z * (q * 2 ^ e)).

(** The value read from the literal: beyond the doubles, the infinity of
    the sign of [z]. *)
Definition readNumber (z : Z) : value :=
  match toDouble z with
  | Infinity => if z <? 0 then VMinusInfinity else VNumber Infinity
  | n => VNumber n
  end.

(** The array index that a property name denotes, if it denotes one: the
    name is the decimal numeral, without leading zeros, of a number below
    [2^32 - 1]. *)
Definition arrayIndex (key : string) : option N :=
  match NilEmpty.uint_of_string key with
  | Some u =>
    let n := N.of_uint u in
    if String.eqb (NilEmpty.string_of_uint (N.to_uint n)) key
       && (n <? 2 ^ 32 - 1)%N
    then Some n else None
  | None => None
  end.

(** An object lists its own properties with the array indices first, in
    ascending order, and the other names after them, in the order in which
    they were created.  [goesBefore key k]: a new property [key] is listed
    before the property [k] that the object has. *)
Definition goesBefore (key k : string) : bool :=
  match arrayIndex key, arrayIndex k with
  | Some n, Some n' => (n <? n')%N
  | Some _, None => true
  | None, _ => false
  end.

Fixpoint insertKey {V} (key : string) (v : V) (props : list (string * V))
  : list (string * V) :=
  match props with
  | [] => [(key, v)]
  | (k, x) :: rest =>
    if goesBefore key k then (key, v) :: props
    else (k, x) :: insertKey key v rest
  end.

(** The definition of the property [kv.1], with the value [kv.2], on an
    object under construction ([JSON.parse] defines the members of the text
    one after the other): a property that the object has keeps its place
    and takes the new value. *)
Definition defineProperty {V} (props : list (string * V)) (kv : string * V)
  : list (string * V) :=
  if bool_decide (kv.1 ∈ props.*1)
  then (λ p, if bool_decide (p.1 = kv.1) then kv else p) <$> props
  else insertKey kv.1 kv.2 props.

(** [JSON.parse(data, JSON2Set)]: the reviver is called on every property,
    the properties of a value before the value itself. *)
Fixpoint internalize (key : string) (j : json) : value :=
  JSON2Set key
    match j with
    | JNull => VNull
    | JBool b => VBool b
    | JNumber z => readNumber z
    | JString s => VString s
    | JArray items =>
        VArray ((fix elements (i : nat) (items : list json) : list value :=
                   match items with
                   | [] => []
                   | x :: rest => internalize (indexKey i) x :: elements (S i) rest
                   end) 0%nat items)
    | JObject props =>
        VObject (foldl defineProperty []
                       (map (λ kv, (kv.1, internalize kv.1 kv.2)) props))
    end.


(** The reviver is first called with the empty key, for the whole value. *)
Definition parseSerialized (data : json) : value := internalize EmptyString data.









(** A found alignment, and a marking. *)
Definition foundAlignment : value :=
  VObject [("cost", VNumber (Num 2)); ("trace", VArray [VString "A"; VString "A"])].



(** [{ "b": 1, "2": 9007199254740993, "1": 3, "b": 4 }] *)
Definition unorderedText : json :=
  JObject [("b", JNumber 1); ("2", JNumber (2 ^ 53 + 1)); ("1", JNumber 3);
           ("b", JNumber 4)].




(** ** utility.ts: the remaining relation and set helpers *)



(** [intersect]: a new set with the members that both sets have, found by
    running through the smaller of the two. *)
Definition intersect {A} `{EqDecision A} (s1 s2 : list A) : list A :=
  let '(smallestSet, otherSet) :=
    if Nat.ltb (length s2) (length s1) then (s2, s1) else (s1, s2) in
  foldl (λ retset elem, if JSSet.has otherSet elem
                        then JSSet.add elem retset else retset)
        [] smallestSet.

(** One round of the loop of [getEnabled] (the body of its [for]). *)
Definition getEnabledRound (graph : DCRGraph) (m : Marking)
  (acc : completion EventSet) (event : Event) : completion EventSet :=
  match acc with
  | Normal retSet =>
    let retSet := if negb (JSSet.has (included m) event)
                  then JSSet.delete event retSet else retSet in
    match conditionsFor graph !! event with
    | None => Throw TypeError
    | Some cs =>
      let retSet :=
        foldl (λ retSet otherEvent,
                 if JSSet.has (included m) otherEvent
                    && negb (JSSet.has (executed m) otherEvent)
                 then JSSet.delete event retSet else retSet) retSet cs in
      match milestonesFor graph !! event with
      | None => Throw TypeError
      | Some ms =>
        Normal
          (foldl (λ retSet otherEvent,
                    if JSSet.has (included m) otherEvent
                       && JSSet.has (pending m) otherEvent
                    then JSSet.delete event retSet else retSet) retSet ms)
      end
    end
  | c => c
  end.

(** A graph that is not well formed: the event [A] conditions itself but has
    no entry in the milestone, response, exclude and include relations. *)
Definition brokenGraph : DCRGraph :=
  {| events := ["A"];
     labels := ["A"];
     labelMap := {[ "A" := "A" ]};
     labelMapInv := {[ "A" := ["A"] ]};
     roleMap := {[ "A" := "r" ]};
     conditionsFor := {[ "A" := ["A"] ]};
     milestonesFor := ∅;
     responseTo := ∅;
     excludesTo := ∅;
     includesTo := ∅ |}.


(** *** The loops of [flipEventMap] and [reverseRelation], step by step *)

(** The members of the entry of [j], none when there is no entry. *)
Definition membersOf (ret : EventMap) (j : Event) : EventSet := default [] (ret !! j).

(** The insertions of [flipEventMap] for one entry of its argument. *)
Definition flipEntry (ret : EventMap) (entry : Event * EventSet) : EventMap :=
  foldl (λ ret e2, <[e2 := JSSet.add entry.1 (membersOf ret e2)]> ret)
        ret entry.2.

(** The insertions of [reverseRelation]: one, and those for one entry. *)
Definition revStep (e : Event) (acc : completion EventMap) (j : Event)
  : completion EventMap :=
  match acc with
  | Normal ret =>
      match ret !! j with
      | Some sj => Normal (<[j := JSSet.add e sj]> ret)
      | None => Throw TypeError
      end
  | c => c
  end.

Definition revEntry (acc : completion EventMap) (entry : Event * EventSet) :=
  foldl (revStep entry.1) acc entry.2.

(** The raised state of the loop, and the keys it may hold otherwise. *)
Definition raisedOrWithin (rel : EventMap) (acc : completion EventMap) : Prop :=
  acc = Throw TypeError
  ∨ ∃ ret, acc = Normal ret ∧ ∀ k, is_Some (ret !! k) → is_Some (rel !! k).


(** ** Code that gives back the marking of the graph *)

(** Code that, when it returns, leaves [graph.marking] referring to the
    object it referred to, and every marking object that existed as it
    was. *)
Definition neutral {L A} (c : M L A) : Prop :=
  ∀ w w' a, valid w → c w = (w', Normal a) →
    valid w' ∧ (next w ≤ next w')%nat ∧ gmarking w' = gmarking w
    ∧ ∀ l, (l < next w)%nat → heap w' l = heap w l.

(** ** The cost bound of the search *)

(** [maxCost] has a value, and the value is at most [mc]. *)
Definition boundedBy (mc : number) (vars : AlignVars) : Prop :=
  ∃ m, maxCost vars = Some m ∧ JS.le m mc = true.

(** The cost of the alignment, when it is a number, is below [mc]. *)
Definition below (mc : number) (alignment : Alignment) : Prop :=
  ∀ c, cost alignment = Num c → JS.lt (Num c) mc = true.

(** Code of the aligner that keeps [maxCost] at or below [mc] and whose
    result, when it returns, satisfies [Q]. *)
Definition keeps {A} (mc : number) (c : M AlignVars A) (Q : A → Prop) : Prop :=
  ∀ w w' a, boundedBy mc (locals w) → c w = (w', Normal a) →
            boundedBy mc (locals w') ∧ Q a.

(** A cost function under which a consumed token is free and every skip
    costs one. *)
Definition skipCost : CostFun :=
  λ kind _, match kind with consume => Num 0 | _ => Num 1 end.

(** ** Conformance: what the replay looks at, and the cells of a relation *)

(** The tokens of the trace whose activity is a label of the graph. *)
Definition knownTokens (labels : list Label) (trace : RoleTrace) : RoleTrace :=
  List.filter (λ token, JSSet.has labels (activity token)) trace.

(** [rel[a][b]], [None] when the row or the cell is missing. *)
Definition cell (rel : FuzzyRelation) (a b : Event) : option number :=
  row ← rel !! a; row !! b.

(** The marking is [m], or a copy of [m]. *)
Definition isCopyOf {L} (m : Marking) (w : World L) : Prop :=
  currentMarking w = m ∨ currentMarking w = copyMarking m.

(** ** The recursion of the reachability oracle *)

(** The number of events of [U] that the set does not hold yet. *)
Definition absent (U S : EventSet) : nat :=
  length (List.filter (λ u, negb (JSSet.has S u)) U).

(** What is left for the three cycle sets to grow by. *)
Definition cycleMeasure (U : EventSet) (cycleSets : CycleSets) : nat :=
  (absent U (exec cycleSets) + absent U (excl cycleSets)
   + absent U (incl cycleSets))%nat.

(** The four relations that the oracle follows relate events of the graph. *)
Definition oracleClosed (graph : LabelDCRPP) : Prop :=
  relation_in (events graph) (conditionsFor graph)
  ∧ relation_in (events graph) (milestonesFor graph)
  ∧ relation_in (events graph) (excludesFor graph)
  ∧ relation_in (events graph) (includesFor graph).

#[global] Instance oracleClosed_dec graph : Decision (oracleClosed graph).
Proof. unfold oracleClosed, relation_in. apply _. Defined.

(** ** The recursion of the search *)

(** Code whose run does not stop for want of budget. *)
Definition settles {L A} (c : M L A) : Prop := ∀ w, (c w).2 ≠ OutOfFuel.

(** [c'] runs as [c] does wherever [c] does not stop for want of budget. *)
Definition extends {L A} (c c' : M L A) : Prop :=
  ∀ w, (c w).2 ≠ OutOfFuel → c' w = c w.

(** ** What an alignment stands for *)

(** The events can be executed one after the other from the marking [m],
    each of them enabled when its turn comes, and the marking they lead to
    is accepting. *)
Fixpoint runsTo (graph : LabelDCRPP) (m : Marking) (evs : list Event) : bool :=
  match evs with
  | [] => isAccepting graph m
  | e :: evs =>
    match isEnabled e graph m with
    | Normal true =>
      match execute e graph m with
      | (m1, Normal _) => runsTo graph m1 evs
      | _ => false
      end
    | _ => false
    end
  end.

(** An alignment that is not the one of cost [Infinity] is a run of the
    graph from [m]. *)
Definition sound (graph : LabelDCRPP) (m : Marking) (alignment : Alignment)
  : Prop :=
  cost alignment ≠ Infinity → runsTo graph m (firedEvents alignment) = true.

(** Started in the marking [m], the code returns a result that satisfies
    [Q]. *)
Definition yields {L A} (m : Marking) (c : M L A) (Q : A → Prop) : Prop :=
  ∀ w w' a, valid w → currentMarking w = m → c w = (w', Normal a) → Q a.


(** * Facts *)

(** ** Sets *)

Module JSSetFacts.
Import JSSet.
Section Facts.
Context {A : Type} `{EqDecision A}.
Implicit Types (s b l : list A) (x y : A).

Lemma has_true s x : has s x = true ↔ x ∈ s.
Proof. unfold has. apply bool_decide_eq_true. Qed.

Lemma has_false s x : has s x = false ↔ x ∉ s.
Proof. unfold has. apply bool_decide_eq_false. Qed.

Lemma elem_of_add x y s : y ∈ add x s ↔ y = x ∨ y ∈ s.
Proof.
  unfold add. destruct (has s x) eqn:E.
  - apply has_true in E. split; [auto | intros [->|]; auto].
  - rewrite elem_of_app, list_elem_of_singleton. tauto.
Qed.

Lemma elem_of_delete x y s : y ∈ delete x s ↔ y ≠ x ∧ y ∈ s.
Proof. unfold delete. rewrite list_elem_of_filter. tauto. Qed.

Lemma elem_of_union s b y : y ∈ union s b ↔ y ∈ s ∨ y ∈ b.
Proof.
  unfold union. revert s. induction b as [|x b IH]; intros s; simpl.
  - rewrite elem_of_nil. tauto.
  - rewrite IH, elem_of_add, elem_of_cons. tauto.
Qed.

Lemma elem_of_new_Set l y : y ∈ new_Set l ↔ y ∈ l.
Proof.
  change (new_Set l) with (union [] l).
  rewrite elem_of_union, elem_of_nil. tauto.
Qed.

Lemma elem_of_intersect s b y : y ∈ intersect s b ↔ y ∈ s ∧ y ∈ b.
Proof. unfold intersect. rewrite list_elem_of_filter. tauto. Qed.

Lemma elem_of_difference s b y : y ∈ difference s b ↔ y ∈ s ∧ y ∉ b.
Proof. unfold difference. rewrite list_elem_of_filter. tauto. Qed.

Lemma NoDup_add x s : NoDup s → NoDup (add x s).
Proof.
  intros Hs. unfold add. destruct (has s x) eqn:E; [done|].
  apply has_false in E. apply NoDup_app. split_and!; [done| |apply NoDup_singleton].
  intros y Hy ->%list_elem_of_singleton. done.
Qed.

Lemma add_present x s : x ∈ s → add x s = s.
Proof. intros H. unfold add. apply has_true in H. by rewrite H. Qed.

Lemma foldl_add_fresh s l :
  NoDup (s ++ l) → foldl (λ s x, add x s) s l = s ++ l.
Proof.
  revert s. induction l as [|x l IH]; intros s Hnd; simpl.
  - by rewrite app_nil_r.
  - assert (has s x = false) as E.
    { apply has_false. apply NoDup_app in Hnd as (_ & Hd & _).
      intros Hx. apply (Hd x Hx). left. }
    unfold add at 2. rewrite E.
    rewrite IH; rewrite <- app_assoc; simpl; done.
Qed.

(** Copying a set keeps its members and their order. *)
Lemma new_Set_NoDup_id l : NoDup l → new_Set l = l.
Proof. intros H. unfold new_Set. by rewrite foldl_add_fresh. Qed.

Lemma NoDup_new_Set l : NoDup (new_Set l).
Proof.
  unfold new_Set. generalize (NoDup_nil_2 (A:=A)). generalize (@nil A).
  induction l as [|x l IH]; intros s Hs; simpl; [done|].
  apply IH. by apply NoDup_add.
Qed.
End Facts.
End JSSetFacts.

(** ** Loops *)

Lemma foldl_invariant {S B} (P : S → Prop) (f : S → B → S) (l : list B) (s : S) :
  (∀ s x, x ∈ l → P s → P (f s x)) → P s → P (foldl f s l).
Proof.
  revert s. induction l as [|x l IH]; intros s Hstep Hs; simpl; [done|].
  apply IH.
  - intros s' y Hy. apply Hstep. by right.
  - apply Hstep; [left|done].
Qed.

Lemma forOf_skip {L S B} (l : list B) (s : S) (body : S → B → M L S) :
  (∀ x w, x ∈ l → body s x w = (w, Normal s)) →
  ∀ w, forOf l s body w = (w, Normal s).
Proof.
  induction l as [|x l IH]; intros Hskip w; [done|].
  simpl. unfold mbind, M_bind. rewrite Hskip by left.
  apply IH. intros y w' Hy. apply Hskip. by right.
Qed.

(** ** Properties of the execution kernel *)

Section KernelFacts.
Implicit Types (m : Marking) (g : LabelDCRPP) (e x : Event).

Lemma foldl_pending_add m (rs : EventSet) :
  foldl (λ m rEvent, with_pending (JSSet.add rEvent) m) m rs
  = with_pending (λ p, JSSet.union p rs) m.
Proof.
  revert m. induction rs as [|r rs IH]; intros [ex inc pe]; [done|].
  simpl. by rewrite IH.
Qed.

Lemma foldl_included_add m (is_ : EventSet) :
  foldl (λ m iEvent, with_included (JSSet.add iEvent) m) m is_
  = with_included (λ i, JSSet.union i is_) m.
Proof.
  revert m. induction is_ as [|r rs IH]; intros [ex inc pe]; [done|].
  simpl. by rewrite IH.
Qed.

Lemma foldl_included_delete m (xs : EventSet) :
  foldl (λ m eEvent, with_included (JSSet.delete eEvent) m) m xs
  = with_included (λ i, foldl (λ s y, JSSet.delete y s) i xs) m.
Proof.
  revert m. induction xs as [|r rs IH]; intros [ex inc pe]; [done|].
  simpl. by rewrite IH.
Qed.

Lemma elem_of_foldl_delete (s xs : EventSet) x :
  x ∈ foldl (λ s y, JSSet.delete y s) s xs ↔ x ∈ s ∧ x ∉ xs.
Proof.
  revert s. induction xs as [|y xs IH]; intros s; simpl.
  - rewrite elem_of_nil. tauto.
  - rewrite IH, JSSetFacts.elem_of_delete, not_elem_of_cons. tauto.
Qed.

Lemma execute_defined e g m rs xs is_ :
  responseTo g !! e = Some rs →
  excludesTo g !! e = Some xs →
  includesTo g !! e = Some is_ →
  execute e g m = (executed_marking e g m rs xs is_, Normal tt).
Proof.
  intros Hr Hx Hi. unfold execute. rewrite Hr, Hx, Hi.
  rewrite foldl_pending_add, foldl_included_delete, foldl_included_add.
  unfold executed_marking. by destruct (JSSet.has (conditions g) e), m.
Qed.

(** [execute] returns exactly when the event has an entry in the response,
    exclude and include relations. *)
Lemma execute_normal_iff e g m :
  (execute e g m).2 = Normal tt
  ↔ is_Some (responseTo g !! e) ∧ is_Some (excludesTo g !! e)
    ∧ is_Some (includesTo g !! e).
Proof.
  split.
  - unfold execute.
    destruct (responseTo g !! e); [|done].
    destruct (excludesTo g !! e); [|done].
    destruct (includesTo g !! e); [|done]. eauto.
  - intros ([rs Hr] & [xs Hx] & [is_ Hi]).
    by rewrite (execute_defined _ _ _ _ _ _ Hr Hx Hi).
Qed.

Lemma execute_inv e g m m' :
  execute e g m = (m', Normal tt) →
  ∃ rs xs is_,
    responseTo g !! e = Some rs ∧ excludesTo g !! e = Some xs
    ∧ includesTo g !! e = Some is_ ∧ m' = executed_marking e g m rs xs is_.
Proof.
  intros H.
  assert ((execute e g m).2 = Normal tt) as Hn by (by rewrite H).
  apply execute_normal_iff in Hn as ([rs Hr] & [xs Hx] & [is_ Hi]).
  exists rs, xs, is_. split_and!; try done.
  rewrite (execute_defined _ _ _ _ _ _ Hr Hx Hi) in H. congruence.
Qed.

(** Only the first statement of [execute] writes [executed]. *)
Lemma execute_executed e g m :
  executed (execute e g m).1
  = if JSSet.has (conditions g) e then JSSet.add e (executed m) else executed m.
Proof.
  unfold execute.
  destruct (responseTo g !! e); [|by destruct (JSSet.has _ _), m].
  rewrite foldl_pending_add.
  destruct (excludesTo g !! e); [|by destruct (JSSet.has _ _), m].
  rewrite foldl_included_delete.
  destruct (includesTo g !! e); [|by destruct (JSSet.has _ _), m].
  rewrite foldl_included_add.
  by destruct (JSSet.has _ _), m.
Qed.

Lemma elem_of_graphToGraphPP_conditions (graph : DCRGraph) x :
  x ∈ conditions (graphToGraphPP graph)
  ↔ ∃ e s, conditionsFor graph !! e = Some s ∧ x ∈ s.
Proof.
  simpl.
  assert (∀ (l : list (Event * EventSet)) (acc : EventSet),
    x ∈ foldl (λ conditions '(key, s), JSSet.union conditions s) acc l
    ↔ x ∈ acc ∨ ∃ e s, (e, s) ∈ l ∧ x ∈ s) as Hfold.
  { induction l as [|[k s] l IH]; intros acc; simpl.
    - split; [auto|]. intros [?|(e & s & []%elem_of_nil & _)]; done.
    - rewrite IH, JSSetFacts.elem_of_union. split.
      + intros [[?|?]|(e & s' & ? & ?)]; [by left| |].
        * right. exists k, s. split; [left|done].
        * right. exists e, s'. split; [by right|done].
      + intros [?|(e & s' & [[= -> ->]|?]%elem_of_cons & ?)]; [tauto|tauto|].
        right. eauto. }
  rewrite Hfold, elem_of_nil. split.
  - intros [[]|(e & s & ?%elem_of_map_to_list & ?)]. eauto.
  - intros (e & s & ?%elem_of_map_to_list & ?). eauto.
Qed.
End KernelFacts.

(** ** The optimised graph and [execute] *)

Section MarkingIn.
Variable ev : EventSet.

Lemma marking_in_executed_add m x :
  x ∈ ev → marking_in ev m → marking_in ev (with_executed (JSSet.add x) m).
Proof.
  intros Hx (He & Hi & Hp). split_and!; simpl; try done.
  intros y [->|?]%JSSetFacts.elem_of_add; auto.
Qed.

Lemma marking_in_pending_add m x :
  x ∈ ev → marking_in ev m → marking_in ev (with_pending (JSSet.add x) m).
Proof.
  intros Hx (He & Hi & Hp). split_and!; simpl; try done.
  intros y [->|?]%JSSetFacts.elem_of_add; auto.
Qed.

Lemma marking_in_included_add m x :
  x ∈ ev → marking_in ev m → marking_in ev (with_included (JSSet.add x) m).
Proof.
  intros Hx (He & Hi & Hp). split_and!; simpl; try done.
  intros y [->|?]%JSSetFacts.elem_of_add; auto.
Qed.

Lemma marking_in_pending_delete m x :
  marking_in ev m → marking_in ev (with_pending (JSSet.delete x) m).
Proof.
  intros (He & Hi & Hp). split_and!; simpl; try done.
  intros y [_ ?]%JSSetFacts.elem_of_delete; auto.
Qed.

Lemma marking_in_included_delete m x :
  marking_in ev m → marking_in ev (with_included (JSSet.delete x) m).
Proof.
  intros (He & Hi & Hp). split_and!; simpl; try done.
  intros y [_ ?]%JSSetFacts.elem_of_delete; auto.
Qed.
End MarkingIn.

(** C1. The [conditions] field of [graphToGraphPP g] is the union of all the
    entries of [g.conditionsFor]; hence [execute e] on the optimised graph
    puts [e], and nothing else, into [executed] exactly when [e] belongs to
    that union. *)
Theorem graphToGraphPP_conditions_filter (g : DCRGraph) :
  (∀ x, x ∈ conditions (graphToGraphPP g)
        ↔ ∃ e s, conditionsFor g !! e = Some s ∧ x ∈ s)
  ∧ (∀ e m x,
       x ∈ executed (execute e (graphToGraphPP g) m).1
       ↔ x ∈ executed m
         ∨ (x = e ∧ ∃ e' s, conditionsFor g !! e' = Some s ∧ e ∈ s)).
Proof.
  split; [apply elem_of_graphToGraphPP_conditions|].
  intros e m x. rewrite execute_executed.
  destruct (JSSet.has _ e) eqn:E.
  - apply JSSetFacts.has_true, elem_of_graphToGraphPP_conditions in E.
    rewrite JSSetFacts.elem_of_add. split.
    + intros [->|Hx]; [right|left]; done.
    + intros [Hx|[-> _]]; [right|left]; done.
  - apply JSSetFacts.has_false in E.
    rewrite elem_of_graphToGraphPP_conditions in E. split; [by left|].
    intros [Hx|[_ Hin]]; [done|]. by destruct E.
Qed.

(** C2, as stated, fails on a self-response: [execute] removes the event from
    [pending] and the response loop then puts it back. *)
Lemma pending_after_execute_counterexample :
  ¬ pending_after_execute_stated selfResponse "A" (allIncluded ["A"]).
Proof.
  intros H.
  destruct (H (mkMarking [] ["A"] ["A"]) eq_refl) as [Hn _].
  apply Hn. simpl. left.
Qed.

(** C2, amended. After [execute(e, g)] every [r ∈ responseTo[e]] is pending,
    and [e] itself is pending exactly when it is one of its own responses
    (so [e ∉ pending] whenever [e ∉ responseTo[e]]). *)
Theorem pending_after_execute (g : LabelDCRPP) (e : Event) (m m' : Marking) :
  execute e g m = (m', Normal tt) →
  ∃ rs, responseTo g !! e = Some rs
        ∧ (∀ r, r ∈ rs → r ∈ pending m')
        ∧ (e ∈ pending m' ↔ e ∈ rs).
Proof.
  intros (rs & xs & is_ & Hr & _ & _ & ->)%execute_inv.
  exists rs. split; [done|]. simpl. split.
  - intros r Hin. apply JSSetFacts.elem_of_union. by right.
  - rewrite JSSetFacts.elem_of_union, JSSetFacts.elem_of_delete. split.
    + intros [[Hne _]|Hin]; [by destruct Hne|done].
    + intros Hin. by right.
Qed.

Lemma pending_after_execute_witness :
  ∃ rs, responseTo minimalResponse !! "A" = Some rs
        ∧ (∀ r, r ∈ rs → r ∈ pending (mkMarking [] ["A"; "B"] ["B"]))
        ∧ ("A" ∈ pending (mkMarking [] ["A"; "B"] ["B"]) ↔ "A" ∈ rs).
Proof.
  apply (pending_after_execute minimalResponse "A" (allIncluded ["A"; "B"])).
  reflexivity.
Defined.

(** C4. After [execute(e, g)]: every [x ∈ excludesTo[e] ∖ includesTo[e]] is
    out of [included], every [i ∈ includesTo[e]] is in [included]; in
    particular for [e ∈ excludesTo[e] ∩ includesTo[e]] the include step wins
    and [e ∈ included]. *)
Theorem included_after_execute (g : LabelDCRPP) (e : Event) (m m' : Marking) :
  execute e g m = (m', Normal tt) →
  ∃ xs is_, excludesTo g !! e = Some xs ∧ includesTo g !! e = Some is_
    ∧ (∀ x, x ∈ xs → x ∉ is_ → x ∉ included m')
    ∧ (∀ i, i ∈ is_ → i ∈ included m')
    ∧ (e ∈ xs → e ∈ is_ → e ∈ included m').
Proof.
  intros (rs & xs & is_ & _ & Hx & Hi & ->)%execute_inv.
  exists xs, is_. split_and!; try done; simpl.
  - intros x Hxs Hno.
    rewrite JSSetFacts.elem_of_union, elem_of_foldl_delete. tauto.
  - intros i Hin. apply JSSetFacts.elem_of_union. by right.
  - intros _ Hin. apply JSSetFacts.elem_of_union. by right.
Qed.

Lemma included_after_execute_witness :
  ∃ xs is_, excludesTo selfExcludeInclude !! "A" = Some xs
    ∧ includesTo selfExcludeInclude !! "A" = Some is_
    ∧ (∀ x, x ∈ xs → x ∉ is_ → x ∉ included (mkMarking [] ["A"] []))
    ∧ (∀ i, i ∈ is_ → i ∈ included (mkMarking [] ["A"] []))
    ∧ ("A" ∈ xs → "A" ∈ is_ → "A" ∈ included (mkMarking [] ["A"] [])).
Proof.
  apply (included_after_execute selfExcludeInclude "A" (allIncluded ["A"; "B"])).
  reflexivity.
Defined.

(** C5. On a well-formed graph, executing an event of the graph leaves
    [executed], [included] and [pending] inside [events] (also when
    [execute] stops early at a missing relation entry). *)
Theorem execute_preserves_marking_in (g : LabelDCRPP) (e : Event) (m : Marking) :
  wellFormed g m → e ∈ events g →
  marking_in (events g) (execute e g m).1.
Proof.
  intros (_ & _ & Hresp & Hexcl & Hincl & _ & Hm) He.
  unfold execute.
  set (m1 := if JSSet.has (conditions g) e then _ else m).
  assert (marking_in (events g) m1) as H1.
  { subst m1. destruct (JSSet.has _ _); [|done].
    by apply marking_in_executed_add. }
  assert (marking_in (events g) (with_pending (JSSet.delete e) m1)) as H2
    by by apply marking_in_pending_delete.
  destruct (responseTo g !! e) as [rs|] eqn:Hr; [|done].
  destruct (Hresp _ _ Hr) as [_ Hrs].
  match goal with |- context [foldl ?f ?s rs] =>
    assert (marking_in (events g) (foldl f s rs)) as H3 end.
  { apply (foldl_invariant (marking_in (events g))); [|done].
    intros s x Hx Hs. apply marking_in_pending_add; auto. }
  simpl. destruct (excludesTo g !! e) as [xs|] eqn:Hx; [|done].
  match goal with |- context [foldl ?f ?s xs] =>
    assert (marking_in (events g) (foldl f s xs)) as H4 end.
  { apply (foldl_invariant (marking_in (events g))); [|done].
    intros s x _ Hs. by apply marking_in_included_delete. }
  destruct (includesTo g !! e) as [is_|] eqn:Hi; [|done].
  destruct (Hincl _ _ Hi) as [_ His]. simpl.
  apply (foldl_invariant (marking_in (events g))); [|done].
  intros s x Hin Hs. apply marking_in_included_add; auto.
Qed.

Lemma execute_preserves_marking_in_witness :
  marking_in (events conditionGraph)
             (execute "A" conditionGraph (allIncluded ["A"; "B"])).1.
Proof.
  apply execute_preserves_marking_in.
  - apply (bool_decide_unpack _). vm_compute. exact I.
  - apply (bool_decide_unpack _). vm_compute. exact I.
Defined.

(** ** The scoped marking helper *)

Section NewGraphEnv.
Context {L A : Type}.
Implicit Types (fn : M L A) (w : World L).

Lemma newGraphEnv_unfold fn w :
  newGraphEnv fn w
  = match fn (scratchWorld w) with
    | (w2, Normal v) =>
        ({| heap := heap w2; next := next w2; gmarking := gmarking w;
            locals := locals w2 |}, Normal v)
    | (w2, Throw e) => (w2, Throw e)
    | (w2, OutOfFuel) => (w2, OutOfFuel)
    end.
Proof.
  unfold newGraphEnv, mbind, M_bind, getRef, readMarking, alloc, setRef, mret, M_ret.
  simpl. fold (scratchWorld w).
  by destruct (fn (scratchWorld w)) as [w2 [v|e|]].
Qed.

(** When the closure throws, nothing is restored: the error leaves the
    helper with [graph.marking] still referring to the scratch copy, in the
    state the closure left it. *)
Lemma newGraphEnv_throw fn w w2 e :
  fn (scratchWorld w) = (w2, Throw e) → newGraphEnv fn w = (w2, Throw e).
Proof. intros H. by rewrite newGraphEnv_unfold, H. Qed.

(** A closure that keeps to its scope leaves the marking object of the
    caller as it was. *)
Lemma scoped_keeps_caller_marking fn w :
  valid w → scoped fn →
  heap (fn (scratchWorld w)).1 (gmarking w) = currentMarking w.
Proof.
  intros Hv Hs. unfold valid in Hv.
  rewrite Hs; [|unfold valid; simpl; lia|simpl; lia..].
  simpl. by rewrite fn_lookup_insert_ne by lia.
Qed.

Lemma tidy_scoped fn : tidy fn → scoped fn.
Proof. intros Ht w l Hv Hl Hne. by apply (Ht w Hv). Qed.

Lemma tidy_newGraphEnv fn : tidy fn → tidy (newGraphEnv fn).
Proof.
  intros Ht w Hv. rewrite newGraphEnv_unfold.
  assert (valid (scratchWorld w)) as Hvs by (unfold valid; simpl; lia).
  destruct (Ht _ Hvs) as (Hv2 & Hn2 & Hg2 & Hh2).
  unfold valid in *.
  assert (∀ l, (l < next w)%nat → l ≠ gmarking w →
               heap (fn (scratchWorld w)).1 l = heap w l) as Hheap.
  { intros l Hl Hne. rewrite Hh2; simpl; [|lia..].
    by rewrite fn_lookup_insert_ne by lia. }
  destruct (fn (scratchWorld w)) as [w2 [v|e|]]; simpl in *;
    split_and!; try done; try lia.
Qed.
End NewGraphEnv.

Section Tidy.
Context {L : Type}.

Lemma tidy_pure {A} (c : M L A) :
  (∀ w, heap (c w).1 = heap w ∧ next (c w).1 = next w
        ∧ gmarking (c w).1 = gmarking w) →
  tidy c.
Proof.
  intros H w Hv. destruct (H w) as (Hh & Hn & Hg). unfold valid in *.
  rewrite Hh, Hn, Hg. split_and!; auto.
Qed.

Lemma tidy_mret {A} (a : A) : tidy (mret a : M L A).
Proof. by apply tidy_pure. Qed.

Lemma tidy_throw {A} e : tidy (throw e : M L A).
Proof. by apply tidy_pure. Qed.

Lemma tidy_outOfFuel {A} : tidy (outOfFuel : M L A).
Proof. by apply tidy_pure. Qed.

Lemma tidy_readMarking {A} (f : Marking → completion A) :
  tidy (readMarking f : M L A).
Proof. by apply tidy_pure. Qed.

Lemma tidy_getLocals : tidy (getLocals : M L L).
Proof. by apply tidy_pure. Qed.

Lemma tidy_setLocals l : tidy (setLocals l : M L unit).
Proof. by apply tidy_pure. Qed.

Lemma tidy_onMarking {A} (f : Marking → Marking * completion A) :
  tidy (onMarking f : M L A).
Proof.
  intros w Hv. unfold onMarking.
  destruct (f (currentMarking w)) as [m' c]. simpl.
  split_and!; auto. intros l _ Hne. by rewrite fn_lookup_insert_ne.
Qed.

Lemma tidy_bind {A B} (c : M L A) (k : A → M L B) :
  tidy c → (∀ a, tidy (k a)) → tidy (c ≫= k).
Proof.
  intros Hc Hk w Hv. unfold mbind, M_bind.
  destruct (Hc w Hv) as (Hv1 & Hn1 & Hg1 & Hh1).
  destruct (c w) as [w1 [a|e|]]; simpl in *; [|done..].
  destruct (Hk a w1 Hv1) as (Hv2 & Hn2 & Hg2 & Hh2).
  unfold valid in *. split_and!; [done|lia|lia|].
  intros l Hl Hne. rewrite Hh2, Hh1; [done..|lia|lia].
Qed.

Lemma tidy_forOf {S B} (l : list B) (body : S → B → M L S) :
  (∀ s x, tidy (body s x)) → ∀ s, tidy (forOf l s body).
Proof.
  intros Hbody. induction l as [|x l IH]; intros s; simpl.
  - apply tidy_mret.
  - apply tidy_bind; auto.
Qed.
End Tidy.

Create HintDb tidy.
#[local] Hint Resolve tidy_mret tidy_throw tidy_outOfFuel tidy_readMarking
  tidy_getLocals tidy_setLocals tidy_onMarking tidy_newGraphEnv : tidy.

(** Splits a composed computation into its statements. *)
Ltac tidy_step :=
  match goal with
  | |- tidy (_ ≫= _) => apply tidy_bind; [|intros ?]
  | |- tidy (newGraphEnv _) => apply tidy_newGraphEnv
  | |- tidy (forOf _ _ _) => apply tidy_forOf; intros ? ?
  | |- tidy (if ?b then _ else _) => destruct b
  | |- tidy (match ?x with _ => _ end) => destruct x
  | |- tidy (let '(_, _) := ?x in _) => destruct x
  | |- tidy _ => solve [auto with tidy]
  end.

Lemma tidy_setMaxCost c : tidy (setMaxCost c).
Proof. unfold setMaxCost. repeat tidy_step. Qed.

(** The search reaches markings through [graph.marking] only. *)
Lemma tidy_alignTraceLabel graph context alignCost toDepth pruning oracleFuel :
  ∀ fuel keys trace curCost curDepth,
    tidy (alignTraceLabel graph context alignCost toDepth pruning oracleFuel
            fuel keys trace curCost curDepth).
Proof.
  pose proof tidy_setMaxCost as Hmax.
  induction fuel as [|fuel IH]; intros keys trace curCost curDepth; simpl.
  - apply tidy_outOfFuel.
  - repeat tidy_step.
Qed.

(** Both uses of [newGraphEnv] in the search (the consume move and the
    model-skip move) run a closure of this form; when it returns, the
    marking of the graph is the one from before the move. *)
Lemma search_move_restores graph context alignCost toDepth pruning oracleFuel
  fuel event trace curCost curDepth (w w' : World AlignVars) alignment :
  valid w →
  newGraphEnv (onMarking (execute event graph);;
               alignTraceLabel graph context alignCost toDepth pruning
                 oracleFuel fuel standardKeys trace curCost curDepth) w
  = (w', Normal alignment) →
  gmarking w' = gmarking w ∧ currentMarking w' = currentMarking w.
Proof.
  intros Hv. rewrite newGraphEnv_unfold.
  match goal with |- context [match ?c (scratchWorld w) with _ => _ end] =>
    set (fn := c) end.
  assert (scoped fn) as Hs.
  { apply tidy_scoped, tidy_bind; [apply tidy_onMarking|].
    intros _. apply tidy_alignTraceLabel. }
  pose proof (scoped_keeps_caller_marking fn w Hv Hs) as Hkeep.
  destruct (fn (scratchWorld w)) as [w2 [v|e|]]; [|done..].
  intros [= <- _]. by split.
Qed.


(** The restoring assignment puts back the reference, not the contents: a
    closure that holds the marking object of the caller under another name
    can still change it for good, although it returns. *)
Lemma newGraphEnv_alias_mutation :
  ¬ marking_restored_stated
      (viaAlias (L:=unit) 0 (with_pending (JSSet.add "X")))
      (initWorld (allIncluded ["A"; "B"]) tt).
Proof. unfold marking_restored_stated. vm_compute. discriminate. Qed.



(** ** The memoisation key *)

Section Separators.
Implicit Types (c a : ascii) (s x y r : string).

Lemma append_nil_l y : EmptyString +:+ y = y.
Proof. done. Qed.

Lemma append_cons a x y : String a x +:+ y = String a (x +:+ y).
Proof. done. Qed.

Lemma append_assoc x y r : (x +:+ y) +:+ r = x +:+ (y +:+ r).
Proof.
  induction x as [|a x IH]; [done|]. rewrite !append_cons. by rewrite IH.
Qed.

Lemma occurs_append c x y : occurs c (x +:+ y) = occurs c x || occurs c y.
Proof.
  induction x as [|a x IH]; [done|]. rewrite append_cons. simpl.
  rewrite IH. by rewrite orb_assoc.
Qed.

Lemma occurs_cons_same c r : occurs c (String c r) = true.
Proof. simpl. by rewrite Ascii.eqb_refl. Qed.

(** Two texts that agree and are cut at the first [c] have the same part
    before the cut and the same part after it. *)
Lemma append_sep_inj c x y r1 r2 :
  occurs c x = false → occurs c y = false →
  x +:+ String c r1 = y +:+ String c r2 → x = y ∧ r1 = r2.
Proof.
  revert y. induction x as [|a x IH]; intros [|b y];
    rewrite ?append_nil_l, ?append_cons; simpl.
  - intros _ _ [= ->]. done.
  - intros _ [Hb _]%orb_false_elim [= <- _]. by rewrite Ascii.eqb_refl in Hb.
  - intros [Ha _]%orb_false_elim _ [= -> _]. by rewrite Ascii.eqb_refl in Ha.
  - intros [_ Hx]%orb_false_elim [_ Hy]%orb_false_elim [= -> Heq].
    destruct (IH _ Hx Hy Heq) as [-> ->]. done.
Qed.

Lemma plainEvent_spec e :
  plainEvent e = true ↔ e ≠ EmptyString ∧ occurs "," e = false ∧ occurs ";" e = false.
Proof.
  unfold plainEvent. rewrite !andb_true_iff, !negb_true_iff, String.eqb_neq.
  tauto.
Qed.

Lemma join_nil : join [] = EmptyString.
Proof. done. Qed.

Lemma join_singleton x : join [x] = x.
Proof. done. Qed.

Lemma join_cons2 x y (l : list string) :
  join (x :: y :: l) = x +:+ String "," (join (y :: l)).
Proof. done. Qed.

Lemma occurs_join c (l : list string) :
  c ≠ ","%char → Forall (λ e, occurs c e = false) l → occurs c (join l) = false.
Proof.
  intros Hc. induction l as [|x [|y l] IH]; intros Hl; [done|..].
  - by inversion Hl.
  - rewrite join_cons2, occurs_append. inversion Hl as [|?? Hx Hl']; subst.
    rewrite Hx. cbn [occurs orb]. rewrite (IH Hl').
    destruct (Ascii.eqb_spec ","%char c); [congruence|done].
Qed.

Lemma join_inj (l1 l2 : list string) :
  Forall (λ e, plainEvent e = true) l1 →
  Forall (λ e, plainEvent e = true) l2 →
  join l1 = join l2 → l1 = l2.
Proof.
  assert (∀ x y (l : list string), x ≠ EmptyString → join (x :: y :: l) ≠ EmptyString) as Hne.
  { intros [|a x] y l Hx; [done|]. by rewrite join_cons2, append_cons. }
  assert (∀ x y z (l : list string),
            occurs "," x = false → x ≠ join (y :: z :: l)) as Hsingle.
  { intros x y z l Hx ->.
    by rewrite join_cons2, occurs_append, occurs_cons_same, orb_true_r in Hx. }
  revert l2. induction l1 as [|x l1 IH]; intros l2 H1 H2 Heq.
  - destruct l2 as [|y [|y' l2]]; [done|..];
      inversion H2 as [|?? Hy _]; subst;
      apply plainEvent_spec in Hy as [Hy _].
    + by rewrite join_nil, join_singleton in Heq.
    + rewrite join_nil in Heq. symmetry in Heq. by apply Hne in Heq.
  - inversion H1 as [|?? Hx H1']; subst.
    pose proof Hx as (Hxne & Hxc & _)%plainEvent_spec.
    destruct l2 as [|y l2].
    { destruct l1 as [|x' l1].
      - by rewrite join_nil, join_singleton in Heq.
      - rewrite join_nil in Heq. by apply Hne in Heq. }
    inversion H2 as [|?? Hy H2']; subst.
    pose proof Hy as (Hyne & Hyc & _)%plainEvent_spec.
    destruct l1 as [|x' l1], l2 as [|y' l2].
    + rewrite !join_singleton in Heq. by subst.
    + rewrite join_singleton in Heq. by apply Hsingle in Heq.
    + rewrite join_singleton in Heq. symmetry in Heq. by apply Hsingle in Heq.
    + rewrite !join_cons2 in Heq.
      apply append_sep_inj in Heq as [-> Heq]; [|done..].
      f_equal. by apply IH.
Qed.

Lemma sort_Permutation (l : list string) : sort l ≡ₚ l.
Proof. apply merge_sort_Permutation. Qed.

(** The sorted form of a set does not depend on the order of insertion. *)
Lemma sort_canonical (l1 l2 : list string) : l1 ≡ₚ l2 → sort l1 = sort l2.
Proof.
  intros Hp. apply (Sorted_unique String.le).
  - apply Sorted_merge_sort; apply _.
  - apply Sorted_merge_sort; apply _.
  - by rewrite !sort_Permutation.
Qed.

Lemma append_nil_r x : x +:+ EmptyString = x.
Proof. induction x as [|a x IH]; [done|]. by rewrite append_cons, IH. Qed.

(** The key, section by section. *)
Lemma stateToStr_unfold (keys : list MarkingKey) m :
  stateToStr keys m
  = foldr (λ setI rest, join (sort (setOf setI m)) +:+ String ";" rest)
          EmptyString keys.
Proof.
  unfold stateToStr.
  cut (∀ acc,
         foldl (λ retval setI,
                  retval +:+ (join (sort (setOf setI m)) +:+ ";")) acc keys
         = acc +:+ foldr (λ setI rest,
                            join (sort (setOf setI m)) +:+ String ";" rest)
                         EmptyString keys).
  { intros H. by rewrite H, append_nil_l. }
  induction keys as [|setI keys IH]; intros acc; simpl.
  - by rewrite append_nil_r.
  - rewrite IH, !append_assoc. done.
Qed.

(** The key is canonical: the markings that hold the same sets, in whatever
    order their members were added, have the same key, provided the keys of
    the two marking objects are in the same order. *)
Lemma stateToStr_canonical (keys : list MarkingKey) m1 m2 :
  executed m1 ≡ₚ executed m2 → included m1 ≡ₚ included m2 →
  pending m1 ≡ₚ pending m2 → stateToStr keys m1 = stateToStr keys m2.
Proof.
  intros He Hi Hp. rewrite !stateToStr_unfold.
  induction keys as [|setI keys IH]; [done|]. simpl. rewrite IH.
  by destruct setI; simpl;
    rewrite (sort_canonical _ _ He) || rewrite (sort_canonical _ _ Hi)
    || rewrite (sort_canonical _ _ Hp).
Qed.

Lemma plainMarking_setOf (setI : MarkingKey) m :
  plainMarking m → Forall (λ e, plainEvent e = true) (setOf setI m).
Proof.
  unfold plainMarking. rewrite !Forall_app. intros (He & Hi & Hp).
  by destruct setI.
Qed.

(** Equal keys have equal sections. *)
Lemma stateToStr_sections (keys : list MarkingKey) m1 m2 :
  plainMarking m1 → plainMarking m2 →
  stateToStr keys m1 = stateToStr keys m2 →
  ∀ setI, setI ∈ keys → sort (setOf setI m1) = sort (setOf setI m2).
Proof.
  intros H1 H2. rewrite !stateToStr_unfold.
  assert (∀ l, Forall (λ e, plainEvent e = true) l →
               Forall (λ e, plainEvent e = true) (sort l)) as Hsort.
  { intros l Hl. by rewrite sort_Permutation. }
  assert (∀ l, Forall (λ e, plainEvent e = true) l →
               occurs ";" (join (sort l)) = false) as Hsemi.
  { intros l Hl. apply occurs_join; [done|].
    eapply Forall_impl; [apply (Hsort _ Hl)|].
    intros e He. by apply plainEvent_spec in He as (_ & _ & ?). }
  induction keys as [|key keys IH]; intros Heq setI Hin;
    [by apply elem_of_nil in Hin|].
  simpl in Heq.
  apply append_sep_inj in Heq as [Hkey Heq];
    [|by apply Hsemi, plainMarking_setOf..].
  apply elem_of_cons in Hin as [->|Hin]; [|by apply IH].
  apply join_inj in Hkey; [done|by apply Hsort, plainMarking_setOf..].
Qed.
End Separators.

(** C8, as stated, fails for event names that the key does not render
    faithfully, and for marking objects whose keys are not in the same
    order.  A name with a comma: the set of the one event ["a,b"] and the
    set of the two events ["a"] and ["b"] get the same key.  A name with a
    semicolon: the events ["a"], executed, and ["b;"], included, get the key
    of the one executed event ["a;b"].  The empty name: the set that holds
    it gets the key of the empty set.  And the order of the keys: an object
    created with [included] first, in which the event ["A"] is included,
    gets the key of the object in the usual order in which ["A"] is
    executed. *)
Lemma stateToStr_counterexample :
  ¬ stateToStr_unambiguous_stated standardKeys standardKeys
      {| executed := ["a,b"]; included := []; pending := [] |}
      {| executed := ["a"; "b"]; included := []; pending := [] |}
  ∧ ¬ stateToStr_unambiguous_stated standardKeys standardKeys
        {| executed := ["a"]; included := ["b;"]; pending := [] |}
        {| executed := ["a;b"]; included := []; pending := [] |}
  ∧ ¬ stateToStr_unambiguous_stated standardKeys standardKeys
        {| executed := [EmptyString]; included := []; pending := [] |}
        {| executed := []; included := []; pending := [] |}
  ∧ ¬ stateToStr_unambiguous_stated
        [includedKey; executedKey; pendingKey] standardKeys
        {| executed := []; included := ["A"]; pending := [] |}
        {| executed := ["A"]; included := []; pending := [] |}.
Proof.
  split_and!; intros H; destruct (H eq_refl) as [He _]; simpl in He.
  - destruct (He "a") as [_ Hin].
    assert ("a" ∈ ["a,b"]) as Hbad by (apply Hin; left).
    apply list_elem_of_singleton in Hbad. discriminate.
  - destruct (He "a") as [Hin _].
    assert ("a" ∈ ["a;b"]) as Hbad by (apply Hin; left).
    apply list_elem_of_singleton in Hbad. discriminate.
  - destruct (He EmptyString) as [Hin _].
    assert (EmptyString ∈ ([] : EventSet)) as Hbad by (apply Hin; left).
    by apply elem_of_nil in Hbad.
  - destruct (He "A") as [_ Hin].
    assert ("A" ∈ ([] : EventSet)) as Hbad by (apply Hin; left).
    by apply elem_of_nil in Hbad.
Qed.

(** C8, amended. On two marking objects that have their three keys in the
    same order, as all those that [copyMarking] creates have, and whose
    event names are not empty and contain neither [","] nor [";"],
    [stateToStr] is unambiguous: equal keys come from markings that are
    equal as triples of sets. *)
Theorem stateToStr_unambiguous (keys : list MarkingKey) (m1 m2 : Marking) :
  standardKeys ⊆ keys →
  plainMarking m1 → plainMarking m2 →
  stateToStr keys m1 = stateToStr keys m2 → sameSets m1 m2.
Proof.
  intros Hkeys H1 H2 Heq.
  pose proof (stateToStr_sections keys m1 m2 H1 H2 Heq) as Hsec.
  assert (∀ l1 l2 : list string, sort l1 = sort l2 → ∀ x, x ∈ l1 ↔ x ∈ l2) as Hmem.
  { intros l1 l2 Hs x.
    rewrite <- (sort_Permutation l1), <- (sort_Permutation l2), Hs. done. }
  split_and!.
  - apply Hmem, (Hsec executedKey), Hkeys. left.
  - apply Hmem, (Hsec includedKey), Hkeys. right. left.
  - apply Hmem, (Hsec pendingKey), Hkeys. right. right. left.
Qed.

Lemma stateToStr_unambiguous_witness :
  sameSets {| executed := ["B"; "A"]; included := ["A"]; pending := [] |}
           {| executed := ["A"; "B"]; included := ["A"]; pending := [] |}.
Proof.
  apply (stateToStr_unambiguous [pendingKey; executedKey; includedKey]).
  - apply (bool_decide_unpack _). vm_compute. exact I.
  - apply (bool_decide_unpack _). vm_compute. exact I.
  - apply (bool_decide_unpack _). vm_compute. exact I.
  - vm_compute. reflexivity.
Defined.

(** ** Replay and the violation quantifier *)

Lemma reverseRelation_normal (relation : EventMap) :
  totalOnTargets relation → ∃ r, reverseRelation relation = Normal r.
Proof.
  intros Htot. unfold reverseRelation.
  set (P := λ acc : completion EventMap,
         ∃ ret, acc = Normal ret
                ∧ ∀ k, is_Some (relation !! k) → is_Some (ret !! k)).
  assert (P (Normal (foldl (λ ret '(e, _), <[e := []]> ret) ∅
                           (map_to_list relation)))) as Hinit.
  { eexists. split; [done|]. intros k [s Hk].
    apply elem_of_map_to_list in Hk.
    revert Hk. generalize (∅ : EventMap). generalize (map_to_list relation).
    induction l as [|[e s'] l IH]; intros acc Hin; [by apply elem_of_nil in Hin|].
    simpl. apply elem_of_cons in Hin as [[= <- <-]|Hin]; [|by apply IH].
    clear IH. assert (is_Some (<[k := []]> acc !! k)) as Hk
      by (rewrite lookup_insert_eq; eauto).
    revert Hk. generalize (<[k := []]> acc). clear.
    induction l as [|[e s'] l IH]; intros acc Hk; [done|].
    simpl. apply IH. destruct (decide (e = k)) as [->|Hne].
    - rewrite lookup_insert_eq. eauto.
    - by rewrite lookup_insert_ne. }
  cut (P (foldl (λ acc '(e, s),
           foldl (λ acc j,
                    match acc with
                    | Normal ret =>
                        match ret !! j with
                        | Some sj => Normal (<[j := JSSet.add e sj]> ret)
                        | None => Throw TypeError
                        end
                    | c => c
                    end) acc s)
        (Normal (foldl (λ ret '(e, _), <[e := []]> ret) ∅ (map_to_list relation)))
        (map_to_list relation))).
  { intros (r & Hr & _). eauto. }
  apply (foldl_invariant P); [|done].
  intros acc [e s] Hes Hacc. apply elem_of_map_to_list in Hes.
  apply (foldl_invariant P); [|done].
  intros acc' j Hj (ret & -> & Hret).
  assert (is_Some (ret !! j)) as [sj Hsj].
  { apply Hret. specialize (Htot _ _ Hes). simpl in Htot.
    by apply (proj1 (Forall_forall _ _) Htot). }
  rewrite Hsj. eexists. split; [done|]. intros k Hk.
  destruct (decide (j = k)) as [->|Hne].
  - rewrite lookup_insert_eq. eauto.
  - rewrite lookup_insert_ne by done. by apply Hret.
Qed.

Section ConformanceFacts.
Context {SubProcess : Type}.
Variable isAcceptingS : DCRGraphS (SubProcess:=SubProcess) → Marking → bool.
Variable isEnabledS :
  Event → DCRGraphS (SubProcess:=SubProcess) → option SubProcess → Marking → bool.
Variable executeS :
  Event → DCRGraphS (SubProcess:=SubProcess) → Marking → Marking * completion unit.
Implicit Types (graph : DCRGraphS (SubProcess:=SubProcess)) (w : World unit).

(** The open-world rule of the replay: a token whose activity is not a label
    of the graph is passed over. *)
Lemma replayTraceS_unknown_activity graph head tail :
  activity head ∉ labels graph →
  replayTraceS isAcceptingS isEnabledS executeS graph (head :: tail)
  = replayTraceS isAcceptingS isEnabledS executeS graph tail.
Proof.
  intros Hno. simpl. apply JSSetFacts.has_false in Hno. by rewrite Hno.
Qed.

(** The quantifier has no such rule: a token whose activity has no entry in
    [labelMapInv] makes it raise when it iterates the candidates. *)
Lemma quantifyViolations_unknown_activity_throws graph head tail w :
  totalOnTargets (excludesTo graph) → totalOnTargets (responseTo graph) →
  labelMapInv graph !! activity head = None →
  quantifyViolations executeS graph (head :: tail) w = (w, Throw TypeError).
Proof.
  intros [ef Hef]%reverseRelation_normal [rf Hrf]%reverseRelation_normal Hno.
  unfold quantifyViolations. rewrite Hef, Hrf. simpl.
  by rewrite Hno.
Qed.

(** What the quantifier does when no candidate has the role of the token:
    the loop passes over every candidate, the marking is reset to a copy of
    itself, and the initial values of the search are returned. *)
Lemma quantifyViolations_no_candidate graph head tail evs w :
  totalOnTargets (excludesTo graph) → totalOnTargets (responseTo graph) →
  labelMapInv graph !! activity head = Some evs →
  Forall (λ e, roleMap graph !! e ≠ Some (role head)) evs →
  quantifyViolations executeS graph (head :: tail) w
  = ((resetMarking (copyMarking (currentMarking w)) w).1,
     Normal {| totalViolations := Infinity;
               violations := noRelations;
               activations := noRelations |}).
Proof.
  intros [ef Hef]%reverseRelation_normal [rf Hrf]%reverseRelation_normal Hevs Hrole.
  unfold quantifyViolations. rewrite Hef, Hrf. simpl.
  rewrite Hevs. unfold mbind at 1, M_bind at 1. simpl.
  unfold mbind at 1, M_bind at 1.
  rewrite forOf_skip; [done|].
  intros e w' He.
  apply (proj1 (Forall_forall _ _) Hrole) in He.
  by rewrite bool_decide_false.
Qed.
End ConformanceFacts.

(** C6 fails on the code: the replay passes over a token whose activity is
    not a label (the open-world rule) and accepts, while the quantifier
    raises [TypeError] on the same token instead of returning a count. *)
Theorem quantifyViolations_raises_on_accepted_trace :
  let graph := flat (sampleGraph ["A"] [] [] [] [] []) in
  let trace := [ {| role := "r"; activity := "X" |} ] in
  let w := initWorld (allIncluded ["A"]) tt in
  (replayTraceS specIsAcceptingS specIsEnabledS specExecuteS graph trace w).2
  = Normal true
  ∧ (quantifyViolations specExecuteS graph trace w).2 = Throw TypeError.
Proof. split; by vm_compute. Qed.

(** C10. When the activity of the first token is a label of the graph but
    none of the events that carry the label has the role of the token, the
    quantifier returns (it does not raise), and reports
    [totalViolations = Infinity]. *)
Theorem quantifyViolations_unmatched_role {SubProcess : Type}
  (executeS : Event → DCRGraphS (SubProcess:=SubProcess) → Marking
              → Marking * completion unit)
  (graph : DCRGraphS (SubProcess:=SubProcess))
  (head : RoleEvent) (tail : RoleTrace) (evs : EventSet) (w : World unit) :
  totalOnTargets (excludesTo graph) → totalOnTargets (responseTo graph) →
  activity head ∈ labels graph →
  labelMapInv graph !! activity head = Some evs →
  Forall (λ e, roleMap graph !! e ≠ Some (role head)) evs →
  ∃ q, (quantifyViolations executeS graph (head :: tail) w).2 = Normal q
       ∧ totalViolations q = Infinity.
Proof.
  intros Hex Hre _ Hevs Hrole.
  rewrite (quantifyViolations_no_candidate _ _ _ _ _ _ Hex Hre Hevs Hrole).
  eexists. split; [done|]. done.
Qed.

Lemma quantifyViolations_unmatched_role_witness :
  ∃ q, (quantifyViolations specExecuteS (flat conditionGraph)
          [ {| role := "q"; activity := "B" |}; {| role := "r"; activity := "A" |} ]
          (initWorld (allIncluded ["A"; "B"]) tt)).2 = Normal q
       ∧ totalViolations q = Infinity.
Proof.
  apply (quantifyViolations_unmatched_role specExecuteS (flat conditionGraph)
           {| role := "q"; activity := "B" |} _ ["B"]).
  - apply (bool_decide_unpack _). vm_compute. exact I.
  - apply (bool_decide_unpack _). vm_compute. exact I.
  - apply (bool_decide_unpack _). vm_compute. exact I.
  - vm_compute. reflexivity.
  - apply (bool_decide_unpack _). vm_compute. exact I.
Defined.

(** ** The trace aligner *)

(** C7 fails on the code.  The graph has the one event [A], excluded and not
    pending; the trace is [["A"]] and every move costs one.  Skipping the
    token is an alignment of cost 1, and 1 is also the initial bound
    (1 for the skip plus 0 for the empty trace in the accepting marking).
    The search abandons a branch as soon as its cost reaches [maxCost], so it
    abandons this alignment too and returns [Infinity], above the bound;
    this does not depend on the memoisation key, and so not on the order of
    the keys of the marking object. *)
Theorem align_exceeds_initial_bound (fuel oracleFuel : nat)
  (keys : list MarkingKey) :
  let w := initWorld noneIncluded tt in
  (withLocals {| maxCost := None; alignState := {[ 0%nat := ∅ ]} |}
     (initialBound loneEvent [] unitCost Infinity false oracleFuel
                   (S (S fuel)) keys ["A"]) w).2
  = Normal (Num 1)
  ∧ (align loneEvent [] unitCost Infinity false oracleFuel
           (S (S fuel)) keys ["A"] w).2
    = Normal {| cost := Infinity; trace := [] |}
  ∧ JS.le Infinity (Num 1) = false.
Proof.
  intros w. subst w.
  assert (∀ s, (∅ : gmap string number) !! s = None) as Hempty
    by (intros; apply lookup_empty).
  assert (getEnabled (sampleGraph ["A"] [] [] [] [] []) noneIncluded
          = Normal []) as Hnone by (vm_compute; reflexivity).
  split_and!; [| |done].
  - (* the initial bound: the search of the empty trace finds the cost 0 *)
    unfold withLocals, initialBound, initWorld. simpl.
    unfold mbind, M_bind, getLocals, readMarking. simpl.
    rewrite lookup_singleton_eq. simpl. by rewrite Hempty.
  - (* the search: the skip of the token is abandoned at cost 1 *)
    unfold align, withLocals, initialBound, initWorld. simpl.
    unfold mbind, M_bind, getLocals, readMarking. simpl.
    rewrite lookup_singleton_eq. simpl. rewrite Hempty. simpl.
    rewrite lookup_insert_eq. simpl. rewrite Hempty. simpl.
    rewrite lookup_insert_eq. simpl.
    unfold mbind, M_bind, getLocals, readMarking, currentMarking. simpl.
    by rewrite Hnone.
Qed.

(** The same defect on the shortest input: for the empty trace in an
    accepting marking the initial bound is 0, the cost of the empty
    alignment, and the search, which starts at cost 0, is abandoned at
    once. *)
Lemma initialBound_empty_trace_accepting {L} (graph : LabelDCRPP) context
  alignCost pruning oracleFuel fuel keys (w : World L) :
  isAccepting graph (currentMarking w) = true →
  (withLocals {| maxCost := None; alignState := {[ 0%nat := ∅ ]} |}
     (initialBound graph context alignCost Infinity pruning oracleFuel
                   (S fuel) keys []) w).2
  = Normal (Num 0).
Proof.
  intros Hacc. unfold withLocals, initialBound.
  simpl. unfold mbind, M_bind, getLocals, readMarking. simpl.
  rewrite lookup_singleton_eq. simpl. rewrite lookup_empty. simpl.
  unfold currentMarking in *. simpl. by rewrite Hacc.
Qed.

Lemma align_empty_trace_accepting {L} (graph : LabelDCRPP) context
  alignCost pruning oracleFuel fuel keys (w : World L) :
  isAccepting graph (currentMarking w) = true →
  align graph context alignCost Infinity pruning oracleFuel (S fuel) keys [] w
  = (w, Normal noAlignment).
Proof.
  intros Hacc. unfold align, withLocals, initialBound.
  simpl. unfold mbind, M_bind, getLocals, readMarking. simpl.
  rewrite lookup_singleton_eq. simpl. rewrite lookup_empty. simpl.
  unfold currentMarking in *. simpl. rewrite Hacc. simpl.
  by destruct w.
Qed.

(** ** Serialisation *)

Section NestedInduction.


End NestedInduction.

(** The replacer only changes the value at hand: a set becomes the array of
    its members, which is then written as any array is. *)
Lemma serializeJSONProperty_set2JSON key v :
  serializeJSONProperty (set2JSON key v) = serializeJSONProperty v.
Proof. by destruct v. Qed.






(** *** Numbers *)


(** *** The order of the properties of an object *)

















(** *** Writing and reading back *)




(** A text whose properties are not in the order of objects, one of them
    twice, and with a number that is no double: the object that is read
    lists the array indices first, the repeated name where it first stood
    and with its last value, and holds the nearest double. *)
Lemma parseSerialized_unorderedText :
  parseSerialized unorderedText
  = VObject [("1", VNumber (Num 3)); ("2", VNumber (Num (2 ^ 53)));
             ("b", VNumber (Num 4))].
Proof. vm_compute. reflexivity. Qed.




(** ** The scenarios of the specification, run on the model *)

(** Minimal response: after [A] the event [B] is pending, so the trace [A]
    is rejected and the trace [A, B] is accepted, without violations. *)
Example scenario_minimal_response :
  let w := initWorld (allIncluded ["A"; "B"]) tt in
  (replayTraceS specIsAcceptingS specIsEnabledS specExecuteS
     (flat minimalResponse) [by_r "A"] w).2 = Normal false
  ∧ (replayTraceS specIsAcceptingS specIsEnabledS specExecuteS
       (flat minimalResponse) [by_r "A"; by_r "B"] w).2 = Normal true
  ∧ totalViolations <$>
      (match (quantifyViolations specExecuteS (flat minimalResponse)
                [by_r "A"; by_r "B"] w).2 with
       | Normal q => Some q
       | _ => None
       end) = Some (Num 0).
Proof. split_and!; by vm_compute. Qed.

(** Condition: [B] is enabled once [A] has been executed. *)
Example scenario_condition :
  let m := allIncluded ["A"; "B"] in
  isEnabled "B" conditionGraph m = Normal false
  ∧ isEnabled "B" conditionGraph (execute "A" conditionGraph m).1 = Normal true.
Proof. split; by vm_compute. Qed.

(** Milestone: [A] is blocked while [B] is pending and included. *)
Example scenario_milestone :
  isEnabled "A" milestoneGraph
    {| executed := []; included := ["A"; "B"]; pending := ["B"] |}
  = Normal false
  ∧ isEnabled "A" milestoneGraph
      {| executed := []; included := ["A"]; pending := ["B"] |}
    = Normal true.
Proof. split; by vm_compute. Qed.

(** Violation counting: executing [B] before its condition [A] is one
    violation, of the condition from [A] to [B]. *)
Example scenario_violation_counting :
  match (quantifyViolations specExecuteS (flat conditionGraph) [by_r "B"]
           (initWorld (allIncluded ["A"; "B"]) tt)).2 with
  | Normal q =>
      totalViolations q = Num 1
      ∧ (RV.conditionsFor (violations q) !! "B") ≫= (λ row, row !! "A")
        = Some (Num 1)
  | _ => False
  end.
Proof. by vm_compute. Qed.

(** [getEnabled] agrees with [isEnabled] on the events of the graph. *)
Example scenario_getEnabled :
  getEnabled conditionGraph (allIncluded ["A"; "B"]) = Normal ["A"].
Proof. by vm_compute. Qed.

(** * Further properties of the code *)

(** ** The execution kernel *)

Section KernelMore.
Implicit Types (m : Marking) (g : LabelDCRPP) (graph : DCRGraph) (e x : Event).

(** The two tests of [isEnabled] on an included event, as one boolean. *)
Lemma isEnabled_defined e graph m cs ms :
  conditionsFor graph !! e = Some cs → milestonesFor graph !! e = Some ms →
  isEnabled e graph m
  = Normal (JSSet.has (included m) e
            && negb (existsb (λ c, JSSet.has (included m) c
                                   && negb (JSSet.has (executed m) c)) cs)
            && negb (existsb (λ x, JSSet.has (included m) x
                                   && JSSet.has (pending m) x) ms)).
Proof.
  intros Hc Hm. unfold isEnabled. rewrite Hc, Hm.
  destruct (JSSet.has (included m) e); [|done]. simpl.
  destruct (existsb _ cs); [done|]. simpl. by destruct (existsb _ ms).
Qed.

Lemma elem_of_foldl_delete_if (P : Event → bool) x (l r : EventSet) e :
  e ∈ foldl (λ retSet otherEvent,
               if P otherEvent then JSSet.delete x retSet else retSet) r l
  ↔ e ∈ r ∧ ¬ (e = x ∧ existsb P l = true).
Proof.
  revert r. induction l as [|o l IH]; intros r; simpl.
  - split; [intros ?; split; [done|]; by intros [_ ?] | tauto].
  - rewrite IH. destruct (P o); simpl.
    + rewrite JSSetFacts.elem_of_delete. split.
      * intros [[Hne Hr] _]. split; [done|]. by intros [-> _].
      * intros [Hr Hn]. split_and!; [|done|].
        -- intros ->. by apply Hn.
        -- intros [-> _]. by apply Hn.
    + done.
Qed.

(** One round of the loop of [getEnabled], for an event with its entries. *)
Lemma getEnabled_round graph m x cs ms (r : EventSet) e :
  let r1 := if negb (JSSet.has (included m) x) then JSSet.delete x r else r in
  let r2 := foldl (λ retSet otherEvent,
                     if JSSet.has (included m) otherEvent
                        && negb (JSSet.has (executed m) otherEvent)
                     then JSSet.delete x retSet else retSet) r1 cs in
  let r3 := foldl (λ retSet otherEvent,
                     if JSSet.has (included m) otherEvent
                        && JSSet.has (pending m) otherEvent
                     then JSSet.delete x retSet else retSet) r2 ms in
  conditionsFor graph !! x = Some cs → milestonesFor graph !! x = Some ms →
  e ∈ r3 ↔ e ∈ r ∧ (e = x → isEnabled x graph m = Normal true).
Proof.
  intros r1 r2 r3 Hc Hm. subst r1 r2 r3.
  rewrite !elem_of_foldl_delete_if, (isEnabled_defined _ _ _ _ _ Hc Hm).
  destruct (decide (e = x)) as [->|Hne].
  - destruct (JSSet.has (included m) x), (existsb _ cs), (existsb _ ms);
      simpl; rewrite ?JSSetFacts.elem_of_delete;
      intuition (try congruence; try discriminate).
  - destruct (JSSet.has (included m) x); simpl;
      rewrite ?JSSetFacts.elem_of_delete; intuition congruence.
Qed.

Lemma getEnabled_unfold graph m :
  getEnabled graph m
  = foldl (getEnabledRound graph m) (Normal (copySet (events graph)))
          (events graph).
Proof. done. Qed.

Lemma getEnabled_loop graph m (l r : EventSet) :
  Forall (λ e, is_Some (conditionsFor graph !! e)
               ∧ is_Some (milestonesFor graph !! e)) l →
  ∃ r', foldl (getEnabledRound graph m) (Normal r) l = Normal r'
        ∧ ∀ e, e ∈ r' ↔ e ∈ r ∧ (e ∈ l → isEnabled e graph m = Normal true).
Proof.
  revert r. induction l as [|x l IH]; intros r Hl.
  - exists r. split; [done|]. intros e. rewrite elem_of_nil. tauto.
  - inversion Hl as [|?? [[cs Hc] [ms Hm]] Hl']; subst.
    cbn [foldl]. unfold getEnabledRound at 2. rewrite Hc, Hm.
    match goal with |- context [foldl _ (Normal ?r1) l] =>
      destruct (IH r1 Hl') as (r' & -> & Hr') end.
    exists r'. split; [done|].
    intros e. rewrite Hr', (getEnabled_round graph m x cs ms r e Hc Hm).
    rewrite elem_of_cons. split.
    + intros [[Hr Hx] Hrest]. split; [done|]. intros [->|?]; auto.
    + intros [Hr Hall]. split_and!; [done| |].
      * intros ->. apply Hall. by left.
      * intros Hin. apply Hall. by right.
Qed.

Lemma getEnabled_loop_raises graph m (l : EventSet) e acc :
  e ∈ l → acc ≠ OutOfFuel → (∀ err, acc = Throw err → err = TypeError) →
  conditionsFor graph !! e = None ∨ milestonesFor graph !! e = None →
  foldl (getEnabledRound graph m) acc l = Throw TypeError.
Proof.
  intros Hin Hfuel Herr Hmiss. revert acc Hfuel Herr.
  assert (∀ l' : EventSet,
            foldl (getEnabledRound graph m) (Throw TypeError) l'
            = Throw TypeError) as Hstuck.
  { induction l' as [|y l' IHl']; [done|]. by simpl. }
  induction l as [|x l IH]; intros acc Hfuel Herr; [by apply elem_of_nil in Hin|].
  cbn [foldl].
  destruct acc as [r|err|]; [| |done].
  - unfold getEnabledRound at 2.
    apply elem_of_cons in Hin as [->|Hin].
    + destruct Hmiss as [Hc|Hm].
      * rewrite Hc. by apply Hstuck.
      * rewrite Hm. destruct (conditionsFor graph !! x); by apply Hstuck.
    + destruct (conditionsFor graph !! x); [|by apply Hstuck].
      destruct (milestonesFor graph !! x); [|by apply Hstuck].
      by apply IH.
  - rewrite (Herr err eq_refl). by apply Hstuck.
Qed.
End KernelMore.

(** X1. When every event has its condition and milestone entries,
    [getEnabled] returns, and the set it returns holds exactly the events of
    the graph for which [isEnabled] answers true. *)
Theorem getEnabled_isEnabled (graph : DCRGraph) (m : Marking) :
  Forall (λ e, is_Some (conditionsFor graph !! e)
               ∧ is_Some (milestonesFor graph !! e)) (events graph) →
  ∃ s, getEnabled graph m = Normal s
       ∧ ∀ e, e ∈ s ↔ e ∈ events graph ∧ isEnabled e graph m = Normal true.
Proof.
  intros Hall. rewrite getEnabled_unfold.
  destruct (getEnabled_loop graph m (events graph) (copySet (events graph)) Hall)
    as (s & -> & Hs).
  exists s. split; [done|]. intros e. rewrite Hs.
  unfold copySet. rewrite JSSetFacts.elem_of_new_Set. tauto.
Qed.

Lemma getEnabled_isEnabled_witness :
  ∃ s, getEnabled conditionGraph (allIncluded ["A"; "B"]) = Normal s
       ∧ ∀ e, e ∈ s ↔ e ∈ events conditionGraph
                      ∧ isEnabled e conditionGraph (allIncluded ["A"; "B"])
                        = Normal true.
Proof.
  apply getEnabled_isEnabled.
  apply (bool_decide_unpack _). vm_compute. exact I.
Defined.

(** X2. [getEnabled] reads the condition and milestone entries of every
    event of the graph, enabled or not: one event without an entry makes it
    raise [TypeError], even an excluded event, for which [isEnabled] answers
    false without reading any entry. *)
Theorem getEnabled_raises_on_missing_entry (graph : DCRGraph) (m : Marking)
  (e : Event) :
  e ∈ events graph →
  conditionsFor graph !! e = None ∨ milestonesFor graph !! e = None →
  getEnabled graph m = Throw TypeError
  ∧ (e ∉ included m → isEnabled e graph m = Normal false).
Proof.
  intros Hin Hmiss. split.
  - rewrite getEnabled_unfold. by apply (getEnabled_loop_raises graph m _ e).
  - intros Hex. unfold isEnabled.
    apply JSSetFacts.has_false in Hex. by rewrite Hex.
Qed.

Lemma getEnabled_raises_on_missing_entry_witness :
  getEnabled brokenGraph noneIncluded = Throw TypeError
  ∧ ("A" ∉ included noneIncluded →
     isEnabled "A" brokenGraph noneIncluded = Normal false).
Proof.
  apply getEnabled_raises_on_missing_entry.
  - apply (bool_decide_unpack _). vm_compute. exact I.
  - right. vm_compute. reflexivity.
Defined.

Section KernelSets.
Implicit Types (m : Marking) (g : LabelDCRPP) (graph : DCRGraph) (e x : Event).

Lemma has_ext (s1 s2 : EventSet) x :
  (∀ y, y ∈ s1 ↔ y ∈ s2) → JSSet.has s1 x = JSSet.has s2 x.
Proof.
  intros H. destruct (JSSet.has s2 x) eqn:E.
  - apply JSSetFacts.has_true. apply H. by apply JSSetFacts.has_true.
  - apply JSSetFacts.has_false. rewrite H. by apply JSSetFacts.has_false.
Qed.

Lemma existsb_ext_all {A} (f g : A → bool) (l : list A) :
  (∀ a, f a = g a) → existsb f l = existsb g l.
Proof. intros H. induction l as [|a l IH]; simpl; [done|]. by rewrite H, IH. Qed.

Lemma isEnabled_sameSets e graph m1 m2 :
  sameSets m1 m2 → isEnabled e graph m1 = isEnabled e graph m2.
Proof.
  intros (He & Hi & Hp). unfold isEnabled.
  rewrite (has_ext _ _ e Hi).
  destruct (conditionsFor graph !! e) as [cs|]; [|done].
  rewrite (existsb_ext_all
             (λ c, JSSet.has (included m1) c && negb (JSSet.has (executed m1) c))
             (λ c, JSSet.has (included m2) c && negb (JSSet.has (executed m2) c)))
    by (intros c; by rewrite (has_ext _ _ c Hi), (has_ext _ _ c He)).
  destruct (milestonesFor graph !! e) as [ms|]; [|done].
  rewrite (existsb_ext_all
             (λ c, JSSet.has (included m1) c && JSSet.has (pending m1) c)
             (λ c, JSSet.has (included m2) c && JSSet.has (pending m2) c))
    by (intros c; by rewrite (has_ext _ _ c Hi), (has_ext _ _ c Hp)).
  done.
Qed.

(** The marking is accepting when no pending event is included. *)
Lemma isAccepting_iff graph m :
  isAccepting graph m = true ↔ ∀ p, p ∈ pending m → p ∉ included m.
Proof.
  unfold isAccepting. rewrite Nat.eqb_eq, length_zero_iff_nil. split.
  - intros Hnil p Hp Hi.
    assert (p ∈ JSSet.intersect (copySet (pending m)) (included m)) as Hin.
    { apply JSSetFacts.elem_of_intersect. split; [|done].
      by apply JSSetFacts.elem_of_new_Set. }
    rewrite Hnil in Hin. by apply elem_of_nil in Hin.
  - intros Hno.
    destruct (JSSet.intersect (copySet (pending m)) (included m)) as [|p l] eqn:E;
      [done|].
    assert (p ∈ JSSet.intersect (copySet (pending m)) (included m)) as Hin
      by (rewrite E; left).
    apply JSSetFacts.elem_of_intersect in Hin as [Hp Hi].
    unfold copySet in Hp. rewrite JSSetFacts.elem_of_new_Set in Hp.
    by destruct (Hno p Hp).
Qed.

Lemma isAccepting_sameSets graph m1 m2 :
  sameSets m1 m2 → isAccepting graph m1 = isAccepting graph m2.
Proof.
  intros (He & Hi & Hp). apply eq_true_iff_eq. rewrite !isAccepting_iff.
  split; intros H p Hpe Hin; apply (H p); by rewrite ?Hp, ?Hi in *.
Qed.

Lemma sameSets_refl m : sameSets m m.
Proof. by split_and!. Qed.

Lemma foldl_sameSets (f : Marking → Event → Marking) (l : EventSet) m1 m2 :
  (∀ a b x, sameSets a b → sameSets (f a x) (f b x)) →
  sameSets m1 m2 → sameSets (foldl f m1 l) (foldl f m2 l).
Proof.
  intros Hf. revert m1 m2. induction l as [|x l IH]; intros m1 m2 H; [done|].
  simpl. by apply IH, Hf.
Qed.

Lemma sameSets_with_executed_add x m1 m2 :
  sameSets m1 m2 →
  sameSets (with_executed (JSSet.add x) m1) (with_executed (JSSet.add x) m2).
Proof.
  intros (He & Hi & Hp). split_and!; simpl; try done.
  intros y. rewrite !JSSetFacts.elem_of_add, He. done.
Qed.

Lemma sameSets_with_pending_add m1 m2 x :
  sameSets m1 m2 →
  sameSets (with_pending (JSSet.add x) m1) (with_pending (JSSet.add x) m2).
Proof.
  intros (He & Hi & Hp). split_and!; simpl; try done.
  intros y. rewrite !JSSetFacts.elem_of_add, Hp. done.
Qed.

Lemma sameSets_with_pending_delete m1 m2 x :
  sameSets m1 m2 →
  sameSets (with_pending (JSSet.delete x) m1) (with_pending (JSSet.delete x) m2).
Proof.
  intros (He & Hi & Hp). split_and!; simpl; try done.
  intros y. rewrite !JSSetFacts.elem_of_delete, Hp. done.
Qed.

Lemma sameSets_with_included_add m1 m2 x :
  sameSets m1 m2 →
  sameSets (with_included (JSSet.add x) m1) (with_included (JSSet.add x) m2).
Proof.
  intros (He & Hi & Hp). split_and!; simpl; try done.
  intros y. rewrite !JSSetFacts.elem_of_add, Hi. done.
Qed.

Lemma sameSets_with_included_delete m1 m2 x :
  sameSets m1 m2 →
  sameSets (with_included (JSSet.delete x) m1) (with_included (JSSet.delete x) m2).
Proof.
  intros (He & Hi & Hp). split_and!; simpl; try done.
  intros y. rewrite !JSSetFacts.elem_of_delete, Hi. done.
Qed.

Lemma execute_sameSets e g m1 m2 :
  sameSets m1 m2 →
  (execute e g m1).2 = (execute e g m2).2
  ∧ sameSets (execute e g m1).1 (execute e g m2).1.
Proof.
  intros H. unfold execute.
  set (a1 := if JSSet.has (conditions g) e then _ else m1).
  set (a2 := if JSSet.has (conditions g) e then _ else m2).
  assert (sameSets a1 a2) as Ha.
  { subst a1 a2. destruct (JSSet.has _ _); [|done].
    by apply sameSets_with_executed_add. }
  pose proof (sameSets_with_pending_delete _ _ e Ha) as Hb.
  destruct (responseTo g !! e) as [rs|]; [|done].
  pose proof (foldl_sameSets (λ m rEvent, with_pending (JSSet.add rEvent) m) rs
                _ _ (λ a b x, sameSets_with_pending_add a b x) Hb) as Hc.
  destruct (excludesTo g !! e) as [xs|]; [|done].
  pose proof (foldl_sameSets (λ m eEvent, with_included (JSSet.delete eEvent) m)
                xs _ _ (λ a b x, sameSets_with_included_delete a b x) Hc) as Hd.
  destruct (includesTo g !! e) as [is_|]; [|done].
  split; [done|].
  by apply (foldl_sameSets (λ m iEvent, with_included (JSSet.add iEvent) m) is_
              _ _ (λ a b x, sameSets_with_included_add a b x)).
Qed.
End KernelSets.

(** X3. The kernel treats the marking as a triple of sets: two markings with
    the same members, in whatever order they were inserted, get the same
    answer from [isEnabled] and from [isAccepting], and [execute] ends the
    same way on both and takes them to markings with the same members. *)
Theorem kernel_respects_sameSets (g : LabelDCRPP) (e : Event) (m1 m2 : Marking) :
  sameSets m1 m2 →
  isEnabled e g m1 = isEnabled e g m2
  ∧ isAccepting g m1 = isAccepting g m2
  ∧ (execute e g m1).2 = (execute e g m2).2
  ∧ sameSets (execute e g m1).1 (execute e g m2).1.
Proof.
  intros H. split_and!.
  - by apply isEnabled_sameSets.
  - by apply isAccepting_sameSets.
  - by apply execute_sameSets.
  - by apply execute_sameSets.
Qed.

Lemma kernel_respects_sameSets_witness :
  isEnabled "B" conditionGraph (mkMarking ["A"] ["A"; "B"] [])
  = isEnabled "B" conditionGraph (mkMarking ["A"] ["B"; "A"] [])
  ∧ isAccepting conditionGraph (mkMarking ["A"] ["A"; "B"] [])
    = isAccepting conditionGraph (mkMarking ["A"] ["B"; "A"] [])
  ∧ (execute "B" conditionGraph (mkMarking ["A"] ["A"; "B"] [])).2
    = (execute "B" conditionGraph (mkMarking ["A"] ["B"; "A"] [])).2
  ∧ sameSets (execute "B" conditionGraph (mkMarking ["A"] ["A"; "B"] [])).1
             (execute "B" conditionGraph (mkMarking ["A"] ["B"; "A"] [])).1.
Proof.
  apply kernel_respects_sameSets.
  split_and!; simpl; intros x; rewrite ?elem_of_cons; tauto.
Defined.

(** X4. Executing an event a second time, straight after the first, changes
    nothing: the marking keeps the same members. *)
Theorem execute_twice (g : LabelDCRPP) (e : Event) (m m1 : Marking) :
  execute e g m = (m1, Normal tt) →
  ∃ m2, execute e g m1 = (m2, Normal tt) ∧ sameSets m2 m1.
Proof.
  intros (rs & xs & is_ & Hr & Hx & Hi & ->)%execute_inv.
  eexists. split; [by apply execute_defined|].
  unfold executed_marking. split_and!; simpl; intros y.
  - destruct (JSSet.has (conditions g) e); [|done].
    rewrite !JSSetFacts.elem_of_add. tauto.
  - rewrite !JSSetFacts.elem_of_union, !elem_of_foldl_delete,
            !JSSetFacts.elem_of_union, !elem_of_foldl_delete. tauto.
  - rewrite !JSSetFacts.elem_of_union, !JSSetFacts.elem_of_delete,
            !JSSetFacts.elem_of_union, !JSSetFacts.elem_of_delete. tauto.
Qed.

Lemma execute_twice_witness :
  ∃ m2, execute "A" selfExcludeInclude (mkMarking [] ["A"] []) = (m2, Normal tt)
        ∧ sameSets m2 (mkMarking [] ["A"] []).
Proof.
  apply (execute_twice selfExcludeInclude "A" (allIncluded ["A"; "B"])).
  reflexivity.
Defined.

(** X5. [execute] raises [TypeError] when the event has no entry in one of
    the response, exclude and include relations, and it is not atomic: by
    then it has put the event into [executed] (if the event conditions
    another), and, when the response entry is the missing one, it has
    removed the event from [pending]. *)
Theorem execute_raises_after_mutation (g : LabelDCRPP) (e : Event) (m : Marking) :
  responseTo g !! e = None ∨ excludesTo g !! e = None
  ∨ includesTo g !! e = None →
  (execute e g m).2 = Throw TypeError
  ∧ (e ∈ conditions g → e ∈ executed (execute e g m).1)
  ∧ (responseTo g !! e = None → e ∉ pending (execute e g m).1).
Proof.
  intros Hmiss. split_and!.
  - unfold execute.
    destruct (responseTo g !! e); [|done].
    destruct (excludesTo g !! e); [|done].
    destruct (includesTo g !! e); [|done].
    by destruct Hmiss as [?|[?|?]].
  - intros Hc. rewrite execute_executed.
    apply JSSetFacts.has_true in Hc. rewrite Hc.
    apply JSSetFacts.elem_of_add. by left.
  - intros Hr. unfold execute. rewrite Hr. simpl.
    rewrite JSSetFacts.elem_of_delete. by intros [? _].
Qed.

Lemma execute_raises_after_mutation_witness :
  (execute "A" (graphToGraphPP brokenGraph) (mkMarking [] ["A"] ["A"])).2
  = Throw TypeError
  ∧ ("A" ∈ conditions (graphToGraphPP brokenGraph) →
     "A" ∈ executed (execute "A" (graphToGraphPP brokenGraph)
                       (mkMarking [] ["A"] ["A"])).1)
  ∧ (responseTo (graphToGraphPP brokenGraph) !! "A" = None →
     "A" ∉ pending (execute "A" (graphToGraphPP brokenGraph)
                      (mkMarking [] ["A"] ["A"])).1).
Proof.
  apply execute_raises_after_mutation. left. vm_compute. reflexivity.
Defined.

(** ** The relation helpers of utility.ts *)

Section RelationHelpers.
Implicit Types (em rel ret : EventMap) (j x e : Event) (s : EventSet).

Lemma foldl_insert_keys_lookup {V} (f : Event → V) (l : EventSet)
  (acc : gmap Event V) k :
  foldl (λ r ev, <[ev := f ev]> r) acc l !! k
  = if bool_decide (k ∈ l) then Some (f k) else acc !! k.
Proof.
  revert acc. induction l as [|y l IH]; intros acc; simpl; [done|].
  rewrite IH. destruct (decide (k ∈ l)) as [Hin|Hnin].
  - rewrite !bool_decide_true; [done| by right | done].
  - rewrite (bool_decide_false _ Hnin).
    destruct (decide (y = k)) as [->|Hne].
    + rewrite bool_decide_true by left. by rewrite lookup_insert_eq.
    + rewrite bool_decide_false
        by (rewrite elem_of_cons; intros [?|?]; [congruence|done]).
      by rewrite lookup_insert_ne.
Qed.



(** One insertion of [flipEventMap]. *)
Lemma flip_insert ret e1 e2 :
  (let ret' := match ret !! e2 with
               | Some _ => ret
               | None => <[e2 := []]> ret
               end in
   <[e2 := JSSet.add e1 (default [] (ret' !! e2))]> ret')
  = <[e2 := JSSet.add e1 (membersOf ret e2)]> ret.
Proof.
  unfold membersOf. simpl. destruct (ret !! e2) as [sj|] eqn:E.
  - by rewrite E.
  - rewrite lookup_insert_eq. simpl. by rewrite insert_insert_eq.
Qed.

Lemma flipEventMap_unfold em :
  flipEventMap em
  = foldl flipEntry
          (foldl (λ ret event, <[event := []]> ret) ∅ (map_to_list em).*1)
          (map_to_list em).
Proof.
  unfold flipEventMap. generalize (map_to_list em) at 2 4.
  generalize (foldl (λ ret event, <[event := []]> ret) (∅ : EventMap)
                    (map_to_list em).*1).
  intros ret l. revert ret. induction l as [|[e1 s] l IH]; intros ret; [done|].
  cbn [foldl]. rewrite IH. f_equal. unfold flipEntry. simpl.
  clear. revert ret. induction s as [|e2 s IH]; intros ret; [done|].
  cbn [foldl]. rewrite IH. f_equal. apply flip_insert.
Qed.

Lemma flipEntry_spec ret e1 s j x :
  (x ∈ membersOf (flipEntry ret (e1, s)) j
   ↔ x ∈ membersOf ret j ∨ (x = e1 ∧ j ∈ s))
  ∧ (is_Some (flipEntry ret (e1, s) !! j) ↔ is_Some (ret !! j) ∨ j ∈ s).
Proof.
  unfold flipEntry. simpl. revert ret.
  induction s as [|e2 s IH]; intros ret.
  - simpl. rewrite elem_of_nil. tauto.
  - cbn [foldl]. destruct (IH (<[e2 := JSSet.add e1 (membersOf ret e2)]> ret))
      as [IHm IHk].
    rewrite IHm, IHk, elem_of_cons. unfold membersOf.
    destruct (decide (e2 = j)) as [->|Hne].
    + rewrite lookup_insert_eq. simpl. rewrite JSSetFacts.elem_of_add.
      split.
      * split; [intros [[->|?]|[-> ?]]|intros [?|[-> _]]]; auto.
      * split; [auto|]. intros _. left. eauto.
    + rewrite lookup_insert_ne by done. split.
      * split; [intros [?|[? ?]]|intros [?|[? [?|?]]]]; try tauto; congruence.
      * split; [intros [?|?]|intros [?|[?|?]]]; try tauto; congruence.
Qed.

Lemma foldl_flipEntry_spec (l : list (Event * EventSet)) ret j x :
  (x ∈ membersOf (foldl flipEntry ret l) j
   ↔ x ∈ membersOf ret j ∨ ∃ s, (x, s) ∈ l ∧ j ∈ s)
  ∧ (is_Some (foldl flipEntry ret l !! j)
     ↔ is_Some (ret !! j) ∨ ∃ e s, (e, s) ∈ l ∧ j ∈ s).
Proof.
  revert ret. induction l as [|[e1 s] l IH]; intros ret.
  - simpl. split; (split; [auto|]).
    + intros [?|(s & []%elem_of_nil & _)]. done.
    + intros [?|(e & s & []%elem_of_nil & _)]. done.
  - cbn [foldl]. destruct (IH (flipEntry ret (e1, s))) as [IHm IHk].
    destruct (flipEntry_spec ret e1 s j x) as [Hm Hk].
    rewrite IHm, IHk, Hm, Hk. split.
    + split.
      * intros [[?|[-> ?]]|(s' & ? & ?)]; [by left| |].
        -- right. exists s. split; [left|done].
        -- right. exists s'. split; [by right|done].
      * intros [?|(s' & [[= -> ->]|?]%elem_of_cons & ?)]; [tauto|tauto|].
        right. eauto.
    + split.
      * intros [[?|?]|(e & s' & ? & ?)]; [by left| |].
        -- right. exists e1, s. split; [left|done].
        -- right. exists e, s'. split; [by right|done].
      * intros [?|(e & s' & [[= -> ->]|?]%elem_of_cons & ?)]; [tauto|tauto|].
        right. eauto.
Qed.

Lemma flipEventMap_spec em j x :
  (x ∈ membersOf (flipEventMap em) j ↔ ∃ s, em !! x = Some s ∧ j ∈ s)
  ∧ (is_Some (flipEventMap em !! j)
     ↔ is_Some (em !! j) ∨ ∃ e s, em !! e = Some s ∧ j ∈ s).
Proof.
  rewrite flipEventMap_unfold.
  destruct (foldl_flipEntry_spec (map_to_list em)
              (foldl (λ ret event, <[event := []]> ret) ∅ (map_to_list em).*1)
              j x) as [Hm Hk].
  rewrite Hm, Hk. unfold membersOf.
  rewrite (foldl_insert_keys_lookup (λ _, [])).
  assert (j ∈ (map_to_list em).*1 ↔ is_Some (em !! j)) as Hkeys.
  { rewrite list_elem_of_fmap. split.
    - intros ([k s] & -> & Hin%elem_of_map_to_list). eauto.
    - intros [s Hs]. exists (j, s). split; [done|].
      by apply elem_of_map_to_list. }
  split.
  - split.
    + intros [Hx|(s & Hin%elem_of_map_to_list & ?)]; [|eauto].
      case_bool_decide; simpl in Hx; by apply elem_of_nil in Hx.
    + intros (s & Hs & ?). right. exists s. split; [|done].
      by apply elem_of_map_to_list.
  - split.
    + intros [Hs|(e & s & Hin%elem_of_map_to_list & ?)]; [|eauto].
      left. apply Hkeys. case_bool_decide; [done|].
      rewrite lookup_empty in Hs. by destruct Hs.
    + intros [Hs|(e & s & Hs & ?)].
      * left. rewrite bool_decide_true by by apply Hkeys. eauto.
      * right. exists e, s. split; [|done]. by apply elem_of_map_to_list.
Qed.
End RelationHelpers.

Section ReverseRelation.
Implicit Types (rel ret : EventMap) (j x e : Event) (s : EventSet).

Lemma reverseRelation_unfold rel :
  reverseRelation rel
  = foldl revEntry
          (Normal (foldl (λ ret event, <[event := []]> ret) ∅
                         (map_to_list rel).*1))
          (map_to_list rel).
Proof.
  unfold reverseRelation.
  assert (∀ (l : list (Event * EventSet)) ret0,
            foldl (λ ret '(e, _), <[e := []]> ret) ret0 l
            = foldl (λ ret event, <[event := []]> ret) ret0 l.*1) as ->.
  { induction l as [|[e s] l IH]; intros ret0; [done|]. simpl. apply IH. }
  generalize (map_to_list rel) at 2 4.
  generalize (Normal (foldl (λ ret event, <[event := []]> ret) (∅ : EventMap)
                            (map_to_list rel).*1)).
  intros acc l. revert acc. induction l as [|[e s] l IH]; intros acc; [done|].
  cbn [foldl]. by rewrite IH.
Qed.

Lemma revEntry_total ret e s :
  Forall (λ j, is_Some (ret !! j)) s →
  revEntry (Normal ret) (e, s) = Normal (flipEntry ret (e, s)).
Proof.
  unfold revEntry, flipEntry. simpl. revert ret.
  induction s as [|j s IH]; intros ret Hs; [done|].
  apply Forall_cons in Hs as [[sj Hj] Hs]. cbn [foldl].
  unfold revStep at 2. rewrite Hj. unfold membersOf at 2. rewrite Hj. simpl.
  apply IH. eapply Forall_impl; [exact Hs|]. intros k Hk. simpl.
  destruct (decide (j = k)) as [->|Hne].
  - rewrite lookup_insert_eq. eauto.
  - by rewrite lookup_insert_ne.
Qed.

Lemma foldl_revEntry_total (l : list (Event * EventSet)) ret :
  (∀ e s, (e, s) ∈ l → Forall (λ j, is_Some (ret !! j)) s) →
  foldl revEntry (Normal ret) l = Normal (foldl flipEntry ret l).
Proof.
  revert ret. induction l as [|[e s] l IH]; intros ret Hl; [done|].
  cbn [foldl]. rewrite revEntry_total by (apply (Hl e); left).
  apply IH. intros e' s' Hin. eapply Forall_impl; [apply (Hl e'); by right|].
  intros k Hk. simpl. apply (flipEntry_spec ret e s k k). by left.
Qed.

Lemma keys_initial rel j :
  is_Some (foldl (λ ret event, <[event := []]> ret) (∅ : EventMap)
                 (map_to_list rel).*1 !! j)
  ↔ is_Some (rel !! j).
Proof.
  rewrite (foldl_insert_keys_lookup (λ _, [])).
  assert (j ∈ (map_to_list rel).*1 ↔ is_Some (rel !! j)) as Hkeys.
  { rewrite list_elem_of_fmap. split.
    - intros ([k s] & -> & Hin%elem_of_map_to_list). eauto.
    - intros [s Hs]. exists (j, s). split; [done|].
      by apply elem_of_map_to_list. }
  case_bool_decide as Hin.
  - split; [intros _; by apply Hkeys | eauto].
  - rewrite lookup_empty. split; [by intros [? ?] | intros ?; tauto].
Qed.

Lemma revStep_within rel e acc j :
  raisedOrWithin rel acc → raisedOrWithin rel (revStep e acc j).
Proof.
  intros [->|(ret & -> & Hret)]; [by left|]. simpl.
  destruct (ret !! j) as [sj|] eqn:Hj; [|by left].
  right. eexists. split; [done|]. intros k.
  destruct (decide (j = k)) as [->|Hne].
  - intros _. apply Hret. eauto.
  - rewrite lookup_insert_ne by done. apply Hret.
Qed.

Lemma revEntry_within rel acc entry :
  raisedOrWithin rel acc → raisedOrWithin rel (revEntry acc entry).
Proof.
  unfold revEntry. generalize (entry.2). intros s. revert acc.
  induction s as [|j s IH]; intros acc Hacc; [done|].
  cbn [foldl]. apply IH. by apply revStep_within.
Qed.

Lemma revEntry_raised entry : revEntry (Throw TypeError) entry = Throw TypeError.
Proof. unfold revEntry. by induction (entry.2). Qed.

Lemma revEntry_missing rel acc e s j :
  raisedOrWithin rel acc → j ∈ s → rel !! j = None →
  revEntry acc (e, s) = Throw TypeError.
Proof.
  unfold revEntry. simpl. revert acc.
  induction s as [|j' s IH]; intros acc Hacc Hin Hj;
    [by apply elem_of_nil in Hin|].
  cbn [foldl]. apply elem_of_cons in Hin as [<-|Hin].
  - assert (revStep e acc j = Throw TypeError) as ->.
    { destruct Hacc as [->|(ret & -> & Hret)]; [done|]. simpl.
      destruct (ret !! j) as [sj|] eqn:E; [|done].
      destruct (Hret j) as [? ?]; [eauto|congruence]. }
    apply (revEntry_raised (e, s)).
  - apply IH; [by apply revStep_within|done|done].
Qed.

Lemma foldl_revEntry_missing rel (l : list (Event * EventSet)) acc e s j :
  raisedOrWithin rel acc → (e, s) ∈ l → j ∈ s → rel !! j = None →
  foldl revEntry acc l = Throw TypeError.
Proof.
  revert acc. induction l as [|entry l IH]; intros acc Hacc Hin Hj Hnone;
    [by apply elem_of_nil in Hin|].
  cbn [foldl]. apply elem_of_cons in Hin as [<-|Hin].
  - rewrite (revEntry_missing rel acc e s j) by done.
    clear. induction l as [|entry l IH]; [done|].
    cbn [foldl]. by rewrite revEntry_raised.
  - apply IH; [by apply revEntry_within|done|done|done].
Qed.

(** X6.  On a relation all of whose targets have an entry of their own,
    [reverseRelation] returns, and what it returns is the map that
    [flipEventMap] builds: the defensive insertion of [flipEventMap] is the
    only difference between the two functions. *)
Theorem reverseRelation_flipEventMap rel :
  totalOnTargets rel → reverseRelation rel = Normal (flipEventMap rel).
Proof.
  intros Htot. rewrite reverseRelation_unfold, flipEventMap_unfold.
  apply foldl_revEntry_total. intros e s Hin%elem_of_map_to_list.
  eapply Forall_impl; [apply (Htot e s Hin)|].
  intros k Hk. simpl. by apply keys_initial.
Qed.

Lemma reverseRelation_flipEventMap_witness :
  reverseRelation (conditionsFor (conditionGraph))
  = Normal (flipEventMap (conditionsFor (conditionGraph))).
Proof.
  apply reverseRelation_flipEventMap.
  apply (bool_decide_unpack _). vm_compute. exact I.
Defined.

(** X7.  When some target of the relation has no entry of its own,
    [reverseRelation] raises a TypeError, whatever else the relation holds. *)
Theorem reverseRelation_raises rel :
  ¬ totalOnTargets rel → reverseRelation rel = Throw TypeError.
Proof.
  intros Hnot. apply map_not_Forall in Hnot as (e & s & Hes & Hs);
    [|intros; apply _].
  apply not_Forall_Exists in Hs; [|intros; apply _].
  apply Exists_exists in Hs as (j & Hj & Hnone).
  rewrite reverseRelation_unfold.
  apply (foldl_revEntry_missing rel _ _ e s j).
  - right. eexists. split; [done|]. intros k. apply keys_initial.
  - by apply elem_of_map_to_list.
  - done.
  - destruct (rel !! j) eqn:E; [|done]. destruct Hnone. eauto.
Qed.

Lemma reverseRelation_raises_witness :
  reverseRelation {["A" := ["B"]]} = Throw TypeError.
Proof.
  apply reverseRelation_raises.
  apply (bool_decide_unpack _). vm_compute. exact I.
Defined.
End ReverseRelation.

Section FlipAndCopy.
Implicit Types (em rel ret : EventMap) (j x e : Event) (s : EventSet).

(** Flipping stays within the relations that the definition covers. *)
Lemma plainTargets_flipEventMap em :
  plainTargets em → plainTargets (flipEventMap em).
Proof.
  intros [Hproto Htargets]. split.
  - apply eq_None_not_Some. intros Hsome.
    destruct (flipEventMap_spec em "__proto__" "__proto__") as [_ Hkeys].
    apply Hkeys in Hsome as [Hkey|(e & s & Hes & Hin)].
    + rewrite Hproto in Hkey. by destruct Hkey.
    + specialize (Htargets e s Hes). rewrite Forall_forall in Htargets.
      destruct (Htargets _ Hin) as [Hkey|?]; [|done].
      rewrite Hproto in Hkey. by destruct Hkey.
  - intros k s Hks. apply Forall_forall. intros x Hx. left.
    assert (x ∈ membersOf (flipEventMap em) k) as Hm
      by (unfold membersOf; by rewrite Hks).
    apply flipEventMap_spec in Hm as (s' & Hs' & _).
    destruct (flipEventMap_spec em x x) as [_ Hkeys].
    apply Hkeys. left. eauto.
Qed.

(** X8.  For a graph whose include and exclude relations have no target
    that is named after a member of [Object.prototype] and has no entry of
    its own, the derived relations of the optimised graph are the converses
    of the relations they are built from: [x] is in [includesFor[j]] exactly
    when [j] is in [includesTo[x]], and likewise for [excludesFor]; and the
    derived relations have no such target either. *)
Theorem graphToGraphPP_converse_relations (graph : DCRGraph) j x :
  plainTargets (includesTo graph) → plainTargets (excludesTo graph) →
  (x ∈ membersOf (includesFor (graphToGraphPP graph)) j
   ↔ ∃ s, includesTo graph !! x = Some s ∧ j ∈ s)
  ∧ (x ∈ membersOf (excludesFor (graphToGraphPP graph)) j
     ↔ ∃ s, excludesTo graph !! x = Some s ∧ j ∈ s)
  ∧ plainTargets (includesFor (graphToGraphPP graph))
  ∧ plainTargets (excludesFor (graphToGraphPP graph)).
Proof.
  intros Hincludes Hexcludes.
  split_and!; [apply flipEventMap_spec..| |]; by apply plainTargets_flipEventMap.
Qed.

Lemma graphToGraphPP_converse_relations_witness :
  let graph := sampleGraph ["A"; "B"] [] [] [] [("A", ["A"; "B"])]
                           [("A", ["B"])] in
  ("A" ∈ membersOf (includesFor (graphToGraphPP graph)) "B"
   ↔ ∃ s, includesTo graph !! "A" = Some s ∧ "B" ∈ s)
  ∧ ("A" ∈ membersOf (excludesFor (graphToGraphPP graph)) "B"
     ↔ ∃ s, excludesTo graph !! "A" = Some s ∧ "B" ∈ s)
  ∧ plainTargets (includesFor (graphToGraphPP graph))
  ∧ plainTargets (excludesFor (graphToGraphPP graph)).
Proof.
  apply graphToGraphPP_converse_relations;
    (split; [reflexivity|apply (bool_decide_unpack _); vm_compute; exact I]).
Defined.

(** X9.  For a relation without such a target, flipping twice gives back
    the members of every entry of the relation, and leaves the keys as they
    are after the first flip (the keys and the targets of the relation);
    the flipped relation has no such target either, so that the second flip
    is covered as the first is. *)
Theorem flipEventMap_twice em j x :
  plainTargets em →
  (x ∈ membersOf (flipEventMap (flipEventMap em)) j ↔ x ∈ membersOf em j)
  ∧ (is_Some (flipEventMap (flipEventMap em) !! j)
     ↔ is_Some (flipEventMap em !! j))
  ∧ plainTargets (flipEventMap em).
Proof.
  intros Hplain. split_and!; [| |by apply plainTargets_flipEventMap].
  - destruct (flipEventMap_spec (flipEventMap em) j x) as [-> _].
    split.
    + intros (s & Hs & Hj).
      assert (j ∈ membersOf (flipEventMap em) x) as Hm
        by (unfold membersOf; by rewrite Hs).
      apply flipEventMap_spec in Hm as (s' & Hs' & Hx).
      unfold membersOf. by rewrite Hs'.
    + intros Hx. unfold membersOf in Hx.
      destruct (em !! j) as [s'|] eqn:Hs'; [|by apply elem_of_nil in Hx].
      simpl in Hx.
      assert (j ∈ membersOf (flipEventMap em) x) as Hm
        by (apply flipEventMap_spec; eauto).
      unfold membersOf in Hm.
      destruct (flipEventMap em !! x) as [s|] eqn:Hs;
        [eauto | by apply elem_of_nil in Hm].
  - destruct (flipEventMap_spec (flipEventMap em) j x) as [_ ->].
    split; [|auto]. intros [?|(e & s & Hs & Hj)]; [done|].
    assert (j ∈ membersOf (flipEventMap em) e) as Hm
      by (unfold membersOf; by rewrite Hs).
    apply flipEventMap_spec in Hm as (s' & Hs' & Hx).
    apply (flipEventMap_spec em j x). left. eauto.
Qed.

Lemma flipEventMap_twice_witness :
  let em : EventMap := {["A" := ["B"; "toString"]; "toString" := ["A"]]} in
  ("B" ∈ membersOf (flipEventMap (flipEventMap em)) "A" ↔ "B" ∈ membersOf em "A")
  ∧ (is_Some (flipEventMap (flipEventMap em) !! "A")
     ↔ is_Some (flipEventMap em !! "A"))
  ∧ plainTargets (flipEventMap em).
Proof.
  apply flipEventMap_twice.
  split; [reflexivity|apply (bool_decide_unpack _); vm_compute; exact I].
Defined.




End FlipAndCopy.

Section Intersect.
Context {A : Type} `{EqDecision A}.
Implicit Types (s : list A).

Lemma intersect_loop (other small acc : list A) :
  NoDup acc →
  let r := foldl (λ retset elem, if JSSet.has other elem
                                 then JSSet.add elem retset else retset)
                 acc small in
  NoDup r ∧ ∀ y, y ∈ r ↔ y ∈ acc ∨ (y ∈ small ∧ y ∈ other).
Proof.
  revert acc. induction small as [|x small IH]; intros acc Hacc; simpl.
  - split; [done|]. intros y. rewrite elem_of_nil. tauto.
  - destruct (JSSet.has other x) eqn:Hx.
    + apply JSSetFacts.has_true in Hx.
      destruct (IH (JSSet.add x acc)) as [Hnd Hm];
        [by apply JSSetFacts.NoDup_add|].
      split; [done|]. intros y.
      rewrite Hm, JSSetFacts.elem_of_add, elem_of_cons.
      split; [intros [[->|?]|[? ?]]|intros [?|[[->|?] ?]]]; auto.
    + apply JSSetFacts.has_false in Hx.
      destruct (IH acc Hacc) as [Hnd Hm]. split; [done|]. intros y.
      rewrite Hm, elem_of_cons.
      split; [intros [?|[? ?]]|intros [?|[[->|?] ?]]]; auto. done.
Qed.

(** X12.  [intersect] returns a set without repetition that holds exactly
    the members the two sets share, whichever of the two is the smaller one
    that the loop runs through. *)
Theorem intersect_members s1 s2 :
  NoDup (intersect s1 s2)
  ∧ (∀ y, y ∈ intersect s1 s2 ↔ y ∈ s1 ∧ y ∈ s2)
  ∧ (∀ y, y ∈ intersect s1 s2 ↔ y ∈ intersect s2 s1).
Proof.
  assert (NoDup (intersect s1 s2)
          ∧ ∀ (a b : list A) y, y ∈ intersect a b ↔ y ∈ a ∧ y ∈ b) as [Hnd Hm].
  { split.
    - unfold intersect. destruct (Nat.ltb (length s2) (length s1));
        apply intersect_loop; apply NoDup_nil_2.
    - intros a b y. unfold intersect.
      destruct (Nat.ltb (length b) (length a)).
      + destruct (intersect_loop a b [] (NoDup_nil_2)) as [_ ->].
        rewrite elem_of_nil. tauto.
      + destruct (intersect_loop b a [] (NoDup_nil_2)) as [_ ->].
        rewrite elem_of_nil. tauto. }
  split_and!; [done|apply Hm|]. intros y. rewrite !Hm. tauto.
Qed.
End Intersect.

(** X13.  The memoisation key depends on the sets of the marking only, not
    on the order in which their members were added: two markings whose
    objects list their keys in the same order and that hold the same three
    sets get the same key. *)
Theorem stateToStr_same_sets (keys : list MarkingKey) (m1 m2 : Marking) :
  NoDup (executed m1) → NoDup (included m1) → NoDup (pending m1) →
  NoDup (executed m2) → NoDup (included m2) → NoDup (pending m2) →
  sameSets m1 m2 → stateToStr keys m1 = stateToStr keys m2.
Proof.
  intros He1 Hi1 Hp1 He2 Hi2 Hp2 (He & Hi & Hp).
  apply stateToStr_canonical; by apply NoDup_Permutation.
Qed.

Lemma stateToStr_same_sets_witness :
  stateToStr [includedKey; executedKey; pendingKey]
             (mkMarking ["A"; "B"] ["B"; "C"; "A"] [])
  = stateToStr [includedKey; executedKey; pendingKey]
               (mkMarking ["B"; "A"] ["A"; "B"; "C"] []).
Proof.
  apply stateToStr_same_sets;
    try (apply (bool_decide_unpack _); vm_compute; exact I).
  split_and!; simpl; intros x; rewrite ?elem_of_cons; tauto.
Defined.

(** ** The aligner and the marking of the graph *)

(** A run that ends with the completion [r]. *)
Lemma run_result {A B} (p : A * B) (r : B) : p.2 = r → p = (p.1, r).
Proof. destruct p. simpl. by intros ->. Qed.

Section Neutral.
Context {L : Type}.

Lemma neutral_pure {A} (c : M L A) :
  (∀ w, heap (c w).1 = heap w ∧ next (c w).1 = next w
        ∧ gmarking (c w).1 = gmarking w) →
  neutral c.
Proof.
  intros H w w' a Hv Hc. destruct (H w) as (Hh & Hn & Hg).
  rewrite Hc in *. simpl in *. unfold valid in *.
  rewrite Hh, Hn, Hg. split_and!; auto.
Qed.

Lemma neutral_mret {A} (a : A) : neutral (mret a : M L A).
Proof. by apply neutral_pure. Qed.

Lemma neutral_throw {A} e : neutral (throw e : M L A).
Proof. by apply neutral_pure. Qed.

Lemma neutral_outOfFuel {A} : neutral (outOfFuel : M L A).
Proof. by apply neutral_pure. Qed.

Lemma neutral_readMarking {A} (f : Marking → completion A) :
  neutral (readMarking f : M L A).
Proof. by apply neutral_pure. Qed.

Lemma neutral_getLocals : neutral (getLocals : M L L).
Proof. by apply neutral_pure. Qed.

Lemma neutral_setLocals l : neutral (setLocals l : M L unit).
Proof. by apply neutral_pure. Qed.

Lemma neutral_bind {A B} (c : M L A) (k : A → M L B) :
  neutral c → (∀ a, neutral (k a)) → neutral (c ≫= k).
Proof.
  intros Hc Hk w w' b Hv. unfold mbind, M_bind.
  destruct (c w) as [w1 [a|e|]] eqn:E; [|done..].
  destruct (Hc w w1 a Hv E) as (Hv1 & Hn1 & Hg1 & Hh1). intros Hka.
  destruct (Hk a w1 w' b Hv1 Hka) as (Hv2 & Hn2 & Hg2 & Hh2).
  split_and!; [done|lia|congruence|].
  intros l Hl. rewrite Hh2, Hh1; [done|lia|lia].
Qed.

Lemma neutral_forOf {S B} (l : list B) (body : S → B → M L S) :
  (∀ s x, neutral (body s x)) → ∀ s, neutral (forOf l s body).
Proof.
  intros Hbody. induction l as [|x l IH]; intros s; simpl.
  - apply neutral_mret.
  - apply neutral_bind; auto.
Qed.

(** What the closure does to its scratch copy does not matter, as long as
    it reaches marking objects through [graph.marking] only. *)
Lemma neutral_newGraphEnv {A} (fn : M L A) : tidy fn → neutral (newGraphEnv fn).
Proof.
  intros Ht w w' a Hv. rewrite newGraphEnv_unfold.
  assert (valid (scratchWorld w)) as Hvs by (unfold valid; simpl; lia).
  destruct (Ht _ Hvs) as (Hv2 & Hn2 & Hg2 & Hh2).
  pose proof (scoped_keeps_caller_marking fn w Hv (tidy_scoped fn Ht)) as Hk.
  unfold valid in *.
  destruct (fn (scratchWorld w)) as [w2 [v|e|]]; [|done..].
  intros [= <- _]. simpl in *. split_and!; [lia|lia|done|].
  intros l Hl. destruct (decide (l = gmarking w)) as [->|Hne]; [done|].
  rewrite Hh2; [|lia..]. by rewrite fn_lookup_insert_ne by lia.
Qed.
End Neutral.

Lemma neutral_withLocals {L L' A} (init : L') (c : M L' A) :
  neutral c → neutral (withLocals init c : M L A).
Proof.
  intros Hc w w' a Hv. unfold withLocals.
  destruct (c _) as [w1 r] eqn:E. intros [= <- ->].
  by destruct (Hc _ w1 a (Hv : valid (mkWorld _ _ _ init)) E)
    as (Hv1 & Hn1 & Hg1 & Hh1).
Qed.

#[local] Hint Resolve neutral_mret neutral_throw neutral_outOfFuel
  neutral_readMarking neutral_getLocals neutral_setLocals : tidy.

(** Splits a composed computation into its statements. *)
Ltac neutral_step :=
  match goal with
  | |- neutral (_ ≫= _) => apply neutral_bind; [|intros ?]
  | |- neutral (forOf _ _ _) => apply neutral_forOf; intros ? ?
  | |- neutral (if ?b then _ else _) => destruct b
  | |- neutral (match ?x with _ => _ end) => destruct x
  | |- neutral _ => solve [auto with tidy]
  end.

Lemma neutral_setMaxCost c : neutral (setMaxCost c).
Proof. unfold setMaxCost. repeat neutral_step. Qed.

Lemma neutral_move graph context alignCost toDepth pruning oracleFuel
  fuel event trace curCost curDepth :
  neutral (newGraphEnv (onMarking (execute event graph);;
             alignTraceLabel graph context alignCost toDepth pruning
               oracleFuel fuel standardKeys trace curCost curDepth)).
Proof.
  apply neutral_newGraphEnv, tidy_bind; [apply tidy_onMarking|].
  intros _. apply tidy_alignTraceLabel.
Qed.

Lemma neutral_alignTraceLabel graph context alignCost toDepth pruning oracleFuel :
  ∀ fuel keys trace curCost curDepth,
    neutral (alignTraceLabel graph context alignCost toDepth pruning oracleFuel
               fuel keys trace curCost curDepth).
Proof.
  pose proof neutral_setMaxCost as Hmax.
  pose proof (neutral_move graph context alignCost toDepth pruning oracleFuel)
    as Hmove.
  induction fuel as [|fuel IH]; intros keys trace curCost curDepth; simpl.
  - apply neutral_outOfFuel.
  - repeat neutral_step.
Qed.

Lemma neutral_align {L} graph context alignCost toDepth pruning oracleFuel
  fuel keys trace :
  neutral (align (L:=L) graph context alignCost toDepth pruning oracleFuel
             fuel keys trace).
Proof.
  pose proof neutral_setMaxCost as Hmax.
  pose proof (neutral_alignTraceLabel graph context alignCost toDepth pruning
                oracleFuel) as Hrec.
  unfold align. apply neutral_withLocals. unfold initialBound.
  repeat neutral_step.
Qed.

(** X14.  An alignment is computed without a lasting effect on the graph:
    when [align] returns, [graph.marking] refers to the marking object it
    referred to before the call, that object and every other marking object
    are as they were, and so are the variables of the caller. *)
Theorem align_leaves_marking {L} graph context alignCost toDepth pruning
  oracleFuel fuel keys trace (w w' : World L) (alignment : Alignment) :
  valid w →
  align graph context alignCost toDepth pruning oracleFuel fuel keys trace w
  = (w', Normal alignment) →
  gmarking w' = gmarking w ∧ currentMarking w' = currentMarking w
  ∧ locals w' = locals w
  ∧ ∀ l, (l < next w)%nat → heap w' l = heap w l.
Proof.
  intros Hv Hrun.
  destruct (neutral_align graph context alignCost toDepth pruning oracleFuel
              fuel keys trace w w' alignment Hv Hrun) as (_ & _ & Hg & Hh).
  split_and!; [done| |  |done].
  - unfold currentMarking. rewrite Hg. apply Hh, Hv.
  - unfold align, withLocals in Hrun.
    destruct (_ ≫= _) as [w1 r] in Hrun. by injection Hrun as <- _.
Qed.

Lemma align_leaves_marking_witness :
  gmarking (align conditionGraph [] unitCost (Num 5) false 5 6 standardKeys ["B"]
              (initWorld (allIncluded ["A"; "B"]) tt)).1
  = gmarking (initWorld (allIncluded ["A"; "B"]) tt)
  ∧ currentMarking (align conditionGraph [] unitCost (Num 5) false 5 6 standardKeys ["B"]
                      (initWorld (allIncluded ["A"; "B"]) tt)).1
    = currentMarking (initWorld (allIncluded ["A"; "B"]) tt)
  ∧ locals (align conditionGraph [] unitCost (Num 5) false 5 6 standardKeys ["B"]
              (initWorld (allIncluded ["A"; "B"]) tt)).1
    = locals (initWorld (allIncluded ["A"; "B"]) tt)
  ∧ ∀ l, (l < next (initWorld (allIncluded ["A"; "B"]) tt))%nat →
         heap (align conditionGraph [] unitCost (Num 5) false 5 6 standardKeys ["B"]
                 (initWorld (allIncluded ["A"; "B"]) tt)).1 l
         = heap (initWorld (allIncluded ["A"; "B"]) tt) l.
Proof.
  apply (align_leaves_marking conditionGraph [] unitCost (Num 5) false 5 6
           standardKeys ["B"] (initWorld (allIncluded ["A"; "B"]) tt) _
           {| cost := Num 1; trace := [] |}).
  - unfold valid. simpl. lia.
  - apply run_result. vm_compute. reflexivity.
Defined.

Section AlignEdges.
Context {L : Type}.
Variables (graph : LabelDCRPP) (context : list Label) (alignCost : CostFun)
          (pruning : bool) (oracleFuel : nat).

Lemma alignState_reset (l : list nat) (st : gmap nat (gmap string number))
  (k : nat) :
  k ∈ l ∨ st !! k = Some ∅ →
  foldl (λ st i, <[i := ∅]> st) st l !! k = Some ∅.
Proof.
  revert st. induction l as [|i l IH]; intros st [Hin|Hst]; simpl.
  - by apply elem_of_nil in Hin.
  - done.
  - apply IH. apply elem_of_cons in Hin as [->|Hin]; [|by left].
    right. apply lookup_insert_eq.
  - apply IH. right. destruct (decide (i = k)) as [->|Hne].
    + apply lookup_insert_eq.
    + by rewrite lookup_insert_ne.
Qed.

(** X15.  A depth limit is also used as the first value of [maxCost], the
    bound on the cost: with a limit of zero or less the search is abandoned
    before it looks at the marking, and [align] returns the alignment of
    cost [Infinity] for every graph and every trace, the empty trace in an
    accepting marking included. *)
Theorem align_depth_limit_zero (d : Z) (fuel : nat) (keys : list MarkingKey)
  (trace : Trace) (w : World L) :
  d ≤ 0 →
  align graph context alignCost (Num d) pruning oracleFuel (S fuel) keys trace w
  = (w, Normal noAlignment).
Proof.
  intros Hd. unfold align, withLocals, initialBound.
  simpl. unfold mbind, M_bind, getLocals. simpl.
  rewrite bool_decide_true by lia. simpl. by destruct w.
Qed.

(** X16.  With a depth limit above zero, [align] raises a TypeError on a
    trace whose first label is not a label of the graph: the consume move
    iterates over [graph.labelMapInv[trace[0]]], which is [undefined]. *)
Theorem align_raises_on_unknown_label (d : Z) (fuel : nat)
  (keys : list MarkingKey) (label : Label) (rest : Trace) (w : World L) :
  0 < d → labelMapInv graph !! label = None →
  (align graph context alignCost (Num d) pruning oracleFuel (S fuel) keys
         (label :: rest) w).2
  = Throw TypeError.
Proof.
  intros Hd Hlabel. unfold align, withLocals, initialBound.
  simpl. unfold mbind, M_bind, getLocals, readMarking. simpl.
  rewrite bool_decide_false by lia. simpl.
  rewrite alignState_reset.
  - rewrite lookup_empty, andb_false_r. simpl. by rewrite Hlabel.
  - destruct rest as [|label' rest']; [right; apply lookup_insert_eq|].
    left. apply elem_of_seq. simpl. lia.
Qed.
End AlignEdges.

Lemma align_depth_limit_zero_witness :
  align conditionGraph [] unitCost (Num 0) false 5 1 standardKeys []
        (initWorld (allIncluded ["A"; "B"]) tt)
  = (initWorld (allIncluded ["A"; "B"]) tt, Normal noAlignment).
Proof. apply align_depth_limit_zero. lia. Defined.

Lemma align_raises_on_unknown_label_witness :
  (align conditionGraph [] unitCost (Num 3) false 5 1 standardKeys ["C"; "A"]
         (initWorld (allIncluded ["A"; "B"]) tt)).2
  = Throw TypeError.
Proof. apply align_raises_on_unknown_label; [lia | reflexivity]. Defined.

(** ** The cost bound of the search *)

Section NumberOrder.
Implicit Types (x y z : number).

Lemma ge_false_le_lt c y z :
  JS.ge (Num c) y = false → JS.le y z = true → JS.lt (Num c) z = true.
Proof.
  unfold JS.ge. destruct y as [a| |], z as [b| |]; simpl; try done.
  intros H1 H2. apply bool_decide_eq_false in H1.
  apply bool_decide_eq_true in H2. apply bool_decide_eq_true. lia.
Qed.

Lemma lt_is_number x y : JS.lt x y = true → ∃ c, x = Num c.
Proof. destruct x as [a| |], y; simpl; try done; eauto. Qed.

Lemma lt_le x y : JS.lt x y = true → JS.le x y = true.
Proof.
  destruct x as [a| |], y as [b| |]; simpl; try done.
  intros H. apply bool_decide_eq_true in H. apply bool_decide_eq_true. lia.
Qed.

Lemma lt_not_ge x y : JS.lt x y = true → JS.ge x y = false.
Proof.
  unfold JS.ge. destruct x as [a| |], y as [b| |]; simpl; try done.
  intros H. apply bool_decide_eq_true in H. apply bool_decide_eq_false. lia.
Qed.

Lemma le_refl x : x ≠ NaN → JS.le x x = true.
Proof.
  destruct x as [a| |]; simpl; try done. intros _.
  apply bool_decide_eq_true. lia.
Qed.
End NumberOrder.

Section Keeps.
Variable mc : number.

Lemma keeps_mret {A} (a : A) (Q : A → Prop) : Q a → keeps mc (mret a) Q.
Proof. intros HQ w w' a' Hw [= <- <-]. by split. Qed.

Lemma keeps_throw {A} e (Q : A → Prop) : keeps mc (throw e) Q.
Proof. by intros w w' a Hw. Qed.

Lemma keeps_outOfFuel {A} (Q : A → Prop) : keeps mc outOfFuel Q.
Proof. by intros w w' a Hw. Qed.

Lemma keeps_readMarking {A} (f : Marking → completion A) :
  keeps mc (readMarking f) (λ _, True).
Proof. intros w w' a Hw. unfold readMarking. by intros [= <- _]. Qed.

Lemma keeps_onMarking {A} (f : Marking → Marking * completion A) :
  keeps mc (onMarking f) (λ _, True).
Proof.
  intros w w' a Hw. unfold onMarking.
  destruct (f (currentMarking w)) as [m' c]. by intros [= <- _].
Qed.

Lemma keeps_getLocals : keeps mc getLocals (boundedBy mc).
Proof. intros w w' a Hw [= <- <-]. by split. Qed.

Lemma keeps_setLocals vars :
  boundedBy mc vars → keeps mc (setLocals vars) (λ _, True).
Proof. intros Hvars w w' a Hw [= <- _]. by split. Qed.

Lemma keeps_bind {A B} (c : M AlignVars A) (k : A → M AlignVars B)
  (Q1 : A → Prop) (Q2 : B → Prop) :
  keeps mc c Q1 → (∀ a, Q1 a → keeps mc (k a) Q2) → keeps mc (c ≫= k) Q2.
Proof.
  intros Hc Hk w w' b Hw. unfold mbind, M_bind.
  destruct (c w) as [w1 [a|e|]] eqn:E; [|done..].
  destruct (Hc w w1 a Hw E) as [Hw1 Ha]. by apply Hk.
Qed.

Lemma keeps_forOf {S B} (l : list B) (body : S → B → M AlignVars S)
  (Q : S → Prop) :
  (∀ s x, Q s → keeps mc (body s x) Q) →
  ∀ s, Q s → keeps mc (forOf l s body) Q.
Proof.
  intros Hbody. induction l as [|x l IH]; intros s Hs; simpl.
  - by apply keeps_mret.
  - eapply keeps_bind; [by apply Hbody|]. intros s'. apply IH.
Qed.

Lemma keeps_newGraphEnv {A} (fn : M AlignVars A) (Q : A → Prop) :
  keeps mc fn Q → keeps mc (newGraphEnv fn) Q.
Proof.
  intros Hfn w w' a Hw. rewrite newGraphEnv_unfold.
  destruct (fn (scratchWorld w)) as [w2 [v|e|]] eqn:E; [|done..].
  intros [= <- <-]. by apply (Hfn (scratchWorld w) w2 v).
Qed.

Lemma keeps_setMaxCost c :
  JS.le c mc = true → keeps mc (setMaxCost c) (λ _, True).
Proof.
  intros Hc w w' a Hw. unfold setMaxCost, mbind, M_bind, getLocals, setLocals.
  intros [= <- _]. split; [|done]. exists c. by split.
Qed.

Lemma below_noAlignment : below mc noAlignment.
Proof. by intros c. Qed.

(** The update of [bestAlignment] that follows each of the three moves. *)
Lemma keeps_update (alignment best : Alignment) (fired : list Event) :
  below mc alignment → below mc best →
  keeps mc (if JS.lt (cost alignment) (cost best)
            then setMaxCost (cost alignment);;
                 mret {| cost := cost alignment; trace := fired |}
            else mret best)
        (below mc).
Proof.
  intros Ha Hb. destruct (JS.lt _ _) eqn:Hlt; [|by apply keeps_mret].
  eapply keeps_bind.
  - apply keeps_setMaxCost. destruct (lt_is_number _ _ Hlt) as [c Hc].
    rewrite Hc. apply lt_le, Ha, Hc.
  - intros _ _. apply keeps_mret. exact Ha.
Qed.
End Keeps.

Section Bound.
Variables (graph : LabelDCRPP) (context : list Label) (alignCost : CostFun)
          (toDepth : number) (pruning : bool) (oracleFuel : nat).

Lemma keeps_alignTraceLabel mc :
  ∀ fuel keys trace curCost curDepth,
    keeps mc (alignTraceLabel graph context alignCost toDepth pruning
                oracleFuel fuel keys trace curCost curDepth)
          (below mc).
Proof.
  induction fuel as [|fuel IH]; intros keys trace curCost curDepth; simpl.
  { apply keeps_outOfFuel. }
  assert (∀ event tr c d,
            keeps mc (newGraphEnv (onMarking (execute event graph);;
                        alignTraceLabel graph context alignCost toDepth pruning
                          oracleFuel fuel standardKeys tr c d)) (below mc)) as Hmove.
  { intros event tr c d. apply keeps_newGraphEnv.
    eapply keeps_bind; [apply keeps_onMarking|]. intros _ _. apply IH. }
  eapply keeps_bind; [apply keeps_getLocals|].
  intros vars (m & Hm & Hle). rewrite Hm.
  destruct (JS.ge curCost m) eqn:Hge;
    [apply keeps_mret, below_noAlignment|].
  destruct (JS.ge curDepth toDepth);
    [apply keeps_mret, below_noAlignment|].
  eapply keeps_bind; [apply keeps_readMarking|]. intros stateStr _.
  destruct (alignState vars !! length trace) as [visited|];
    [|apply keeps_throw].
  match goal with |- keeps _ (if ?b then _ else _) _ => destruct b end;
    [apply keeps_mret, below_noAlignment|].
  eapply keeps_bind; [apply keeps_setLocals; by exists m|]. intros _ _.
  eapply keeps_bind; [apply keeps_readMarking|]. intros isAccept _.
  match goal with |- keeps _ (if ?b then _ else _) _ => destruct b end.
  { apply keeps_mret. intros c Hc. simpl in Hc. subst curCost.
    by apply (ge_false_le_lt c m mc). }
  (* Consume *)
  apply keeps_bind with (Q1 := below mc).
  { destruct trace as [|label rest];
      [apply keeps_mret, below_noAlignment|].
    destruct (labelMapInv graph !! label) as [evs|]; [|apply keeps_throw].
    apply keeps_forOf; [|apply below_noAlignment].
    intros best event Hbest.
    eapply keeps_bind; [apply keeps_readMarking|]. intros [|] _;
      [|by apply keeps_mret].
    eapply keeps_bind; [apply Hmove|]. intros alignment Ha.
    by apply keeps_update. }
  intros best Hbest.
  (* Trace-skip *)
  apply keeps_bind with (Q1 := below mc).
  { destruct trace as [|label rest]; [by apply keeps_mret|].
    eapply keeps_bind; [apply IH|]. intros alignment Ha.
    destruct alignment as [c tr].
    exact (keeps_update mc {| cost := c; trace := tr |} best tr Ha Hbest). }
  clear best Hbest. intros best Hbest.
  (* The reachability check *)
  eapply keeps_bind; [apply keeps_getLocals|]. intros vars' _.
  apply keeps_bind with (Q1 := λ _, True).
  { match goal with |- keeps _ (if ?b then _ else _) _ => destruct b end;
      [|by apply keeps_mret].
    destruct trace as [|label rest].
    - eapply keeps_bind; [apply keeps_readMarking|]. intros m0 _.
      apply keeps_forOf; [|done]. intros [|] pEvent _;
        [apply keeps_readMarking | by apply keeps_mret].
    - destruct (labelMapInv graph !! label) as [evs|]; [|apply keeps_throw].
      apply keeps_forOf; [|done]. intros [|] event _;
        [by apply keeps_mret | apply keeps_readMarking]. }
  intros [|] _; simpl; [|apply keeps_mret, below_noAlignment].
  (* Model-skip *)
  eapply keeps_bind; [apply keeps_readMarking|]. intros enabled _.
  apply keeps_forOf; [|done]. intros best' event Hbest'.
  eapply keeps_bind; [apply Hmove|]. intros alignment Ha.
  by apply keeps_update.
Qed.

(** X17.  The first value of [maxCost] bounds what [align] can return: an
    alignment whose cost is a number costs strictly less than that first
    value, so [align] never returns an alignment that costs as much as the
    bound it starts from, or more. *)
Theorem align_cost_below_initial_bound {L} (fuel : nat)
  (keys : list MarkingKey) (trace : Trace) (w w1 w' : World L) (bound : number) (alignment : Alignment) (c : Z) :
  withLocals {| maxCost := None; alignState := {[ 0%nat := ∅ ]} |}
    (initialBound graph context alignCost toDepth pruning oracleFuel fuel
                  keys trace)
    w
  = (w1, Normal bound) →
  align graph context alignCost toDepth pruning oracleFuel fuel keys trace w
  = (w', Normal alignment) →
  cost alignment = Num c →
  JS.ge (Num c) bound = false.
Proof.
  intros Hbound Hrun Hcost.
  destruct (decide (bound = NaN)) as [->|Hnan]; [done|].
  apply lt_not_ge. revert c Hcost. change (below bound alignment).
  unfold align, withLocals in *.
  match type of Hbound with context [initialBound _ _ _ _ _ _ _ _ _ ?w0] =>
    set (start := w0) in * end.
  unfold mbind at 1, M_bind at 1 in Hrun.
  destruct (initialBound _ _ _ _ _ _ _ _ _ start) as [w2 r] eqn:E.
  injection Hbound as _ ->.
  match type of Hrun with context [(?c ≫= ?k) w2] =>
    pose proof (keeps_bind bound c k (λ _, True) (below bound)) as Hkeeps;
    destruct ((c ≫= k) w2) as [w3 r3] eqn:E3
  end.
  injection Hrun as _ ->.
  unfold mbind at 1, M_bind at 1 in E3.
  unfold setMaxCost at 1, mbind at 1, M_bind at 1, getLocals at 1,
    setLocals at 1 in E3.
  match type of E3 with ?k ?a ?w4 = _ =>
    assert (keeps bound (k a) (below bound)) as Hrest;
    [| apply (Hrest w4 w3 alignment); [|exact E3] ]
  end.
  - eapply keeps_bind; [apply keeps_getLocals|].
    intros vars (m & Hm & Hle).
    eapply keeps_bind; [apply keeps_setLocals; by exists m|]. intros _ _.
    apply keeps_alignTraceLabel.
  - exists bound. split; [done|]. by apply le_refl.
Qed.
End Bound.

Lemma align_cost_below_initial_bound_witness :
  JS.ge (Num 0) (Num 2) = false.
Proof.
  apply (align_cost_below_initial_bound conditionGraph [] skipCost Infinity
           false 5 8 standardKeys ["A"; "B"]
           (initWorld (allIncluded ["A"; "B"]) tt)
           (withLocals {| maxCost := None; alignState := {[ 0%nat := ∅ ]} |}
              (initialBound conditionGraph [] skipCost Infinity false 5 8
                 standardKeys ["A"; "B"])
              (initWorld (allIncluded ["A"; "B"]) tt)).1
           (align conditionGraph [] skipCost Infinity false 5 8 standardKeys
              ["A"; "B"] (initWorld (allIncluded ["A"; "B"]) tt)).1
           (Num 2) {| cost := Num 0; trace := ["A"; "B"] |} 0).
  - apply run_result. vm_compute. reflexivity.
  - apply run_result. vm_compute. reflexivity.
  - reflexivity.
Defined.

(** ** Replay and the violation quantifier, continued *)

Section Runs.
Context {L : Type}.

Lemma bind_normal {A B} (c : M L A) (k : A → M L B) (w w' : World L) (b : B) :
  (c ≫= k) w = (w', Normal b) →
  ∃ w1 a, c w = (w1, Normal a) ∧ k a w1 = (w', Normal b).
Proof.
  unfold mbind, M_bind. destruct (c w) as [w1 [a|e|]]; [|done..]. eauto.
Qed.

Lemma forOf_invariant {S B} (I : World L → Prop) (l : list B)
  (body : S → B → M L S) :
  (∀ s x w w' s', I w → body s x w = (w', Normal s') → I w') →
  ∀ s w w' s', I w → forOf l s body w = (w', Normal s') → I w'.
Proof.
  intros Hbody. induction l as [|x l IH]; intros s w w' s' Hw; simpl.
  - by intros [= <- _].
  - intros (w1 & s1 & H1 & H2)%bind_normal. eauto.
Qed.

Lemma resetMarking_normal (init : Marking) (w w' : World L) u :
  resetMarking init w = (w', Normal u) → currentMarking w' = copyMarking init.
Proof.
  unfold resetMarking, mbind, M_bind, alloc, setRef, currentMarking.
  intros [= <- _]. simpl. by rewrite fn_lookup_insert.
Qed.
End Runs.

Lemma copyMarking_idemp (m : Marking) : copyMarking (copyMarking m) = copyMarking m.
Proof.
  unfold copyMarking, copySet. simpl.
  by rewrite !(JSSetFacts.new_Set_NoDup_id (JSSet.new_Set _))
    by apply JSSetFacts.NoDup_new_Set.
Qed.

Lemma sameSets_copyMarking (m : Marking) : sameSets (copyMarking m) m.
Proof.
  unfold sameSets, copyMarking, copySet. simpl.
  split_and!; intros x; apply JSSetFacts.elem_of_new_Set.
Qed.

Section ConformanceMore.
Context {SubProcess : Type}.
Variable isAcceptingS : DCRGraphS (SubProcess:=SubProcess) → Marking → bool.
Variable isEnabledS :
  Event → DCRGraphS (SubProcess:=SubProcess) → option SubProcess → Marking → bool.
Variable executeS :
  Event → DCRGraphS (SubProcess:=SubProcess) → Marking → Marking * completion unit.
Implicit Types (graph : DCRGraphS (SubProcess:=SubProcess)) (w : World unit).

(** X18.  The open-world rule holds for the whole trace: the replay of a
    trace is the replay of its tokens whose activity is a label of the
    graph, wherever in the trace the other tokens stand. *)
Theorem replayTraceS_open_world graph (trace : RoleTrace) :
  replayTraceS isAcceptingS isEnabledS executeS graph
    (knownTokens (labels graph) trace)
  = replayTraceS isAcceptingS isEnabledS executeS graph trace.
Proof.
  induction trace as [|head tail IH]; [done|].
  simpl. destruct (JSSet.has (labels graph) (activity head)) eqn:Hhas; simpl.
  - rewrite Hhas. simpl. by rewrite IH.
  - exact IH.
Qed.

(** X19.  When no event that carries the activity of the first token has
    the role of the token, the replay rejects the trace at once: it returns
    false and leaves the graph alone, whatever tokens follow. *)
Theorem replayTraceS_unmatched_role graph (head : RoleEvent)
  (tail : RoleTrace) (evs : EventSet) w :
  activity head ∈ labels graph →
  labelMapInv graph !! activity head = Some evs →
  Forall (λ e, roleMap graph !! e ≠ Some (role head)) evs →
  replayTraceS isAcceptingS isEnabledS executeS graph (head :: tail) w
  = (w, Normal false).
Proof.
  intros Hlabel Hevs Hrole. simpl.
  apply JSSetFacts.has_true in Hlabel. rewrite Hlabel. simpl.
  rewrite Hevs. unfold mbind at 1, M_bind at 1. simpl.
  rewrite forOf_skip; [done|].
  intros e w' He. apply (proj1 (Forall_forall _ _) Hrole) in He.
  by rewrite bool_decide_false.
Qed.

Lemma replayTraceS_isCopyOf graph (trace : RoleTrace) :
  ∀ w w' b,
    replayTraceS isAcceptingS isEnabledS executeS graph trace w
    = (w', Normal b) →
    isCopyOf (currentMarking w) w'.
Proof.
  induction trace as [|head tail IH]; intros w w' b; simpl.
  { unfold readMarking. intros [= <- _]. by left. }
  destruct (negb _); [apply IH|].
  intros (w1 & m & [= <- <-] & Hrun)%bind_normal.
  destruct (labelMapInv graph !! activity head) as [evs|]; [|done].
  revert Hrun.
  apply (forOf_invariant (isCopyOf (currentMarking w))); [|by left].
  clear. intros retval event w1 w2 retval' Hw1.
  destruct (negb _); [by intros [= <- _]|].
  intros (w3 & enabled & [= <- <-] & Hrun)%bind_normal.
  destruct (isEnabledS _ _ _ _); [|by injection Hrun as <- _].
  apply bind_normal in Hrun as (w4 & u & _ & Hrun).
  apply bind_normal in Hrun as (w5 & r & _ & Hrun).
  apply bind_normal in Hrun as (w6 & u' & Hreset & [= <- _]).
  right. apply resetMarking_normal in Hreset.
  by rewrite Hreset, copyMarking_idemp.
Qed.

(** X20.  When the replay returns, the marking of the graph holds the sets
    it held before: it is the marking object as it was, or a copy of it
    (the replay does not put the object back, it installs copies). *)
Theorem replayTraceS_restores_sets graph (trace : RoleTrace) w w' (b : bool) :
  replayTraceS isAcceptingS isEnabledS executeS graph trace w
  = (w', Normal b) →
  isCopyOf (currentMarking w) w'
  ∧ sameSets (currentMarking w') (currentMarking w).
Proof.
  intros Hrun. pose proof (replayTraceS_isCopyOf _ _ _ _ _ Hrun) as Hcopy.
  split; [done|]. destruct Hcopy as [->| ->].
  - apply sameSets_refl.
  - apply sameSets_copyMarking.
Qed.

Lemma quantifyRec_isCopyOf excludesFor responseFor graph (trace : RoleTrace) :
  ∀ exSinceIn exSinceEx w w' q,
    quantifyRec executeS excludesFor responseFor graph trace
      exSinceIn exSinceEx w
    = (w', Normal q) →
    isCopyOf (currentMarking w) w'.
Proof.
  destruct trace as [|head tail]; intros exSinceIn exSinceEx w w' q; simpl.
  { intros (w1 & [rel n] & Hread & [= <- _])%bind_normal.
    unfold readMarking in Hread. injection Hread as <- _. by left. }
  intros (w1 & m & [= <- <-] & Hrun)%bind_normal.
  destruct (labelMapInv graph !! activity head) as [evs|]; [|done].
  apply bind_normal in Hrun as (w2 & best & _ & Hrun).
  apply bind_normal in Hrun as (w3 & u & Hreset & [= <- _]).
  right. apply resetMarking_normal in Hreset.
  by rewrite Hreset, copyMarking_idemp.
Qed.

(** X21.  When the quantifier returns, the marking of the graph holds the
    sets it held before; after a trace that is not empty it is always a
    fresh copy. *)
Theorem quantifyViolations_restores_sets graph (trace : RoleTrace) w w'
  (q : Quantified) :
  quantifyViolations executeS graph trace w = (w', Normal q) →
  isCopyOf (currentMarking w) w'
  ∧ sameSets (currentMarking w') (currentMarking w)
  ∧ (trace ≠ [] → currentMarking w' = copyMarking (currentMarking w)).
Proof.
  unfold quantifyViolations.
  destruct (reverseRelation (excludesTo graph)) as [ef|e|]; [|done..].
  destruct (reverseRelation (responseTo graph)) as [rf|e|]; [|done..].
  intros Hrun.
  pose proof (quantifyRec_isCopyOf _ _ _ _ _ _ _ _ _ Hrun) as Hcopy.
  split_and!; [done| |].
  - destruct Hcopy as [->| ->];
      [apply sameSets_refl | apply sameSets_copyMarking].
  - intros Hne. destruct trace as [|head tail]; [done|]. simpl in Hrun.
    apply bind_normal in Hrun as (w1 & m & [= <- <-] & Hrun).
    destruct (labelMapInv graph !! activity head) as [evs|]; [|done].
    apply bind_normal in Hrun as (w2 & best & _ & Hrun).
    apply bind_normal in Hrun as (w3 & u & Hreset & [= <- _]).
    apply resetMarking_normal in Hreset.
    by rewrite Hreset, copyMarking_idemp.
Qed.
End ConformanceMore.

Lemma replayTraceS_unmatched_role_witness :
  replayTraceS specIsAcceptingS specIsEnabledS specExecuteS
    (flat conditionGraph) [ {| role := "q"; activity := "A" |}; by_r "B" ]
    (initWorld (allIncluded ["A"; "B"]) tt)
  = (initWorld (allIncluded ["A"; "B"]) tt, Normal false).
Proof.
  apply (replayTraceS_unmatched_role _ _ _ (flat conditionGraph)
           {| role := "q"; activity := "A" |} _ ["A"]).
  - apply (bool_decide_unpack _). vm_compute. exact I.
  - vm_compute. reflexivity.
  - apply (bool_decide_unpack _). vm_compute. exact I.
Defined.

Lemma replayTraceS_restores_sets_witness :
  isCopyOf (allIncluded ["A"; "B"])
    (replayTraceS specIsAcceptingS specIsEnabledS specExecuteS
       (flat conditionGraph) [by_r "A"; by_r "B"]
       (initWorld (allIncluded ["A"; "B"]) tt)).1
  ∧ sameSets
      (currentMarking
         (replayTraceS specIsAcceptingS specIsEnabledS specExecuteS
            (flat conditionGraph) [by_r "A"; by_r "B"]
            (initWorld (allIncluded ["A"; "B"]) tt)).1)
      (allIncluded ["A"; "B"]).
Proof.
  apply (replayTraceS_restores_sets specIsAcceptingS specIsEnabledS
           specExecuteS (flat conditionGraph) [by_r "A"; by_r "B"]
           (initWorld (allIncluded ["A"; "B"]) tt) _ true).
  apply run_result. vm_compute. reflexivity.
Defined.

Lemma quantifyViolations_restores_sets_witness :
  isCopyOf (allIncluded ["A"; "B"])
    (quantifyViolations specExecuteS (flat conditionGraph) [by_r "B"]
       (initWorld (allIncluded ["A"; "B"]) tt)).1
  ∧ sameSets
      (currentMarking
         (quantifyViolations specExecuteS (flat conditionGraph) [by_r "B"]
            (initWorld (allIncluded ["A"; "B"]) tt)).1)
      (allIncluded ["A"; "B"])
  ∧ ([by_r "B"] ≠ [] →
     currentMarking
       (quantifyViolations specExecuteS (flat conditionGraph) [by_r "B"]
          (initWorld (allIncluded ["A"; "B"]) tt)).1
     = copyMarking (allIncluded ["A"; "B"])).
Proof.
  eapply (quantifyViolations_restores_sets specExecuteS (flat conditionGraph)
            [by_r "B"] (initWorld (allIncluded ["A"; "B"]) tt)).
  apply run_result. vm_compute. reflexivity.
Defined.

(** ** The violation tables *)

Section Tables.
Implicit Types (a b e : Event) (events : EventSet) (rel : EventMap).

Lemma foldl_ext {S B} (f g : S → B → S) (l : list B) (s : S) :
  (∀ s x, f s x = g s x) → foldl f s l = foldl g s l.
Proof.
  intros Hfg. revert s. induction l as [|x l IH]; intros s; [done|].
  simpl. by rewrite Hfg, IH.
Qed.

Lemma foldl_update_lookup {V W} (g : V → option W → W) (l : list (Event * V))
  (acc : gmap Event W) k :
  NoDup l.*1 →
  foldl (λ acc '(k', v), <[k' := g v (acc !! k')]> acc) acc l !! k
  = match (list_to_map l : gmap Event V) !! k with
    | Some v => Some (g v (acc !! k))
    | None => acc !! k
    end.
Proof.
  revert acc. induction l as [|[k' v] l IH]; intros acc Hnd; simpl; [done|].
  apply NoDup_cons in Hnd as [Hk' Hnd]. rewrite IH by done.
  destruct (decide (k' = k)) as [->|Hne].
  - assert ((list_to_map l : gmap Event V) !! k = None) as ->
      by by apply not_elem_of_list_to_map_1.
    by rewrite !lookup_insert_eq.
  - by rewrite !lookup_insert_ne.
Qed.

Lemma foldl_update_map_lookup {V W} (g : V → option W → W) (m : gmap Event V)
  (acc : gmap Event W) k :
  foldl (λ acc '(k', v), <[k' := g v (acc !! k')]> acc) acc (map_to_list m) !! k
  = match m !! k with
    | Some v => Some (g v (acc !! k))
    | None => acc !! k
    end.
Proof.
  rewrite foldl_update_lookup by apply NoDup_fst_map_to_list.
  by rewrite list_to_map_to_list.
Qed.

Lemma mergeFuzRels_lookup (viols1 viols2 : FuzzyRelation) a :
  mergeFuzRels viols1 viols2 !! a
  = match viols2 !! a with
    | Some row2 =>
      Some match viols1 !! a with
           | Some row1 =>
             foldl (λ acc '(key, value),
                      <[key := JS.plus (orZero (acc !! key)) value]> acc)
                   row1 (map_to_list row2)
           | None => row2
           end
    | None => viols1 !! a
    end.
Proof.
  unfold mergeFuzRels.
  set (mergeRow := λ (row2 : gmap Event number) (o : option (gmap Event number)),
         match o with
         | Some row1 =>
           foldl (λ acc '(key, value),
                    <[key := JS.plus (orZero (acc !! key)) value]> acc)
                 row1 (map_to_list row2)
         | None => row2
         end).
  rewrite (foldl_ext _ (λ retval '(e1, row2),
                          <[e1 := mergeRow row2 (retval !! e1)]> retval)).
  2: { intros retval [e1 row2]. unfold mergeRow. by destruct (retval !! e1). }
  by rewrite (foldl_update_map_lookup mergeRow).
Qed.

Lemma mergeRow_lookup (row1 row2 : gmap Event number) b :
  foldl (λ acc '(key, value),
           <[key := JS.plus (orZero (acc !! key)) value]> acc)
        row1 (map_to_list row2) !! b
  = match row2 !! b with
    | Some y => Some (JS.plus (orZero (row1 !! b)) y)
    | None => row1 !! b
    end.
Proof.
  apply (foldl_update_map_lookup
           (λ (value : number) (o : option number), JS.plus (orZero o) value)).
Qed.

(** X22.  On a second table with no row and no cell named after a member of
    [Object.prototype], [mergeFuzRels] adds the two tables cell by cell: a
    cell of the second table is added to the cell of the first (counted as 0
    when it is missing or not a number), and a cell that only the first
    table has is kept.  The two branches of the code, for a row that the
    first table has and for one that it lacks, agree on this; and when the
    first table has no such name either, neither has the merged one. *)
Theorem mergeFuzRels_cell (viols1 viols2 : FuzzyRelation) a b :
  plainTable viols2 →
  cell (mergeFuzRels viols1 viols2) a b
  = match cell viols2 a b with
    | Some y => Some (JS.plus (orZero (cell viols1 a b)) y)
    | None => cell viols1 a b
    end
  ∧ (plainTable viols1 → plainTable (mergeFuzRels viols1 viols2)).
Proof.
  intros Hplain2. split.
  - unfold cell. rewrite mergeFuzRels_lookup.
    destruct (viols2 !! a) as [r2|] eqn:H2; simpl; [|by destruct (viols1 !! a)].
    destruct (viols1 !! a) as [r1|] eqn:H1; simpl.
    + rewrite mergeRow_lookup. by destruct (r2 !! b).
    + destruct (r2 !! b) as [y|]; [|done]. simpl. by destruct y.
  - intros Hplain1 e1 row Hrow. rewrite mergeFuzRels_lookup in Hrow.
    destruct (viols2 !! e1) as [r2|] eqn:H2; simpl in Hrow;
      [|exact (Hplain1 e1 row Hrow)].
    destruct (Hplain2 e1 r2 H2) as [He1 Hr2]. split; [done|].
    injection Hrow as <-.
    destruct (viols1 !! e1) as [r1|] eqn:H1; [|done].
    destruct (Hplain1 e1 r1 H1) as [_ Hr1].
    intros key value Hkey. rewrite mergeRow_lookup in Hkey.
    destruct (r2 !! key) as [y|] eqn:Hy.
    + exact (Hr2 key y Hy).
    + exact (Hr1 key value Hkey).
Qed.

Lemma mergeFuzRels_cell_witness :
  let viols1 : FuzzyRelation := {["A" := {["A" := Num 1; "B" := Num 0]}]} in
  let viols2 : FuzzyRelation :=
    {["A" := {["B" := Num 2]}; "B" := {["A" := Num 1]}]} in
  cell (mergeFuzRels viols1 viols2) "A" "B"
  = match cell viols2 "A" "B" with
    | Some y => Some (JS.plus (orZero (cell viols1 "A" "B")) y)
    | None => cell viols1 "A" "B"
    end
  ∧ (plainTable viols1 → plainTable (mergeFuzRels viols1 viols2)).
Proof.
  apply mergeFuzRels_cell.
  apply (bool_decide_unpack _). vm_compute. exact I.
Defined.

Lemma zeroRow_lookup events (h : Event → number) b :
  foldl (λ row event2, <[event2 := h event2]> row) (∅ : gmap Event number)
        events !! b
  = if bool_decide (b ∈ events) then Some (h b) else None.
Proof. by rewrite (foldl_insert_keys_lookup h), lookup_empty. Qed.

(** The row that [computeActivations] gives an event, when it gives one. *)
Lemma computeActivations_loop e events rel (l : EventSet)
    (retval : FuzzyRelation) :
  let zeros := foldl (λ row event2, <[event2 := Num 0]> row) ∅ events in
  let row := λ event,
    if bool_decide (event = e) then
      match rel !! event with
      | Some targets =>
        foldl (λ row event2, <[event2 := if JSSet.has targets event2
                                         then Num 1 else Num 0]> row) ∅ events
      | None => zeros
      end
    else zeros in
  foldl (λ acc event,
           match acc with
           | Normal retval =>
             if bool_decide (event = e) then
               match getProp rel event with
               | Own targets =>
                 Normal (<[event :=
                            foldl (λ row event2,
                                     <[event2 := if JSSet.has targets event2
                                                 then Num 1 else Num 0]> row)
                                  ∅ events]> retval)
               | Inherited => Throw TypeError
               | Missing => Normal (<[event := zeros]> retval)
               end
             else Normal (<[event := zeros]> retval)
           | c => c
           end)
        (Normal retval) l
  = if bool_decide (e ∈ l ∧ rel !! e = None ∧ inherited e = true)
    then Throw TypeError
    else Normal (foldl (λ retval event, <[event := row event]> retval) retval l).
Proof.
  intros zeros row. revert retval.
  induction l as [|event l IH]; intros retval.
  { cbn [foldl]. rewrite bool_decide_false; [done|].
    by intros [[]%elem_of_nil _]. }
  cbn [foldl]. unfold row at 2.
  destruct (decide (event = e)) as [->|Hne].
  - rewrite !(bool_decide_true (e = e)) by done.
    assert (getProp rel e
            = match rel !! e with
              | Some v => Own v
              | None => if inherited e then Inherited else Missing
              end) as -> by done.
    destruct (rel !! e) as [targets|] eqn:Hrel;
      [|destruct (inherited e) eqn:Hin].
    + rewrite IH.
      rewrite !(bool_decide_false (_ ∧ _)); [done|..]; by intros (_ & ? & _).
    + rewrite bool_decide_true by (split; [left|done]).
      clear. induction l as [|x l IHl]; [done|]. by simpl.
    + rewrite IH.
      rewrite !(bool_decide_false (_ ∧ _)); [done|..]; by intros (_ & _ & ?).
  - rewrite !(bool_decide_false (event = e)) by done. rewrite IH.
    destruct (decide (e ∈ l ∧ rel !! e = None ∧ inherited e = true))
      as [Hraise|Hnot].
    + rewrite (bool_decide_true _ Hraise). rewrite bool_decide_true; [done|].
      destruct Hraise as [? ?]. split; [by right|done].
    + rewrite (bool_decide_false _ Hnot). rewrite bool_decide_false; [done|].
      intros [[?|?]%elem_of_cons ?]; [congruence|tauto].
Qed.

(** X23.  For events none of which is named [__proto__]: when the executed
    event is one of the events, has no entry in the relation and is named
    after a member of [Object.prototype], [computeActivations] raises a
    TypeError.  Otherwise it returns a table, and this table and the one of
    [emptyFuzzyRel] have a cell for every pair of events and no other cell.
    In the activations the cell is 1 exactly when the row is that of the
    executed event and the column is a target of its entry in the relation;
    every cell of [emptyFuzzyRel] is 0. *)
Theorem computeActivations_cell e events rel a b :
  "__proto__" ∉ events →
  (e ∈ events ∧ rel !! e = None ∧ inherited e = true →
   computeActivations e events rel = Throw TypeError)
  ∧ (¬ (e ∈ events ∧ rel !! e = None ∧ inherited e = true) →
     ∃ table, computeActivations e events rel = Normal table
              ∧ cell table a b
                = if bool_decide (a ∈ events ∧ b ∈ events)
                  then Some (if bool_decide (a = e ∧ b ∈ membersOf rel e)
                             then Num 1 else Num 0)
                  else None)
  ∧ cell (emptyFuzzyRel events) a b
    = (if bool_decide (a ∈ events ∧ b ∈ events) then Some (Num 0) else None).
Proof.
  intros _. unfold computeActivations. rewrite computeActivations_loop.
  split_and!.
  - intros Hraise. by rewrite bool_decide_true.
  - intros Hnot. rewrite bool_decide_false by done.
    eexists. split; [done|]. unfold cell.
    rewrite (foldl_insert_keys_lookup
               (λ event,
                  if bool_decide (event = e) then
                    match rel !! event with
                    | Some targets =>
                      foldl (λ row event2,
                               <[event2 := if JSSet.has targets event2
                                           then Num 1 else Num 0]> row) ∅ events
                    | None => foldl (λ row event2, <[event2 := Num 0]> row) ∅ events
                    end
                  else foldl (λ row event2, <[event2 := Num 0]> row) ∅ events)).
    rewrite lookup_empty.
    destruct (decide (a ∈ events)) as [Ha|Ha].
    2: { rewrite !bool_decide_false; [done|tauto|done]. }
    rewrite (bool_decide_true _ Ha). simpl.
    destruct (decide (b ∈ events)) as [Hb|Hb].
    2: { rewrite (bool_decide_false (_ ∧ _)) by tauto.
         destruct (bool_decide (a = e)); [destruct (rel !! a)|];
           rewrite zeroRow_lookup; by rewrite bool_decide_false. }
    rewrite (bool_decide_true (_ ∧ _)) by tauto.
    unfold membersOf.
    destruct (decide (a = e)) as [->|Hne].
    + rewrite (bool_decide_true (e = e)) by done.
      destruct (rel !! e) as [targets|] eqn:Hrel; simpl.
      * rewrite zeroRow_lookup.
        rewrite bool_decide_true by done. f_equal. unfold JSSet.has.
        destruct (decide (b ∈ targets)).
        -- by rewrite !bool_decide_true by tauto.
        -- by rewrite !bool_decide_false by tauto.
      * rewrite zeroRow_lookup, bool_decide_true by done.
        rewrite (bool_decide_false (_ ∧ _)); [done|].
        intros [_ []%elem_of_nil].
    + rewrite (bool_decide_false (_ ∧ _)) by tauto.
      rewrite (bool_decide_false (a = e)) by done.
      rewrite zeroRow_lookup; by rewrite bool_decide_true.
  - unfold cell, emptyFuzzyRel.
    rewrite (foldl_insert_keys_lookup
               (λ _, foldl (λ row event2, <[event2 := Num 0]> row) ∅ events)).
    rewrite lookup_empty.
    destruct (decide (a ∈ events)) as [Ha|Ha].
    2: { rewrite !bool_decide_false; [done|tauto|done]. }
    rewrite (bool_decide_true _ Ha). simpl. rewrite zeroRow_lookup.
    destruct (decide (b ∈ events)) as [Hb|Hb].
    + by rewrite !bool_decide_true by tauto.
    + by rewrite !bool_decide_false by tauto.
Qed.

Lemma computeActivations_cell_witness :
  let events := ["A"; "toString"] in
  let rel : EventMap := {["A" := ["toString"]]} in
  computeActivations "toString" events rel = Throw TypeError
  ∧ ∃ table,
      computeActivations "A" events rel = Normal table
      ∧ cell table "A" "toString"
        = if bool_decide ("A" ∈ events ∧ "toString" ∈ events)
          then Some (if bool_decide ("A" = "A" ∧ "toString" ∈ membersOf rel "A")
                     then Num 1 else Num 0)
          else None.
Proof.
  split.
  - apply (computeActivations_cell "toString" ["A"; "toString"]
             {["A" := ["toString"]]} "A" "A").
    + apply (bool_decide_unpack _). vm_compute. exact I.
    + split_and!; [apply (bool_decide_unpack _); vm_compute; exact I
                  |reflexivity|reflexivity].
  - apply (computeActivations_cell "A" ["A"; "toString"]
             {["A" := ["toString"]]} "A" "toString").
    + apply (bool_decide_unpack _). vm_compute. exact I.
    + intros (_ & Hnone & _). vm_compute in Hnone. discriminate Hnone.
Defined.
End Tables.

Section QuantifyEmpty.
Context {SubProcess : Type}.
Variable executeS :
  Event → DCRGraphS (SubProcess:=SubProcess) → Marking → Marking * completion unit.
Implicit Types (graph : DCRGraphS (SubProcess:=SubProcess)) (w : World unit).






End QuantifyEmpty.


(** ** Serialisation, continued *)


(** ** The reachability oracle *)

Section FilterLength.
Context {A : Type}.

Lemma filter_length_le (p q : A → bool) (l : list A) :
  (∀ u, p u = true → q u = true) →
  (length (List.filter p l) ≤ length (List.filter q l))%nat.
Proof.
  intros Hpq. induction l as [|u l IH]; simpl; [lia|].
  destruct (p u) eqn:Hp.
  - rewrite (Hpq u Hp). simpl. lia.
  - destruct (q u); simpl; lia.
Qed.

Lemma filter_length_lt (p q : A → bool) (l : list A) (y : A) :
  (∀ u, p u = true → q u = true) → y ∈ l → q y = true → p y = false →
  (length (List.filter p l) < length (List.filter q l))%nat.
Proof.
  intros Hpq Hy Hqy Hpy. induction l as [|u l IH]; simpl;
    [by apply elem_of_nil in Hy|].
  apply elem_of_cons in Hy as [<-|Hy].
  - rewrite Hpy, Hqy. simpl. pose proof (filter_length_le p q l Hpq). lia.
  - specialize (IH Hy). destruct (p u) eqn:Hp.
    + rewrite (Hpq u Hp). simpl. lia.
    + destruct (q u); simpl; lia.
Qed.
End FilterLength.

Lemma absent_le (U S : EventSet) : (absent U S ≤ length U)%nat.
Proof.
  unfold absent. induction U as [|u U IH]; simpl; [lia|].
  destruct (negb _); simpl; lia.
Qed.

(** A cycle set that takes in an event it did not hold has less to grow. *)
Lemma absent_add (U S : EventSet) (y : Event) :
  y ∈ U → JSSet.has S y = false →
  (absent U (JSSet.new_Set (S ++ [y])) < absent U S)%nat.
Proof.
  intros HU Hy. unfold absent. apply (filter_length_lt _ _ U y); [|done| |].
  - intros u Hu. apply negb_true_iff in Hu. apply negb_true_iff.
    apply JSSetFacts.has_false in Hu. apply JSSetFacts.has_false.
    intros Hin. apply Hu, JSSetFacts.elem_of_new_Set, elem_of_app. by left.
  - by rewrite Hy.
  - apply negb_false_iff, JSSetFacts.has_true, JSSetFacts.elem_of_new_Set.
    apply elem_of_app. right. left.
Qed.

Lemma everyOf_settled (l : list Event) (body : Event → completion bool) :
  (∀ x, x ∈ l → body x ≠ OutOfFuel) → everyOf l body ≠ OutOfFuel.
Proof.
  induction l as [|x l IH]; intros Hbody; simpl; [done|].
  pose proof (Hbody x ltac:(left)) as Hx.
  destruct (body x) as [[|]|e|]; try done.
  apply IH. intros y Hy. apply Hbody. by right.
Qed.

Lemma someOf_settled (l : list Event) (body : Event → completion bool) :
  (∀ x, x ∈ l → body x ≠ OutOfFuel) → someOf l body ≠ OutOfFuel.
Proof.
  induction l as [|x l IH]; intros Hbody; simpl; [done|].
  pose proof (Hbody x ltac:(left)) as Hx.
  destruct (body x) as [[|]|e|]; try done.
  apply IH. intros y Hy. apply Hbody. by right.
Qed.

Lemma everyOf_stable (l : list Event) (body body' : Event → completion bool) :
  (∀ x, body x ≠ OutOfFuel → body' x = body x) →
  everyOf l body ≠ OutOfFuel → everyOf l body' = everyOf l body.
Proof.
  intros Hbody. induction l as [|x l IH]; simpl; [done|].
  pose proof (Hbody x) as Hx.
  destruct (body x) as [[|]|e|]; intros Hl; try done;
    rewrite Hx by done; [by apply IH|done|done].
Qed.

Lemma someOf_stable (l : list Event) (body body' : Event → completion bool) :
  (∀ x, body x ≠ OutOfFuel → body' x = body x) →
  someOf l body ≠ OutOfFuel → someOf l body' = someOf l body.
Proof.
  intros Hbody. induction l as [|x l IH]; simpl; [done|].
  pose proof (Hbody x) as Hx.
  destruct (body x) as [[|]|e|]; intros Hl; try done;
    rewrite Hx by done; [done|by apply IH|done].
Qed.

Lemma isEnabled_settled e (graph : DCRGraph) m :
  isEnabled e graph m ≠ OutOfFuel.
Proof.
  unfold isEnabled. destruct (negb _); [done|].
  destruct (conditionsFor graph !! e); [|done]. destruct (existsb _ _); [done|].
  destruct (milestonesFor graph !! e); [|done]. by destruct (existsb _ _).
Qed.

Section OracleRecursion.
Variables (graph : LabelDCRPP) (context : list Label) (m : Marking)
          (exempt : option Event).
Hypothesis Hclosed : oracleClosed graph.


Lemma recur_settled (fuel : nat) :
  ∀ event cycleSets,
    event ∈ (events graph) →
    (cycleMeasure (events graph) cycleSets < fuel)%nat →
    canBeExecutedRecur graph context m exempt fuel event cycleSets ≠ OutOfFuel
    ∧ canBeExcludedRecur graph context m exempt fuel event cycleSets ≠ OutOfFuel
    ∧ canBeIncludedRecur graph context m exempt fuel event cycleSets ≠ OutOfFuel.
Proof.
  destruct Hclosed as (Hc & Hm & Hx & Hi).
  induction fuel as [|fuel IH]; intros event cs HU Hmu; [lia|].
  assert (∀ other, other ∈ (events graph) →
            (if JSSet.has (exec cs) other then Normal false
             else canBeExecutedRecur graph context m exempt fuel other
                    {| excl := excl cs; incl := incl cs;
                       exec := JSSet.new_Set (exec cs ++ [other]) |})
            ≠ OutOfFuel) as Hexec.
  { intros other Ho. destruct (JSSet.has (exec cs) other) eqn:E; [done|].
    apply IH; [done|]. pose proof (absent_add (events graph) (exec cs) other Ho E).
    unfold cycleMeasure in *. simpl. lia. }
  assert (∀ other, other ∈ (events graph) →
            (if JSSet.has (excl cs) other then Normal false
             else canBeExcludedRecur graph context m exempt fuel other
                    {| excl := JSSet.new_Set (excl cs ++ [other]);
                       incl := incl cs; exec := exec cs |})
            ≠ OutOfFuel) as Hexcl.
  { intros other Ho. destruct (JSSet.has (excl cs) other) eqn:E; [done|].
    apply IH; [done|]. pose proof (absent_add (events graph) (excl cs) other Ho E).
    unfold cycleMeasure in *. simpl. lia. }
  assert ((if JSSet.has (incl cs) event then Normal false
           else canBeIncludedRecur graph context m exempt fuel event
                  {| incl := JSSet.new_Set (incl cs ++ [event]);
                     excl := excl cs; exec := exec cs |})
          ≠ OutOfFuel) as Hincl.
  { destruct (JSSet.has (incl cs) event) eqn:E; [done|].
    apply IH; [done|]. pose proof (absent_add (events graph) (incl cs) event HU E).
    unfold cycleMeasure in *. simpl. lia. }
  assert (∀ other, other ∈ (events graph) →
            match (if JSSet.has (exec cs) other then Normal false
                   else canBeExecutedRecur graph context m exempt fuel other
                          {| excl := excl cs; incl := incl cs;
                             exec := JSSet.new_Set (exec cs ++ [other]) |}) with
            | Normal true => Normal true
            | Normal false =>
              if JSSet.has (excl cs) other then Normal false
              else canBeExcludedRecur graph context m exempt fuel other
                     {| excl := JSSet.new_Set (excl cs ++ [other]);
                        incl := incl cs; exec := exec cs |}
            | c => c
            end ≠ OutOfFuel) as Hboth.
  { intros other Ho. pose proof (Hexec other Ho) as H1.
    destruct (if JSSet.has (exec cs) other then _ else _) as [[|]|e|];
      try done. by apply Hexcl. }
  split_and!.
  - simpl. destruct (negb _ && _); [done|].
    pose proof (isEnabled_settled event graph m) as Hen.
    destruct (isEnabled event graph m) as [[|]|e|]; try done.
    destruct (conditionsFor graph !! event) as [cs'|] eqn:Ec; [|done].
    match goal with |- match everyOf ?l ?b with _ => _ end ≠ _ =>
      pose proof (everyOf_settled l b) as Hev;
      destruct (everyOf l b) as [[|]|e|] end; try done.
    2: { apply Hev. intros x Hxin.
         destruct (_ && _); [|done]. apply Hboth.
         by apply (proj2 (Hc _ _ Ec)). }
    destruct (milestonesFor graph !! event) as [ms|] eqn:Em; [|done].
    match goal with |- match everyOf ?l ?b with _ => _ end ≠ _ =>
      pose proof (everyOf_settled l b) as Hev';
      destruct (everyOf l b) as [[|]|e|] end; try done.
    2: { apply Hev'. intros x Hxin.
         destruct (_ && _); [|done]. apply Hboth.
         by apply (proj2 (Hm _ _ Em)). }
    destruct (negb _); [|done]. exact Hincl.
  - simpl. destruct (excludesFor graph !! event) as [xs|] eqn:Ex; [|done].
    apply someOf_settled. intros x Hxin. apply Hexec.
    by apply (proj2 (Hx _ _ Ex)).
  - simpl. destruct (includesFor graph !! event) as [is_|] eqn:Ei; [|done].
    apply someOf_settled. intros x Hxin. apply Hexec.
    by apply (proj2 (Hi _ _ Ei)).
Qed.

(** An answer does not change when the budget grows. *)
Lemma recur_stable (fuel : nat) :
  ∀ event cycleSets,
    (canBeExecutedRecur graph context m exempt fuel event cycleSets ≠ OutOfFuel →
     canBeExecutedRecur graph context m exempt (S fuel) event cycleSets
       = canBeExecutedRecur graph context m exempt fuel event cycleSets)
    ∧ (canBeExcludedRecur graph context m exempt fuel event cycleSets ≠ OutOfFuel →
       canBeExcludedRecur graph context m exempt (S fuel) event cycleSets
         = canBeExcludedRecur graph context m exempt fuel event cycleSets)
    ∧ (canBeIncludedRecur graph context m exempt fuel event cycleSets ≠ OutOfFuel →
       canBeIncludedRecur graph context m exempt (S fuel) event cycleSets
         = canBeIncludedRecur graph context m exempt fuel event cycleSets).
Proof.
  induction fuel as [|fuel IH]; intros event cs; [by split_and!|].
  assert (∀ other,
            (if JSSet.has (exec cs) other then Normal false
             else canBeExecutedRecur graph context m exempt fuel other
                    {| excl := excl cs; incl := incl cs;
                       exec := JSSet.new_Set (exec cs ++ [other]) |})
            ≠ OutOfFuel →
            (if JSSet.has (exec cs) other then Normal false
             else canBeExecutedRecur graph context m exempt (S fuel) other
                    {| excl := excl cs; incl := incl cs;
                       exec := JSSet.new_Set (exec cs ++ [other]) |})
            = (if JSSet.has (exec cs) other then Normal false
               else canBeExecutedRecur graph context m exempt fuel other
                      {| excl := excl cs; incl := incl cs;
                         exec := JSSet.new_Set (exec cs ++ [other]) |}))
    as Hexec.
  { intros other. destruct (JSSet.has (exec cs) other); [done|]. apply IH. }
  assert (∀ other,
            match (if JSSet.has (exec cs) other then Normal false
                   else canBeExecutedRecur graph context m exempt fuel other
                          {| excl := excl cs; incl := incl cs;
                             exec := JSSet.new_Set (exec cs ++ [other]) |}) with
            | Normal true => Normal true
            | Normal false =>
              if JSSet.has (excl cs) other then Normal false
              else canBeExcludedRecur graph context m exempt fuel other
                     {| excl := JSSet.new_Set (excl cs ++ [other]);
                        incl := incl cs; exec := exec cs |}
            | c => c
            end ≠ OutOfFuel →
            match (if JSSet.has (exec cs) other then Normal false
                   else canBeExecutedRecur graph context m exempt (S fuel) other
                          {| excl := excl cs; incl := incl cs;
                             exec := JSSet.new_Set (exec cs ++ [other]) |}) with
            | Normal true => Normal true
            | Normal false =>
              if JSSet.has (excl cs) other then Normal false
              else canBeExcludedRecur graph context m exempt (S fuel) other
                     {| excl := JSSet.new_Set (excl cs ++ [other]);
                        incl := incl cs; exec := exec cs |}
            | c => c
            end
            = match (if JSSet.has (exec cs) other then Normal false
                     else canBeExecutedRecur graph context m exempt fuel other
                            {| excl := excl cs; incl := incl cs;
                               exec := JSSet.new_Set (exec cs ++ [other]) |}) with
              | Normal true => Normal true
              | Normal false =>
                if JSSet.has (excl cs) other then Normal false
                else canBeExcludedRecur graph context m exempt fuel other
                       {| excl := JSSet.new_Set (excl cs ++ [other]);
                          incl := incl cs; exec := exec cs |}
              | c => c
              end) as Hboth.
  { intros other. pose proof (Hexec other) as H1.
    destruct (if JSSet.has (exec cs) other then Normal false
              else canBeExecutedRecur graph context m exempt fuel other _) as [[|]|e|];
      intros H2; try done; rewrite H1 by done; [done| |done].
    destruct (JSSet.has (excl cs) other); [done|]. by apply IH. }
  split_and!.
  - intros Hset.
    change (canBeExecutedRecur graph context m exempt (S (S fuel)) event cs) with
      (let fuel' := S fuel in canBeExecutedRecur graph context m exempt (S fuel') event cs).
    cbv zeta. revert Hset.
    cbn [canBeExecutedRecur].
    destruct (negb _ && _); [done|].
    destruct (isEnabled event graph m) as [[|]|e|]; try done.
    destruct (conditionsFor graph !! event) as [cs'|]; [|done].
    match goal with
    | |- match everyOf ?l ?b with _ => _ end ≠ _ →
         match everyOf ?l ?b' with _ => _ end = _ =>
      pose proof (everyOf_stable l b b') as Hev;
      destruct (everyOf l b) as [[|]|e|] eqn:Eev
    end; intros Hset; try done;
      (rewrite Hev;
       [|intros x; destruct (_ && _); [apply Hboth|done] | done]);
      [|done|done].
    destruct (milestonesFor graph !! event) as [ms|]; [|done].
    revert Hset.
    match goal with
    | |- match everyOf ?l ?b with _ => _ end ≠ _ →
         match everyOf ?l ?b' with _ => _ end = _ =>
      pose proof (everyOf_stable l b b') as Hev';
      destruct (everyOf l b) as [[|]|e'|] eqn:Eev'
    end; intros Hset; try done;
      (rewrite Hev';
       [|intros x; destruct (_ && _); [apply Hboth|done] | done]);
      [|done|done].
    destruct (negb _); [|done].
    destruct (JSSet.has (incl cs) event); [done|]. by apply IH.
  - cbn [canBeExcludedRecur].
    destruct (excludesFor graph !! event) as [xs|]; [|done].
    intros Hset. apply someOf_stable; [|done]. intros x. apply Hexec.
  - cbn [canBeIncludedRecur].
    destruct (includesFor graph !! event) as [is_|]; [|done].
    intros Hset. apply someOf_stable; [|done]. intros x. apply Hexec.
Qed.

Lemma recur_stable_le (fuel fuel' : nat) :
  (fuel ≤ fuel')%nat →
  ∀ event cycleSets,
    (canBeExecutedRecur graph context m exempt fuel event cycleSets ≠ OutOfFuel →
     canBeExecutedRecur graph context m exempt fuel' event cycleSets
       = canBeExecutedRecur graph context m exempt fuel event cycleSets)
    ∧ (canBeExcludedRecur graph context m exempt fuel event cycleSets ≠ OutOfFuel →
       canBeExcludedRecur graph context m exempt fuel' event cycleSets
         = canBeExcludedRecur graph context m exempt fuel event cycleSets)
    ∧ (canBeIncludedRecur graph context m exempt fuel event cycleSets ≠ OutOfFuel →
       canBeIncludedRecur graph context m exempt fuel' event cycleSets
         = canBeIncludedRecur graph context m exempt fuel event cycleSets).
Proof.
  induction 1 as [|fuel' Hle IH]; intros event cs; [by split_and!|].
  destruct (IH event cs) as (IHe & IHx & IHi).
  destruct (recur_stable fuel' event cs) as (He & Hx & Hi).
  split_and!; intros Hset.
  - rewrite He, IHe; [done..|]. by rewrite IHe.
  - rewrite Hx, IHx; [done..|]. by rewrite IHx.
  - rewrite Hi, IHi; [done..|]. by rewrite IHi.
Qed.

Lemma cycleMeasure_bound (cycleSets : CycleSets) :
  (cycleMeasure (events graph) cycleSets ≤ 3 * length (events graph))%nat.
Proof.
  unfold cycleMeasure.
  pose proof (absent_le (events graph) (exec cycleSets)).
  pose proof (absent_le (events graph) (excl cycleSets)).
  pose proof (absent_le (events graph) (incl cycleSets)). lia.
Qed.
End OracleRecursion.

(** X26.  The reachability checks terminate.  In a graph whose relations
    relate events of the graph, every nested call of the three mutually
    recursive closures puts an event into a cycle set that did not hold it,
    so the calls nest at most three times the number of events deep: with a
    budget above that the checks give an answer, and the answer is the same
    for every larger budget. *)
Theorem canBeExecuted_terminates (graph : LabelDCRPP) (context : list Label)
  (m : Marking) (e : Event) (fuel fuel' : nat) :
  oracleClosed graph → e ∈ events graph →
  (3 * length (events graph) < fuel)%nat → (fuel ≤ fuel')%nat →
  canBeExecuted fuel e graph context m ≠ OutOfFuel
  ∧ canBeExecuted fuel' e graph context m = canBeExecuted fuel e graph context m
  ∧ canBeExecutedOrExcluded fuel e graph context m ≠ OutOfFuel
  ∧ canBeExecutedOrExcluded fuel' e graph context m
    = canBeExecutedOrExcluded fuel e graph context m.
Proof.
  intros Hclosed He Hfuel Hle.
  assert (∀ exempt cs,
            canBeExecutedRecur graph context m exempt fuel e cs ≠ OutOfFuel
            ∧ canBeExcludedRecur graph context m exempt fuel e cs ≠ OutOfFuel)
    as Hset.
  { intros exempt cs.
    destruct (recur_settled graph context m exempt Hclosed fuel e cs He)
      as (H1 & H2 & _); [|done].
    pose proof (cycleMeasure_bound graph cs). lia. }
  assert (∀ exempt cs,
            canBeExecutedRecur graph context m exempt fuel' e cs
            = canBeExecutedRecur graph context m exempt fuel e cs
            ∧ canBeExcludedRecur graph context m exempt fuel' e cs
              = canBeExcludedRecur graph context m exempt fuel e cs)
    as Hsame.
  { intros exempt cs.
    destruct (recur_stable_le graph context m exempt fuel fuel' Hle e cs)
      as (H1 & H2 & _).
    split; [apply H1|apply H2]; apply Hset. }
  unfold canBeExecuted, canBeExecutedOrExcluded. split_and!.
  - apply Hset.
  - apply Hsame.
  - destruct (canBeExecutedRecur _ _ _ None _ _ _) as [[|]|err|] eqn:E;
      try done; [apply Hset|].
    by destruct (Hset None {| excl := []; exec := [e]; incl := [] |}).
  - rewrite !(proj1 (Hsame _ _)), !(proj2 (Hsame _ _)). done.
Qed.

Lemma canBeExecuted_terminates_witness :
  canBeExecuted 7 "B" conditionGraph [] (allIncluded ["A"; "B"]) ≠ OutOfFuel
  ∧ canBeExecuted 10 "B" conditionGraph [] (allIncluded ["A"; "B"])
    = canBeExecuted 7 "B" conditionGraph [] (allIncluded ["A"; "B"])
  ∧ canBeExecutedOrExcluded 7 "B" conditionGraph [] (allIncluded ["A"; "B"])
    ≠ OutOfFuel
  ∧ canBeExecutedOrExcluded 10 "B" conditionGraph [] (allIncluded ["A"; "B"])
    = canBeExecutedOrExcluded 7 "B" conditionGraph [] (allIncluded ["A"; "B"]).
Proof.
  apply canBeExecuted_terminates.
  - apply (bool_decide_unpack _). vm_compute. exact I.
  - apply (bool_decide_unpack _). vm_compute. exact I.
  - simpl. lia.
  - lia.
Defined.

(** ** The recursion of the search *)

Section Settles.
Context {L : Type}.

Lemma settles_mret {A} (a : A) : settles (mret a : M L A).
Proof. by intros w. Qed.

Lemma settles_throw {A} e : settles (throw e : M L A).
Proof. by intros w. Qed.

Lemma settles_getLocals : settles (getLocals : M L L).
Proof. by intros w. Qed.

Lemma settles_setLocals l : settles (setLocals l : M L unit).
Proof. by intros w. Qed.

Lemma settles_readMarking {A} (f : Marking → completion A) :
  (∀ m, f m ≠ OutOfFuel) → settles (readMarking f : M L A).
Proof. intros Hf w. apply Hf. Qed.

Lemma settles_onMarking {A} (f : Marking → Marking * completion A) :
  (∀ m, (f m).2 ≠ OutOfFuel) → settles (onMarking f : M L A).
Proof.
  intros Hf w. unfold onMarking. specialize (Hf (currentMarking w)).
  by destruct (f (currentMarking w)).
Qed.

Lemma settles_bind {A B} (c : M L A) (k : A → M L B) :
  settles c → (∀ a, settles (k a)) → settles (c ≫= k).
Proof.
  intros Hc Hk w. unfold mbind, M_bind. specialize (Hc w).
  destruct (c w) as [w1 [a|e|]]; [apply Hk|done|done].
Qed.

Lemma settles_forOf {S B} (l : list B) (body : S → B → M L S) :
  (∀ s x, settles (body s x)) → ∀ s, settles (forOf l s body).
Proof.
  intros Hbody. induction l as [|x l IH]; intros s; simpl.
  - apply settles_mret.
  - apply settles_bind; auto.
Qed.

Lemma settles_newGraphEnv {A} (fn : M L A) :
  settles fn → settles (newGraphEnv fn).
Proof.
  intros Hfn w. rewrite newGraphEnv_unfold. specialize (Hfn (scratchWorld w)).
  by destruct (fn (scratchWorld w)) as [w2 [v|e|]].
Qed.

Lemma extends_refl {A} (c : M L A) : extends c c.
Proof. by intros w. Qed.

Lemma extends_bind {A B} (c c' : M L A) (k k' : A → M L B) :
  extends c c' → (∀ a, extends (k a) (k' a)) → extends (c ≫= k) (c' ≫= k').
Proof.
  intros Hc Hk w. unfold mbind, M_bind. specialize (Hc w).
  destruct (c w) as [w1 [a|e|]] eqn:E; intros Hrun; [|by rewrite Hc..].
  rewrite Hc by done. by apply Hk.
Qed.

Lemma extends_forOf {S B} (l : list B) (body body' : S → B → M L S) :
  (∀ s x, extends (body s x) (body' s x)) →
  ∀ s, extends (forOf l s body) (forOf l s body').
Proof.
  intros Hbody. induction l as [|x l IH]; intros s; simpl.
  - apply extends_refl.
  - apply extends_bind; auto.
Qed.

Lemma extends_newGraphEnv {A} (fn fn' : M L A) :
  extends fn fn' → extends (newGraphEnv fn) (newGraphEnv fn').
Proof.
  intros Hfn w. rewrite !newGraphEnv_unfold. specialize (Hfn (scratchWorld w)).
  destruct (fn (scratchWorld w)) as [w2 [v|e|]] eqn:E; intros Hrun;
    by rewrite Hfn.
Qed.
End Settles.

Lemma settles_withLocals {L L' A} (init : L') (c : M L' A) :
  settles c → settles (withLocals init c : M L A).
Proof.
  intros Hc w. unfold withLocals.
  specialize (Hc {| heap := heap w; next := next w; gmarking := gmarking w;
                    locals := init |}).
  by destruct (c _).
Qed.

Lemma extends_withLocals {L L' A} (init : L') (c c' : M L' A) :
  extends c c' → extends (withLocals init c : M L A) (withLocals init c').
Proof.
  intros Hc w. unfold withLocals.
  specialize (Hc {| heap := heap w; next := next w; gmarking := gmarking w;
                    locals := init |}).
  destruct (c _) as [w1 r] eqn:E. intros Hrun. by rewrite Hc.
Qed.

Lemma execute_settled e (g : LabelDCRPP) m : (execute e g m).2 ≠ OutOfFuel.
Proof.
  unfold execute. destruct (responseTo g !! e); [|done].
  destruct (excludesTo g !! e); [|done]. by destruct (includesTo g !! e).
Qed.

Lemma getEnabled_settled (graph : DCRGraph) m : getEnabled graph m ≠ OutOfFuel.
Proof.
  rewrite getEnabled_unfold.
  apply (foldl_invariant (λ acc, acc ≠ OutOfFuel)); [|done].
  intros acc e _ Hacc. unfold getEnabledRound.
  destruct acc as [r|err|]; [|done..].
  destruct (conditionsFor graph !! e); [|done].
  by destruct (milestonesFor graph !! e).
Qed.

Create HintDb settles.
#[local] Hint Resolve settles_mret settles_throw settles_getLocals
  settles_setLocals : settles.

Ltac settles_step :=
  match goal with
  | |- settles (_ ≫= _) => apply settles_bind; [|intros ?]
  | |- settles (forOf _ _ _) => apply settles_forOf; intros ? ?
  | |- settles (newGraphEnv _) => apply settles_newGraphEnv
  | |- settles (readMarking _) => apply settles_readMarking; intros ?
  | |- settles (onMarking _) => apply settles_onMarking; intros ?
  | |- settles (if ?b then _ else _) => destruct b
  | |- settles (match ?x with _ => _ end) => destruct x
  | |- settles _ => solve [auto with settles]
  | |- (execute _ _ _).2 ≠ OutOfFuel => apply execute_settled
  | |- getEnabled _ _ ≠ OutOfFuel => apply getEnabled_settled
  | |- isEnabled _ _ _ ≠ OutOfFuel => apply isEnabled_settled
  | |- Normal _ ≠ OutOfFuel => discriminate
  end.

Ltac extends_step :=
  match goal with
  | |- extends ?c ?c => apply extends_refl
  | |- extends (_ ≫= _) (_ ≫= _) => apply extends_bind; [|intros ?]
  | |- extends (forOf _ _ _) (forOf _ _ _) => apply extends_forOf; intros ? ?
  | |- extends (newGraphEnv _) (newGraphEnv _) => apply extends_newGraphEnv
  | |- extends (if ?b then _ else _) (if ?b then _ else _) => destruct b
  | |- extends (match ?x with _ => _ end) (match ?x with _ => _ end) =>
      destruct x
  end.

Section Depth.
Variables (graph : LabelDCRPP) (context : list Label) (alignCost : CostFun)
          (oracleFuel : nat).

Lemma settles_setMaxCost c : settles (setMaxCost c).
Proof. unfold setMaxCost. repeat settles_step. Qed.

(** The search below a depth limit: every nested call is one level deeper,
    and at the limit the search returns. *)
Lemma settles_alignTraceLabel (d : Z) :
  ∀ fuel keys trace curCost (k : Z),
    (Z.to_nat (d - k) < fuel)%nat →
    settles (alignTraceLabel graph context alignCost (Num d) false oracleFuel
               fuel keys trace curCost (Num k)).
Proof.
  pose proof settles_setMaxCost as Hmax.
  induction fuel as [|fuel IH]; intros keys trace curCost k Hk; [lia|].
  cbn [alignTraceLabel].
  apply settles_bind; [apply settles_getLocals|]. intros vars.
  destruct (match maxCost vars with Some _ => _ | None => _ end);
    [apply settles_mret|].
  destruct (JS.ge (Num k) (Num d)) eqn:Hge; [apply settles_mret|].
  unfold JS.ge in Hge. simpl in Hge. apply bool_decide_eq_false in Hge.
  assert (∀ ks tr c, settles (alignTraceLabel graph context alignCost (Num d)
                                false oracleFuel fuel ks tr c
                                (JS.plus (Num k) (Num 1)))) as Hrec.
  { intros ks tr c. simpl. apply IH. lia. }
  simpl andb. cbv iota.
  repeat settles_step.
Qed.

Lemma extends_alignTraceLabel_step toDepth pruning (fuel fuel' : nat) :
  (∀ keys trace curCost curDepth,
     extends (alignTraceLabel graph context alignCost toDepth pruning
                oracleFuel fuel keys trace curCost curDepth)
             (alignTraceLabel graph context alignCost toDepth pruning
                oracleFuel fuel' keys trace curCost curDepth)) →
  ∀ keys trace curCost curDepth,
    extends (alignTraceLabel graph context alignCost toDepth pruning oracleFuel
               (S fuel) keys trace curCost curDepth)
            (alignTraceLabel graph context alignCost toDepth pruning oracleFuel
               (S fuel') keys trace curCost curDepth).
Proof.
  intros Hrec keys trace curCost curDepth. cbn [alignTraceLabel].
  repeat (first [apply Hrec | extends_step]).
Qed.

Lemma extends_alignTraceLabel toDepth pruning (fuel fuel' : nat) :
  (fuel ≤ fuel')%nat →
  ∀ keys trace curCost curDepth,
    extends (alignTraceLabel graph context alignCost toDepth pruning oracleFuel
               fuel keys trace curCost curDepth)
            (alignTraceLabel graph context alignCost toDepth pruning oracleFuel
               fuel' keys trace curCost curDepth).
Proof.
  revert fuel'. induction fuel as [|fuel IH]; intros fuel' Hle.
  { intros keys trace curCost curDepth w Hrun. by destruct Hrun. }
  destruct fuel' as [|fuel']; [lia|].
  apply extends_alignTraceLabel_step. apply IH. lia.
Qed.

Lemma extends_align {L} toDepth pruning (fuel fuel' : nat)
    (keys : list MarkingKey) (trace : Trace) :
  (fuel ≤ fuel')%nat →
  extends (align (L:=L) graph context alignCost toDepth pruning oracleFuel
             fuel keys trace)
          (align graph context alignCost toDepth pruning oracleFuel
             fuel' keys trace).
Proof.
  intros Hle.
  pose proof (extends_alignTraceLabel toDepth pruning fuel fuel' Hle) as Hrec.
  unfold align, initialBound. apply extends_withLocals.
  repeat (first [apply Hrec | extends_step]).
Qed.

(** X27.  Under a depth limit (and without pruning) the search terminates:
    every nested call of [alignTraceLabel] is one level deeper and the
    search returns at the limit, so [align] gives a result with any budget
    above the limit, and the same result with every larger budget. *)
Theorem align_terminates_under_depth_limit {L} (d : Z) (fuel fuel' : nat)
  (keys : list MarkingKey) (trace : Trace) (w : World L) :
  (Z.to_nat d < fuel)%nat → (fuel ≤ fuel')%nat →
  (align graph context alignCost (Num d) false oracleFuel fuel keys trace w).2
  ≠ OutOfFuel
  ∧ align graph context alignCost (Num d) false oracleFuel fuel' keys trace w
    = align graph context alignCost (Num d) false oracleFuel fuel keys trace w.
Proof.
  intros Hfuel Hle.
  assert (settles (align (L:=L) graph context alignCost (Num d) false
                     oracleFuel fuel keys trace)) as Hset.
  { pose proof settles_setMaxCost as Hmax.
    pose proof (λ ks, settles_alignTraceLabel d fuel ks trace (Num 0) 0
                          ltac:(lia)) as Hrec.
    unfold align, initialBound. apply settles_withLocals.
    simpl negb. cbv iota. repeat settles_step. }
  split; [apply Hset|]. apply extends_align; [done|apply Hset].
Qed.
End Depth.

Lemma align_terminates_under_depth_limit_witness :
  (align conditionGraph [] skipCost (Num 3) false 0 4 standardKeys ["A"; "B"]
         (initWorld (allIncluded ["A"; "B"]) tt)).2
  ≠ OutOfFuel
  ∧ align conditionGraph [] skipCost (Num 3) false 0 9 standardKeys ["A"; "B"]
          (initWorld (allIncluded ["A"; "B"]) tt)
    = align conditionGraph [] skipCost (Num 3) false 0 4 standardKeys ["A"; "B"]
            (initWorld (allIncluded ["A"; "B"]) tt).
Proof. apply align_terminates_under_depth_limit; simpl; lia. Defined.

(** ** The alignments that the search returns *)

Section Yields.
Context {L : Type}.
Variable m : Marking.

Lemma yields_any {A} (c : M L A) : yields m c (λ _, True).
Proof. by intros w w' a _ _ _. Qed.

Lemma yields_mret {A} (a : A) (Q : A → Prop) : Q a → yields m (mret a : M L A) Q.
Proof. intros HQ w w' a' _ _ [= _ <-]. done. Qed.

Lemma yields_throw {A} e (Q : A → Prop) : yields m (throw e : M L A) Q.
Proof. by intros w w' a _ _. Qed.

Lemma yields_outOfFuel {A} (Q : A → Prop) : yields m (outOfFuel : M L A) Q.
Proof. by intros w w' a _ _. Qed.

Lemma yields_readMarking {A} (f : Marking → completion A) (Q : A → Prop) :
  (∀ a, f m = Normal a → Q a) → yields m (readMarking f : M L A) Q.
Proof.
  intros Hf w w' a _ Hm. unfold readMarking. rewrite Hm.
  intros [= _ Ha]. by apply Hf.
Qed.

Lemma neutral_keeps_marking {A} (c : M L A) (w w' : World L) (a : A) :
  neutral c → valid w → c w = (w', Normal a) →
  valid w' ∧ currentMarking w' = currentMarking w.
Proof.
  intros Hc Hv Hrun. destruct (Hc w w' a Hv Hrun) as (Hv' & _ & Hg & Hh).
  split; [done|]. unfold currentMarking. rewrite Hg. apply Hh, Hv.
Qed.

Lemma yields_bind {A B} (c : M L A) (k : A → M L B)
  (Q1 : A → Prop) (Q2 : B → Prop) :
  neutral c → yields m c Q1 → (∀ a, Q1 a → yields m (k a) Q2) →
  yields m (c ≫= k) Q2.
Proof.
  intros Hn Hc Hk w w' b Hv Hm (w1 & a & Hrun & Hrest)%bind_normal.
  destruct (neutral_keeps_marking c w w1 a Hn Hv Hrun) as [Hv1 Hm1].
  apply (Hk a (Hc w w1 a Hv Hm Hrun) w1 w' b Hv1); [congruence|done].
Qed.

Lemma yields_forOf {S B} (l : list B) (body : S → B → M L S) (Q : S → Prop) :
  (∀ s x, neutral (body s x)) →
  (∀ s x, x ∈ l → Q s → yields m (body s x) Q) →
  ∀ s, Q s → yields m (forOf l s body) Q.
Proof.
  intros Hn. induction l as [|x l IH]; intros Hbody s Hs; simpl.
  - by apply yields_mret.
  - eapply yields_bind; [apply Hn|apply Hbody; [left|done]|].
    intros s' Hs'. apply IH; [|done].
    intros s'' y Hy. apply Hbody. by right.
Qed.
End Yields.

Lemma yields_withLocals {L L' A} m (init : L') (c : M L' A) (Q : A → Prop) :
  yields m c Q → yields m (withLocals init c : M L A) Q.
Proof.
  intros Hc w w' a Hv Hm. unfold withLocals.
  destruct (c _) as [w1 r] eqn:E. intros [= _ ->].
  by apply (Hc _ w1 a (Hv : valid (mkWorld _ _ _ init)) Hm E).
Qed.

Section Sound.
Variables (graph : LabelDCRPP) (context : list Label) (alignCost : CostFun)
          (toDepth : number) (pruning : bool) (oracleFuel : nat).

Lemma runsTo_sameSets (evs : list Event) :
  ∀ m1 m2, sameSets m1 m2 → runsTo graph m1 evs = runsTo graph m2 evs.
Proof.
  induction evs as [|e evs IH]; intros m1 m2 Hsame; simpl.
  - by apply isAccepting_sameSets.
  - rewrite (isEnabled_sameSets e graph m1 m2 Hsame).
    destruct (isEnabled e graph m2) as [[|]|err|]; try done.
    destruct (execute_sameSets e graph m1 m2 Hsame) as [Hc Hm].
    destruct (execute e graph m1) as [m1' c1], (execute e graph m2) as [m2' c2].
    simpl in *. subst c2. destruct c1; [|done..]. by apply IH.
Qed.

Lemma getEnabled_elem (m : Marking) (s : EventSet) (e : Event) :
  getEnabled graph m = Normal s → e ∈ s → isEnabled e graph m = Normal true.
Proof.
  intros Hs He. rewrite getEnabled_unfold in Hs.
  destruct (decide (Forall (λ e, is_Some (conditionsFor graph !! e)
                                 ∧ is_Some (milestonesFor graph !! e))
                           (events graph))) as [Hall|Hnot].
  - destruct (getEnabled_loop graph m (events graph) (copySet (events graph))
                Hall) as (s' & Hs' & Hin).
    rewrite Hs' in Hs. injection Hs as ->. apply Hin in He as [He Hen].
    apply Hen. unfold copySet in He.
    by rewrite JSSetFacts.elem_of_new_Set in He.
  - apply not_Forall_Exists in Hnot; [|intros; apply _].
    apply Exists_exists in Hnot as (x & Hx & Hmiss).
    rewrite (getEnabled_loop_raises graph m (events graph) x) in Hs;
      [done..|].
    destruct (conditionsFor graph !! x) eqn:Ec; [|by left].
    destruct (milestonesFor graph !! x) eqn:Em; [|by right].
    destruct Hmiss. split; eauto.
Qed.

Lemma sound_noAlignment m : sound graph m noAlignment.
Proof. by intros H. Qed.

(** A move: the event is executed on a copy of the marking and the search
    goes on from there. *)
Lemma yields_move m event (rest : M AlignVars Alignment) :
  isEnabled event graph m = Normal true →
  (∀ m1, yields m1 rest (sound graph m1)) →
  yields m (newGraphEnv (onMarking (execute event graph);; rest))
         (λ alignment, cost alignment ≠ Infinity →
                       runsTo graph m (event :: firedEvents alignment) = true).
Proof.
  intros Hen Hrest w w' a Hv Hm. rewrite newGraphEnv_unfold.
  destruct ((onMarking (execute event graph);; rest) (scratchWorld w))
    as [w2 [v|err|]] eqn:Hrun; [|done..].
  intros [= _ <-] Hcost.
  apply bind_normal in Hrun as (w1 & u & Hexec & Hrun).
  unfold onMarking in Hexec.
  assert (currentMarking (scratchWorld w) = copyMarking m) as Hcur.
  { unfold scratchWorld, currentMarking at 1. simpl.
    rewrite fn_lookup_insert. by rewrite Hm. }
  rewrite Hcur in Hexec.
  destruct (execute event graph (copyMarking m)) as [m1 c1] eqn:Hex.
  injection Hexec as <- ->.
  assert (runsTo graph m1 (firedEvents v) = true) as Hruns.
  { eapply (Hrest m1); [| |exact Hrun|done].
    - unfold valid in *. simpl. lia.
    - unfold currentMarking. simpl. by rewrite fn_lookup_insert. }
  simpl. rewrite Hen.
  destruct (execute_sameSets event graph m (copyMarking m)) as [Hc Hsame].
  { split_and!; intros x; unfold copyMarking, copySet; simpl;
      by rewrite JSSetFacts.elem_of_new_Set. }
  rewrite Hex in Hc, Hsame. simpl in *.
  destruct (execute event graph m) as [m1' c1']. simpl in *. subst c1'.
  by rewrite (runsTo_sameSets _ m1' m1 Hsame).
Qed.

Lemma neutral_update (alignment best : Alignment) (fired : list Event) :
  neutral (if JS.lt (cost alignment) (cost best)
           then setMaxCost (cost alignment);;
                mret {| cost := cost alignment; trace := fired |}
           else mret best).
Proof.
  pose proof neutral_setMaxCost as Hmax. repeat neutral_step.
Qed.

(** The update of [bestAlignment] that follows a move. *)
Lemma yields_update m (alignment best : Alignment) (fired : list Event) :
  (cost alignment ≠ Infinity → runsTo graph m fired = true) →
  sound graph m best →
  yields m (if JS.lt (cost alignment) (cost best)
            then setMaxCost (cost alignment);;
                 mret {| cost := cost alignment; trace := fired |}
            else mret best)
         (sound graph m).
Proof.
  intros Ha Hb. destruct (JS.lt _ _) eqn:Hlt; [|by apply yields_mret].
  eapply yields_bind; [apply neutral_setMaxCost|apply yields_any|].
  intros _ _. apply yields_mret. exact Ha.
Qed.

Lemma yields_alignTraceLabel :
  ∀ fuel keys trace curCost curDepth m,
    yields m (alignTraceLabel graph context alignCost toDepth pruning
                oracleFuel fuel keys trace curCost curDepth)
           (sound graph m).
Proof.
  pose proof neutral_setMaxCost as Hmax.
  pose proof (neutral_move graph context alignCost toDepth pruning oracleFuel)
    as Hmove.
  pose proof (neutral_alignTraceLabel graph context alignCost toDepth pruning
                oracleFuel) as Hrec.
  pose proof neutral_update as Hupd.
  induction fuel as [|fuel IH]; intros keys trace curCost curDepth m; simpl.
  { apply yields_outOfFuel. }
  eapply yields_bind; [apply neutral_getLocals|apply yields_any|].
  intros vars _.
  match goal with |- yields _ (if ?b then _ else _) _ => destruct b end;
    [apply yields_mret, sound_noAlignment|].
  destruct (JS.ge curDepth toDepth);
    [apply yields_mret, sound_noAlignment|].
  eapply yields_bind; [apply neutral_readMarking|apply yields_any|].
  intros stateStr _.
  destruct (alignState vars !! length trace) as [visited|];
    [|apply yields_throw].
  match goal with |- yields _ (if ?b then _ else _) _ => destruct b end;
    [apply yields_mret, sound_noAlignment|].
  eapply yields_bind; [apply neutral_setLocals|apply yields_any|].
  intros _ _.
  apply yields_bind with (Q1 := λ b, b = isAccepting graph m);
    [apply neutral_readMarking
    |apply yields_readMarking; by intros a [= <-]|].
  intros isAccept ->.
  destruct (isAccepting graph m && (length trace =? 0)%nat) eqn:Hacc.
  { apply yields_mret. intros _. simpl.
    apply andb_true_iff in Hacc as [Hacc Hlen].
    destruct trace; [done|discriminate]. }
  (* Consume *)
  apply yields_bind with (Q1 := sound graph m); [solve [repeat neutral_step]| |].
  { destruct trace as [|label rest];
      [apply yields_mret, sound_noAlignment|].
    destruct (labelMapInv graph !! label) as [evs|]; [|apply yields_throw].
    apply yields_forOf; [intros; solve [repeat neutral_step]
                        | |apply sound_noAlignment].
    intros best event _ Hbest.
    apply yields_bind with (Q1 := λ b, isEnabled event graph m = Normal b);
      [apply neutral_readMarking|by apply yields_readMarking|].
    intros [|] Hen; [|by apply yields_mret].
    eapply yields_bind; [apply Hmove|apply yields_move; [done|apply IH]|].
    intros alignment Ha. by apply yields_update. }
  intros best Hbest.
  (* Trace-skip *)
  apply yields_bind with (Q1 := sound graph m); [solve [repeat neutral_step]| |].
  { destruct trace as [|label rest]; [by apply yields_mret|].
    eapply yields_bind; [apply Hrec|apply IH|]. intros alignment Ha.
    destruct alignment as [c tr].
    exact (yields_update m {| cost := c; trace := tr |} best tr Ha Hbest). }
  clear best Hbest. intros best Hbest.
  (* The reachability check *)
  eapply yields_bind; [apply neutral_getLocals|apply yields_any|].
  intros vars' _.
  eapply yields_bind; [solve [repeat neutral_step]|apply yields_any|].
  intros [|] _; simpl; [|apply yields_mret, sound_noAlignment].
  (* Model-skip *)
  apply yields_bind with (Q1 := λ s, getEnabled graph m = Normal s);
    [apply neutral_readMarking|by apply yields_readMarking|].
  intros enabled Hen.
  apply yields_forOf; [intros; solve [repeat neutral_step]| |done].
  intros best' event Hin Hbest'.
  eapply yields_bind;
    [apply Hmove
    |apply yields_move; [by apply (getEnabled_elem m enabled)|apply IH]|].
  intros alignment Ha. by apply yields_update.
Qed.

(** X28.  An alignment that [align] returns with a cost other than
    [Infinity] is a run of the graph: its events can be executed one after
    the other from the marking the graph had at the call, each of them
    enabled when its turn comes, and they lead to an accepting marking. *)
Theorem align_sound {L} (fuel : nat) (keys : list MarkingKey) (trace : Trace)
  (w w' : World L) (alignment : Alignment) :
  valid w →
  align graph context alignCost toDepth pruning oracleFuel fuel keys trace w
  = (w', Normal alignment) →
  cost alignment ≠ Infinity →
  runsTo graph (currentMarking w) (firedEvents alignment) = true.
Proof.
  intros Hv Hrun.
  pose proof neutral_setMaxCost as Hmax.
  pose proof (neutral_alignTraceLabel graph context alignCost toDepth pruning
                oracleFuel) as Hrec.
  apply (yields_withLocals (currentMarking w) _ _ (sound graph (currentMarking w)))
    in Hrun; [done| |done|done].
  eapply yields_bind;
    [unfold initialBound; solve [repeat neutral_step]|apply yields_any|].
  intros bound _.
  eapply yields_bind; [apply Hmax|apply yields_any|]. intros _ _.
  eapply yields_bind; [apply neutral_getLocals|apply yields_any|].
  intros vars _.
  eapply yields_bind; [apply neutral_setLocals|apply yields_any|].
  intros _ _. apply yields_alignTraceLabel.
Qed.
End Sound.

Lemma align_sound_witness :
  runsTo conditionGraph (allIncluded ["A"; "B"]) ["A"; "B"] = true.
Proof.
  apply (align_sound conditionGraph [] skipCost Infinity false 5 8
           standardKeys ["A"; "B"] (initWorld (allIncluded ["A"; "B"]) tt)
           (align conditionGraph [] skipCost Infinity false 5 8 standardKeys
              ["A"; "B"] (initWorld (allIncluded ["A"; "B"]) tt)).1
           {| cost := Num 0; trace := ["A"; "B"] |}).
  - unfold valid. simpl. lia.
  - apply run_result. vm_compute. reflexivity.
  - discriminate.
Defined.

(** ** The kernel and the engine of the specification *)

Section Engines.
Implicit Types (g : DCRGraph) (m : Marking) (e : Event).

Lemma foldl_delete_difference (xs s : EventSet) :
  foldl (λ s y, JSSet.delete y s) s xs = JSSet.difference s xs.
Proof.
  unfold JSSet.difference, JSSet.delete. revert s.
  induction xs as [|x xs IH]; intros s; simpl.
  - induction s as [|y s IHs]; [done|].
    rewrite filter_cons_True by apply not_elem_of_nil. by rewrite <- IHs.
  - rewrite IH. rewrite list_filter_filter. apply list_filter_iff.
    intros y. rewrite not_elem_of_cons. tauto.
Qed.

Lemma negb_existsb {A} (f : A → bool) (l : list A) :
  negb (existsb f l) = forallb (λ x, negb (f x)) l.
Proof.
  induction l as [|x l IH]; [done|]. simpl. by rewrite negb_orb, IH.
Qed.

Lemma forallb_pointwise {A} (f f' : A → bool) (l : list A) :
  (∀ x, f x = f' x) → forallb f l = forallb f' l.
Proof.
  intros Hf. induction l as [|x l IH]; [done|]. simpl. by rewrite Hf, IH.
Qed.

(** X29.  On a graph without sub-processes the kernel of utility.ts and the
    engine that the specification describes are the same: for an event that
    has its entries in the five relations, [isEnabled], [isAccepting] and
    [execute] return what [specIsEnabledS], [specIsAcceptingS] and
    [specExecuteS] return. *)
Theorem kernel_is_spec_engine g e m (cs ms rs xs is_ : EventSet) :
  conditionsFor g !! e = Some cs → milestonesFor g !! e = Some ms →
  responseTo g !! e = Some rs → excludesTo g !! e = Some xs →
  includesTo g !! e = Some is_ →
  isEnabled e g m = Normal (specIsEnabledS e (flat g) None m)
  ∧ isAccepting g m = specIsAcceptingS (flat g) m
  ∧ execute e (graphToGraphPP g) m = specExecuteS e (flat g) m.
Proof.
  intros Hc Hm Hr Hx Hi. split_and!.
  - rewrite (isEnabled_defined e g m cs ms Hc Hm).
    unfold specIsEnabledS. simpl. rewrite Hc, Hm. simpl.
    rewrite !negb_existsb.
    rewrite (forallb_pointwise _
               (λ c, negb (JSSet.has (included m) c) || JSSet.has (executed m) c)
               cs)
      by (intros c; by rewrite negb_andb, negb_involutive).
    rewrite (forallb_pointwise _
               (λ x, negb (JSSet.has (included m) x)
                     || negb (JSSet.has (pending m) x)) ms)
      by (intros x; by rewrite negb_andb).
    done.
  - apply eq_true_iff_eq. rewrite isAccepting_iff.
    unfold specIsAcceptingS. rewrite forallb_forall. split.
    + intros H p Hp%list_elem_of_In. apply negb_true_iff, JSSetFacts.has_false.
      by apply H.
    + intros H p Hp%list_elem_of_In. apply JSSetFacts.has_false, negb_true_iff.
      by apply H.
  - rewrite (execute_defined e (graphToGraphPP g) m rs xs is_ Hr Hx Hi).
    unfold executed_marking, specExecuteS. simpl. rewrite Hr, Hx, Hi. simpl.
    by rewrite foldl_delete_difference.
Qed.
End Engines.

Lemma kernel_is_spec_engine_witness :
  isEnabled "B" conditionGraph (allIncluded ["A"; "B"])
  = Normal (specIsEnabledS "B" (flat conditionGraph) None
              (allIncluded ["A"; "B"]))
  ∧ isAccepting conditionGraph (allIncluded ["A"; "B"])
    = specIsAcceptingS (flat conditionGraph) (allIncluded ["A"; "B"])
  ∧ execute "B" (graphToGraphPP conditionGraph) (allIncluded ["A"; "B"])
    = specExecuteS "B" (flat conditionGraph) (allIncluded ["A"; "B"]).
Proof.
  apply (kernel_is_spec_engine conditionGraph "B" (allIncluded ["A"; "B"])
           ["A"] [] [] [] []); reflexivity.
Defined.

(** ** The size of a model *)

Section RelationCount.






End RelationCount.


